(** * Amharic Imposter: the game session state machine

    A shallow embedding of the turn-based game session that the Telegram bot
    (the telegraf bot with its per-chat [Session]) and the React web client
    ([App], whose state lives in [useState] cells) both implement: setup,
    imposter assignment, sequential word reveal, sequential voting and the
    result tally.

    Conventions of the embedding.
    - The numbers the bot takes from the user (player count, imposter
      count, a callback payload) pass [Number.isInteger] before they are
      used, and are [Z], as are the entries of [votes]; cursors that the
      code only ever sets to [0] or increments are [nat].
    - The web client's number boxes hand over [Number(event.target.value)]
      and drop nothing but [NaN]: a count is any other JavaScript number
      ([Web.Number]), and the two count cells, which only ever hold clamped
      values, are rationals (every finite double is one; on the clamped
      range [count - 1] is exact in double arithmetic).
    - A JavaScript array of numbers is a [list (option Z)]: [None] is a hole
      (an index that reads as [undefined]); writing past the end extends the
      array, as JavaScript does.
    - [Math.random()] is a rational in [[0, 1)], supplied by an oracle, one
      value per call; rounding of the floating-point product is not
      modelled.
    - In the handlers, a message sent to the chat is abstracted to a
      [Reply] tag; the bot's message builders (texts and keyboards) are
      embedded apart, in [BotRender]. Of the web page's JSX only which
      controls a render offers is kept. *)

From stdpp Require Import base numbers list gmap sets strings pretty.
From Stdlib Require Import QArith Qround Qminmax Lqa.

Set Warnings "-clear-no-such-hyp".

Open Scope Z_scope.

#[global] Instance Qlt_dec (x y : Q) : Decision (x < y)%Q.
Proof. unfold Qlt. apply _. Defined.

#[global] Instance Qle_dec (x y : Q) : Decision (x <= y)%Q.
Proof. unfold Qle. apply _. Defined.

#[global] Instance Qeq_dec (x y : Q) : Decision (x == y)%Q.
Proof. unfold Qeq. apply _. Defined.

(** ** Code shared verbatim by the bot and the web client

    [ensureNameList], [getMaxImposters] and the sampling loop are given here
    at whole counts, which is all the bot passes them; [Web] reads the
    same code at the counts the page can hold. *)

Module Common.

Record PlayerAssignment := mkPlayer {
  id : nat;
  name : string;
  isImposter : bool;
  word : option string
}.

Definition MIN_PLAYERS : Z := 3.
Definition MAX_PLAYERS : Z := 12.
Definition MIN_IMPOSTERS : Z := 1.

Definition defaultNamePrefix : string := "ተጫዋች ".

(** [createDefaultName(index)]: the prefix followed by [index + 1]. *)
Definition createDefaultName (index : nat) : string :=
  defaultNamePrefix +:+ pretty (index + 1)%nat.

(** [current.slice(0, count)]: a negative [count] is taken from the end. *)
Definition slice0 {A} (current : list A) (count : Z) : list A :=
  if decide (count < 0)
  then take (Z.to_nat (Z.max 0 (Z.of_nat (length current) + count))) current
  else take (Z.to_nat count) current.

(** [ensureNameList]: truncate to [count] names, then push default names
    for the positions [trimmed.length .. count - 1]. *)
Definition ensureNameList (count : Z) (current : list string) : list string :=
  let trimmed := slice0 current count in
  if decide (Z.of_nat (length trimmed) = count) then trimmed
  else trimmed ++ (createDefaultName <$>
                     seq (length trimmed) (Z.to_nat (count - Z.of_nat (length trimmed)))).

Definition getMaxImposters (count : Z) : Z :=
  Z.max MIN_IMPOSTERS (Z.max 0 (count - 1)).

(** The random source of one handler run: the values successive calls of
    [Math.random()] return, and the word [pickRandomWord()] returns
    ([words.js] is not part of the sources, so the word is a parameter). *)
Record Oracle := mkOracle {
  random : nat -> Q;
  pickRandomWord : string
}.

(** The contract of [Math.random()]: every value lies in [[0, 1)]. *)
Definition randomOk (o : Oracle) : Prop :=
  forall i : nat, (0 <= random o i)%Q /\ (random o i < 1)%Q.

(** [Math.floor(Math.random() * span)] for the random value [r]. *)
Definition randomIndex (r : Q) (span : Z) : Z :=
  Qfloor (r * inject_Z span).

(** The rejection-sampling loop
    [while (imposterIndices.size < wanted) imposterIndices.add(floor(random() * span))].
    [calls] counts the calls of [Math.random()] made so far; [fuel] bounds
    the number of iterations, [None] meaning the loop is still running
    when the fuel is spent. *)
Fixpoint sampleLoop (fuel : nat) (rnd : nat -> Q) (calls : nat)
    (span wanted : Z) (imposterIndices : gset Z) : option (gset Z) :=
  if decide (Z.of_nat (size imposterIndices) < wanted) then
    match fuel with
    | O => None
    | S fuel' =>
        sampleLoop fuel' rnd (S calls) span wanted
          ({[ randomIndex (rnd calls) span ]} ∪ imposterIndices)
    end
  else Some imposterIndices.

(** [const imposterIndices = new Set(); while ...] *)
Definition drawImposterIndices (fuel : nat) (rnd : nat -> Q)
    (span wanted : Z) : option (gset Z) :=
  sampleLoop fuel rnd 0 span wanted ∅.

(** The set of indices that the calls [from .. from + count - 1] of the
    random source produce. *)
Definition drawnIndices (rnd : nat -> Q) (span : Z) (from count : nat) : gset Z :=
  list_to_set ((fun i => randomIndex (rnd i) span) <$> seq from count).

(** [names.map((name, index) => ({ id: index, name, isImposter:
    imposterIndices.has(index), word: imposterIndices.has(index) ? null : word }))] *)
Definition buildAssignments (names : list string) (imposterIndices : gset Z)
    (word : string) : list PlayerAssignment :=
  imap (fun index name =>
          {| id := index;
             name := name;
             isImposter := bool_decide (Z.of_nat index ∈ imposterIndices);
             word := if bool_decide (Z.of_nat index ∈ imposterIndices)
                     then None else Some word |}) names.

(** [assignments.filter((player) => player.isImposter).length] *)
Definition countImposters (players : list PlayerAssignment) : nat :=
  length (filter (fun p => isImposter p = true) players).

(** [Array(count).fill(-1)] *)
Definition freshVotes (count : Z) : list (option Z) :=
  replicate (Z.to_nat count) (Some (-1)).

(** [array[i]]: [None] stands for [undefined] (a hole, or past the end). *)
Definition arrayGet (array : list (option Z)) (i : nat) : option Z :=
  mjoin (array !! i).

(** [array[i] = v]: in range the entry is replaced; past the end the array
    is extended, the skipped positions becoming holes. *)
Definition arraySet (array : list (option Z)) (i : nat) (v : Z) : list (option Z) :=
  if decide (i < length array)%nat then <[i := Some v]> array
  else array ++ replicate (i - length array) None ++ [Some v].

(** [votes.filter((vote) => vote === target).length]; [filter] skips holes. *)
Definition countVotes (votes : list (option Z)) (target : Z) : nat :=
  length (filter (fun vote => vote = Some target) votes).

Record VoteEntry := mkEntry {
  player : PlayerAssignment;
  entryVotes : nat
}.

(** [players.map((player, targetIndex) => ({ player, votes:
    votes.filter((vote) => vote === targetIndex).length }))]: the web
    client's [getVoteSummary]; the bot builds its [voteSummary] with the
    same expression. *)
Definition getVoteSummary (votes : list (option Z))
    (players : list PlayerAssignment) : list VoteEntry :=
  imap (fun targetIndex player =>
          {| player := player;
             entryVotes := countVotes votes (Z.of_nat targetIndex) |}) players.

(** [voteSummary.filter((entry) => entry.votes === highestVote && highestVote > 0)
      .map((entry) => entry.player.name)]: the names before [join(', ')]. *)
Definition mostVotedList (voteSummary : list VoteEntry) (highestVote : nat)
    : list string :=
  (fun entry => name (player entry)) <$>
    filter (fun entry => entryVotes entry = highestVote /\ (0 < highestVote)%nat)
           voteSummary.

(** [names.join(', ')] *)
Definition joinNames (names : list string) : string :=
  String.concat ", " names.

End Common.

Export Common.

(** ** The Telegram bot (telegraf): one [Session] per chat *)

Module Bot.

Inductive Stage :=
| idle | askPlayerCount | collectNames | askImposterCount
| reveal | voting | result.

#[global] Instance Stage_eq_dec : EqDecision Stage.
Proof. solve_decision. Defined.

Record Session := mkSession {
  stage : Stage;
  playerCount : Z;
  playerNames : list string;
  imposterCount : Z;
  assignments : list PlayerAssignment;
  selectedWord : string;
  currentRevealIndex : nat;
  wordRevealed : bool;
  currentVoterIndex : nat;
  votes : list (option Z)
}.

Definition resetSession : Session :=
  {| stage := askPlayerCount;
     playerCount := MIN_PLAYERS;
     playerNames := ensureNameList MIN_PLAYERS [];
     imposterCount := MIN_IMPOSTERS;
     assignments := [];
     selectedWord := "";
     currentRevealIndex := 0;
     wordRevealed := false;
     currentVoterIndex := 0;
     votes := [] |}.

(** What the handler tells the chat; each tag names one message of the
    source. The validation failures are [OutOfRangePlayers] and
    [OutOfRangeImposters] (the two ⛔ replies), [AlreadyRevealed]
    ('the word was already shown'), [NotYetRevealed] (the alert 'show
    the word first'), [InvalidTarget] ('choice not allowed'),
    [NoSelection] (the alert 'choose first') and [StageMismatchReveal]
    (a reveal callback outside the reveal stage). [Silent] is a bare
    [answerCbQuery()] or no reply at all. *)
Inductive Reply :=
| Silent
| Welcome | NewGameStarted | HelpText | UseNewGame
| OutOfRangePlayers | AskNames | AskImposters
| OutOfRangeImposters | CardsDealt
| StageMismatchReveal | AlreadyRevealed | WordShown
| NotYetRevealed | NextRevealPrompt | VotingOpened
| InvalidTarget | SelectionRecorded
| NoSelection | NextVoterPrompt | ResultShown.

(** A text message that is not a command, as the handler reads it:
    [asNumber] is [Some n] when [Number(message)] is the integer [n]
    ([Number.isInteger]), and [asNames] is the list
    [message.split(/[\n,]/).map(trim).filter(nonempty)]. *)
Record TextMessage := mkText {
  asNumber : option Z;
  asNames : list string
}.

(** The [data] of a callback query, as the dispatcher and the two
    handlers split it: ['reveal:show'], ['reveal:next'], another
    ['reveal:...'], ['vote:select:<payload>'] (payload [Some n] when
    [Number(payload)] is the integer [n]), ['vote:confirm'], another
    ['vote:...'], and anything else. *)
Inductive CallbackData :=
| reveal_show | reveal_next | reveal_other
| vote_select (payload : option Z) | vote_confirm | vote_other
| other_data.

Inductive Event :=
| CmdStart | CmdNewGame | CmdHelp | CmdOther
| Text (message : TextMessage)
| Callback (data : CallbackData).

(** [bot.on('text')], stage [askPlayerCount]. *)
Definition onPlayerCount (message : TextMessage) (session : Session)
    : Session * Reply :=
  match asNumber message with
  | None => (session, OutOfRangePlayers)
  | Some count =>
      if decide (count < MIN_PLAYERS \/ count > MAX_PLAYERS)
      then (session, OutOfRangePlayers)
      else ({| stage := collectNames;
               playerCount := count;
               playerNames := ensureNameList count (playerNames session);
               imposterCount := imposterCount session;
               assignments := assignments session;
               selectedWord := selectedWord session;
               currentRevealIndex := currentRevealIndex session;
               wordRevealed := wordRevealed session;
               currentVoterIndex := currentVoterIndex session;
               votes := votes session |}, AskNames)
  end.

(** [bot.on('text')], stage [collectNames]. *)
Definition onNames (message : TextMessage) (session : Session)
    : Session * Reply :=
  let rawNames := asNames message in
  ({| stage := askImposterCount;
      playerCount := playerCount session;
      playerNames :=
        ensureNameList (playerCount session)
          (if decide (0 < length rawNames)%nat then rawNames
           else playerNames session);
      imposterCount := imposterCount session;
      assignments := assignments session;
      selectedWord := selectedWord session;
      currentRevealIndex := currentRevealIndex session;
      wordRevealed := wordRevealed session;
      currentVoterIndex := currentVoterIndex session;
      votes := votes session |}, AskImposters).

(** [bot.on('text')], stage [askImposterCount]: validation, then the
    assignment. [None] when the sampling loop outlives the fuel. *)
Definition onImposterCount (fuel : nat) (o : Oracle) (message : TextMessage)
    (session : Session) : option (Session * Reply) :=
  let maxImposters := getMaxImposters (playerCount session) in
  match asNumber message with
  | None => Some (session, OutOfRangeImposters)
  | Some imposters =>
      if decide (imposters < MIN_IMPOSTERS \/ imposters > maxImposters)
      then Some (session, OutOfRangeImposters)
      else
        imposterIndices ←
          drawImposterIndices fuel (random o) (playerCount session) imposters;
        let word := pickRandomWord o in
        Some ({| stage := reveal;
                 playerCount := playerCount session;
                 playerNames := playerNames session;
                 imposterCount := imposters;
                 assignments :=
                   buildAssignments (playerNames session) imposterIndices word;
                 selectedWord := word;
                 currentRevealIndex := 0;
                 wordRevealed := false;
                 currentVoterIndex := 0;
                 votes := freshVotes (playerCount session) |}, CardsDealt)
  end.

(** [bot.on('text')] for a message that does not start with ['/']. *)
Definition onText (fuel : nat) (o : Oracle) (message : TextMessage)
    (session : Session) : option (Session * Reply) :=
  match stage session with
  | askPlayerCount => Some (onPlayerCount message session)
  | collectNames => Some (onNames message session)
  | askImposterCount => onImposterCount fuel o message session
  | _ => Some (session, UseNewGame)
  end.

(** [session.currentRevealIndex === session.assignments.length - 1] *)
Definition isLast (index : nat) (session : Session) : bool :=
  bool_decide (Z.of_nat index = Z.of_nat (length (assignments session)) - 1).

Definition handleRevealCallbacks (data : CallbackData) (session : Session)
    : Session * Reply :=
  if decide (stage session <> reveal) then (session, StageMismatchReveal)
  else match data with
  | reveal_show =>
      if wordRevealed session then (session, AlreadyRevealed)
      else ({| stage := stage session;
               playerCount := playerCount session;
               playerNames := playerNames session;
               imposterCount := imposterCount session;
               assignments := assignments session;
               selectedWord := selectedWord session;
               currentRevealIndex := currentRevealIndex session;
               wordRevealed := true;
               currentVoterIndex := currentVoterIndex session;
               votes := votes session |}, WordShown)
  | reveal_next =>
      if negb (wordRevealed session) then (session, NotYetRevealed)
      else if isLast (currentRevealIndex session) session
      then ({| stage := voting;
               playerCount := playerCount session;
               playerNames := playerNames session;
               imposterCount := imposterCount session;
               assignments := assignments session;
               selectedWord := selectedWord session;
               currentRevealIndex := currentRevealIndex session;
               wordRevealed := wordRevealed session;
               currentVoterIndex := 0;
               votes := votes session |}, VotingOpened)
      else ({| stage := stage session;
               playerCount := playerCount session;
               playerNames := playerNames session;
               imposterCount := imposterCount session;
               assignments := assignments session;
               selectedWord := selectedWord session;
               currentRevealIndex := currentRevealIndex session + 1;
               wordRevealed := false;
               currentVoterIndex := currentVoterIndex session;
               votes := votes session |}, NextRevealPrompt)
  | _ => (session, Silent)
  end.

Definition handleVotingCallbacks (data : CallbackData) (session : Session)
    : Session * Reply :=
  if decide (stage session <> voting) then (session, Silent)
  else match data with
  | vote_select payload =>
      match payload with
      | None => (session, InvalidTarget)
      | Some index =>
          if decide (index < 0 \/ index >= Z.of_nat (length (assignments session)))
          then (session, InvalidTarget)
          else ({| stage := stage session;
                   playerCount := playerCount session;
                   playerNames := playerNames session;
                   imposterCount := imposterCount session;
                   assignments := assignments session;
                   selectedWord := selectedWord session;
                   currentRevealIndex := currentRevealIndex session;
                   wordRevealed := wordRevealed session;
                   currentVoterIndex := currentVoterIndex session;
                   votes := arraySet (votes session)
                              (currentVoterIndex session) index |},
                SelectionRecorded)
      end
  | vote_confirm =>
      if decide (arrayGet (votes session) (currentVoterIndex session) = Some (-1))
      then (session, NoSelection)
      else if isLast (currentVoterIndex session) session
      then ({| stage := result;
               playerCount := playerCount session;
               playerNames := playerNames session;
               imposterCount := imposterCount session;
               assignments := assignments session;
               selectedWord := selectedWord session;
               currentRevealIndex := currentRevealIndex session;
               wordRevealed := wordRevealed session;
               currentVoterIndex := currentVoterIndex session;
               votes := votes session |}, ResultShown)
      else ({| stage := stage session;
               playerCount := playerCount session;
               playerNames := playerNames session;
               imposterCount := imposterCount session;
               assignments := assignments session;
               selectedWord := selectedWord session;
               currentRevealIndex := currentRevealIndex session;
               wordRevealed := wordRevealed session;
               currentVoterIndex := currentVoterIndex session + 1;
               votes := votes session |}, NextVoterPrompt)
  | _ => (session, Silent)
  end.

(** [bot.on('callback_query')]: dispatch on the prefix of [data]. *)
Definition onCallback (data : CallbackData) (session : Session)
    : Session * Reply :=
  match data with
  | reveal_show | reveal_next | reveal_other => handleRevealCallbacks data session
  | vote_select _ | vote_confirm | vote_other => handleVotingCallbacks data session
  | other_data => (session, Silent)
  end.

(** One update of the chat. [/start] and [/newgame] replace the session;
    a text starting with ['/'] is left to the command handlers. *)
Definition handle (fuel : nat) (o : Oracle) (event : Event) (session : Session)
    : option (Session * Reply) :=
  match event with
  | CmdStart => Some (resetSession, Welcome)
  | CmdNewGame => Some (resetSession, NewGameStarted)
  | CmdHelp => Some (session, HelpText)
  | CmdOther => Some (session, Silent)
  | Text message => onText fuel o message session
  | Callback data => Some (onCallback data session)
  end.

(** The callback ['vote:select:<targetIndex>'] of a ballot button. *)
Definition selectTarget (targetIndex : Z) : Event :=
  Callback (vote_select (Some targetIndex)).

(** The events that start a new game. *)
Definition isReset (event : Event) : bool :=
  match event with
  | CmdStart | CmdNewGame => true
  | _ => false
  end.

(** Sessions the bot can hold: [getSession] creates [resetSession], and
    every handler run that returns yields the next one. *)
Inductive reachable : Session -> Prop :=
| reach_reset : reachable resetSession
| reach_handle fuel o event session session' reply :
    reachable session ->
    randomOk o ->
    handle fuel o event session = Some (session', reply) ->
    reachable session'.

(** A run of one game: handler runs with no [/start] or [/newgame]. *)
Inductive plays : Session -> Session -> Prop :=
| plays_refl session : plays session session
| plays_step fuel o event session session' session'' reply :
    plays session session' ->
    isReset event = false ->
    randomOk o ->
    handle fuel o event session' = Some (session'', reply) ->
    plays session session''.

(** A sequence of updates of one chat, every handler run drawing from the
    same oracle. *)
Fixpoint run (fuel : nat) (o : Oracle) (events : list Event) (session : Session)
    : option Session :=
  match events with
  | [] => Some session
  | event :: rest =>
      '(session', _) ← handle fuel o event session;
      run fuel o rest session'
  end.

(** [computeResultSummary]: the bot's own highest-vote fold
    [votes.reduce((acc, vote) => vote === -1 ? acc
       : Math.max(acc, votes.filter((item) => item === vote).length), 0)];
    [reduce] skips holes. *)
Definition highestVote (votes : list (option Z)) : nat :=
  foldl (fun acc vote =>
           match vote with
           | None => acc
           | Some v =>
               if decide (v = -1) then acc
               else Nat.max acc (countVotes votes v)
           end) 0%nat votes.

Record ResultSummary := mkSummary {
  summaryHighestVote : nat;
  voteSummary : list VoteEntry;
  mostVotedNames : string
}.

Definition computeResultSummary (session : Session) : ResultSummary :=
  let highestVote := highestVote (votes session) in
  let voteSummary := getVoteSummary (votes session) (assignments session) in
  {| summaryHighestVote := highestVote;
     voteSummary := voteSummary;
     mostVotedNames := joinNames (mostVotedList voteSummary highestVote) |}.

End Bot.

(** ** The web client ([App]): the session lives in React state cells *)

Module Web.

Inductive Stage := setup | reveal | voting | result.

#[global] Instance Stage_eq_dec : EqDecision Stage.
Proof. solve_decision. Defined.

(** The [error] banner: [''], 'at least MIN_PLAYERS players are needed',
    'the imposter count must stay below the player count', and 'please
    choose whom you accuse'. *)
Inductive ErrorText :=
| noError | errTooFewPlayers | errTooManyImposters | errNoSelection.

(** What a number box or a [+]/[-] button hands to its handler: any
    JavaScript number but [NaN]. A finite number is a rational; not every
    rational is a double, so what holds for every [Finite q] holds for
    every finite number the page can be given. *)
Inductive Number := Finite (q : Q) | PlusInfinity | MinusInfinity.

(** The whole number [n]. *)
Definition integer (n : Z) : Number := Finite (inject_Z n).

(** [Math.max(lo, Math.min(hi, count))]: finite whatever [count] is. *)
Definition clamp (lo hi : Q) (count : Number) : Q :=
  match count with
  | Finite q => Qmax lo (Qmin hi q)
  | PlusInfinity => Qmax lo hi
  | MinusInfinity => lo
  end.

(** The integer an array method makes of an index argument
    ([ToIntegerOrInfinity]): the fraction is dropped. *)
Definition toInteger (q : Q) : Z :=
  if decide (0 <= q)%Q then Qfloor q else Qceiling q.

(** [ensureNameList] at any count: [slice] drops the fraction of [count],
    [trimmed.length === count] compares numbers, and the loop
    [for (i = trimmed.length; i < count; i += 1)] pushes a default name for
    every whole [i] below [count]. *)
Definition ensureNameList (count : Q) (current : list string) : list string :=
  let trimmed := slice0 current (toInteger count) in
  if decide (inject_Z (Z.of_nat (length trimmed)) == count)%Q then trimmed
  else trimmed ++ (createDefaultName <$>
                     seq (length trimmed)
                         (Z.to_nat (Qceiling count - Z.of_nat (length trimmed)))).

Definition getMaxImposters (count : Q) : Q :=
  Qmax (inject_Z MIN_IMPOSTERS) (Qmax 0 (count - 1))%Q.

(** The sampling loop of [handleStartGame], whose bound [imposterCount]
    is the cell's number:
    [while (imposterIndices.size < wanted) imposterIndices.add(floor(random() * span))]. *)
Fixpoint sampleLoop (fuel : nat) (rnd : nat -> Q) (calls : nat)
    (span : Z) (wanted : Q) (imposterIndices : gset Z) : option (gset Z) :=
  if decide (inject_Z (Z.of_nat (size imposterIndices)) < wanted)%Q then
    match fuel with
    | O => None
    | S fuel' =>
        sampleLoop fuel' rnd (S calls) span wanted
          ({[ randomIndex (rnd calls) span ]} ∪ imposterIndices)
    end
  else Some imposterIndices.

Definition drawImposterIndices (fuel : nat) (rnd : nat -> Q)
    (span : Z) (wanted : Q) : option (gset Z) :=
  sampleLoop fuel rnd 0 span wanted ∅.

Record State := mkState {
  stage : Stage;
  playerCount : Q;
  playerNames : list string;
  imposterCount : Q;
  assignments : list PlayerAssignment;
  selectedWord : string;
  currentRevealIndex : nat;
  wordRevealed : bool;
  votes : list (option Z);
  currentVoterIndex : nat;
  error : ErrorText
}.

(** The initial values of the [useState] cells. *)
Definition initialState : State :=
  {| stage := setup;
     playerCount := 5%Q;
     playerNames := ensureNameList 5%Q [];
     imposterCount := inject_Z MIN_IMPOSTERS;
     assignments := [];
     selectedWord := "";
     currentRevealIndex := 0;
     wordRevealed := false;
     votes := [];
     currentVoterIndex := 0;
     error := noError |}.

Definition adjustPlayerCount (count : Number) (st : State) : State :=
  let safeCount := clamp (inject_Z MIN_PLAYERS) (inject_Z MAX_PLAYERS) count in
  {| stage := stage st;
     playerCount := safeCount;
     playerNames := ensureNameList safeCount (playerNames st);
     imposterCount := Qmin (imposterCount st) (getMaxImposters safeCount);
     assignments := assignments st;
     selectedWord := selectedWord st;
     currentRevealIndex := currentRevealIndex st;
     wordRevealed := wordRevealed st;
     votes := votes st;
     currentVoterIndex := currentVoterIndex st;
     error := error st |}.

Definition adjustImposterCount (count : Number) (st : State) : State :=
  let maxImposters := getMaxImposters (playerCount st) in
  let safeCount := clamp (inject_Z MIN_IMPOSTERS) maxImposters count in
  {| stage := stage st;
     playerCount := playerCount st;
     playerNames := playerNames st;
     imposterCount := safeCount;
     assignments := assignments st;
     selectedWord := selectedWord st;
     currentRevealIndex := currentRevealIndex st;
     wordRevealed := wordRevealed st;
     votes := votes st;
     currentVoterIndex := currentVoterIndex st;
     error := error st |}.

(** [handleNameChange]: the input boxes are rendered from
    [ensureNameList(playerCount, playerNames)], so [index] is always a
    position of that list. *)
Definition handleNameChange (index : nat) (value : string) (st : State) : State :=
  {| stage := stage st;
     playerCount := playerCount st;
     playerNames := <[index := value]> (ensureNameList (playerCount st) (playerNames st));
     imposterCount := imposterCount st;
     assignments := assignments st;
     selectedWord := selectedWord st;
     currentRevealIndex := currentRevealIndex st;
     wordRevealed := wordRevealed st;
     votes := votes st;
     currentVoterIndex := currentVoterIndex st;
     error := error st |}.

Definition withError (e : ErrorText) (st : State) : State :=
  {| stage := stage st;
     playerCount := playerCount st;
     playerNames := playerNames st;
     imposterCount := imposterCount st;
     assignments := assignments st;
     selectedWord := selectedWord st;
     currentRevealIndex := currentRevealIndex st;
     wordRevealed := wordRevealed st;
     votes := votes st;
     currentVoterIndex := currentVoterIndex st;
     error := e |}.

Section StartGame.

(** [String.prototype.trim], a library function the model leaves open. *)
Context (trim : string -> string).

(** [playerNames.map((name, index) => name.trim().length > 0 ? name.trim()
    : createDefaultName(index))] *)
Definition sanitize (names : list string) : list string :=
  imap (fun index name =>
          if decide (0 < String.length (trim name))%nat then trim name
          else createDefaultName index) names.

(** [handleStartGame]: [None] when the sampling loop outlives the fuel. *)
Definition handleStartGame (fuel : nat) (o : Oracle) (st : State) : option State :=
  let sanitizedNames := ensureNameList (playerCount st) (sanitize (playerNames st)) in
  if decide (Z.of_nat (length sanitizedNames) < MIN_PLAYERS)
  then Some (withError errTooFewPlayers st)
  else
    let maxImposters :=
      getMaxImposters (inject_Z (Z.of_nat (length sanitizedNames))) in
    if decide (maxImposters < imposterCount st)%Q
    then Some (withError errTooManyImposters st)
    else
      imposterIndices ←
        drawImposterIndices fuel (random o)
          (Z.of_nat (length sanitizedNames)) (imposterCount st);
      let word := pickRandomWord o in
      Some {| stage := reveal;
              playerCount := playerCount st;
              playerNames := sanitizedNames;
              imposterCount := imposterCount st;
              assignments := buildAssignments sanitizedNames imposterIndices word;
              selectedWord := word;
              currentRevealIndex := 0;
              wordRevealed := false;
              votes := freshVotes (Z.of_nat (length sanitizedNames));
              currentVoterIndex := 0;
              error := noError |}.

End StartGame.

Definition handleReset (st : State) : State :=
  {| stage := setup;
     playerCount := playerCount st;
     playerNames := playerNames st;
     imposterCount := imposterCount st;
     assignments := [];
     selectedWord := "";
     currentRevealIndex := 0;
     wordRevealed := false;
     votes := [];
     currentVoterIndex := 0;
     error := noError |}.

Definition handleRevealWord (st : State) : State :=
  {| stage := stage st;
     playerCount := playerCount st;
     playerNames := playerNames st;
     imposterCount := imposterCount st;
     assignments := assignments st;
     selectedWord := selectedWord st;
     currentRevealIndex := currentRevealIndex st;
     wordRevealed := true;
     votes := votes st;
     currentVoterIndex := currentVoterIndex st;
     error := error st |}.

(** [index === assignments.length - 1] *)
Definition isLast (index : nat) (st : State) : bool :=
  bool_decide (Z.of_nat index = Z.of_nat (length (assignments st)) - 1).

Definition handleNextPlayer (st : State) : State :=
  if isLast (currentRevealIndex st) st
  then {| stage := voting;
          playerCount := playerCount st;
          playerNames := playerNames st;
          imposterCount := imposterCount st;
          assignments := assignments st;
          selectedWord := selectedWord st;
          currentRevealIndex := currentRevealIndex st;
          wordRevealed := false;
          votes := votes st;
          currentVoterIndex := 0;
          error := error st |}
  else {| stage := stage st;
          playerCount := playerCount st;
          playerNames := playerNames st;
          imposterCount := imposterCount st;
          assignments := assignments st;
          selectedWord := selectedWord st;
          currentRevealIndex := currentRevealIndex st + 1;
          wordRevealed := false;
          votes := votes st;
          currentVoterIndex := currentVoterIndex st;
          error := error st |}.

(** [handleSelectVote]: [next = [...prev]; next[currentVoterIndex] = targetIndex]. *)
Definition handleSelectVote (targetIndex : Z) (st : State) : State :=
  {| stage := stage st;
     playerCount := playerCount st;
     playerNames := playerNames st;
     imposterCount := imposterCount st;
     assignments := assignments st;
     selectedWord := selectedWord st;
     currentRevealIndex := currentRevealIndex st;
     wordRevealed := wordRevealed st;
     votes := arraySet (votes st) (currentVoterIndex st) targetIndex;
     currentVoterIndex := currentVoterIndex st;
     error := noError |}.

Definition handleConfirmVote (st : State) : State :=
  if decide (arrayGet (votes st) (currentVoterIndex st) = Some (-1))
  then withError errNoSelection st
  else if isLast (currentVoterIndex st) st
  then {| stage := result;
          playerCount := playerCount st;
          playerNames := playerNames st;
          imposterCount := imposterCount st;
          assignments := assignments st;
          selectedWord := selectedWord st;
          currentRevealIndex := currentRevealIndex st;
          wordRevealed := wordRevealed st;
          votes := votes st;
          currentVoterIndex := currentVoterIndex st;
          error := error st |}
  else {| stage := stage st;
          playerCount := playerCount st;
          playerNames := playerNames st;
          imposterCount := imposterCount st;
          assignments := assignments st;
          selectedWord := selectedWord st;
          currentRevealIndex := currentRevealIndex st;
          wordRevealed := wordRevealed st;
          votes := votes st;
          currentVoterIndex := currentVoterIndex st + 1;
          error := error st |}.

(** What the user can do to the page. [SetPlayerCount] and
    [SetImposterCount] stand for the number boxes, which pass on every
    number but [NaN], and for the [+]/[-] buttons (the current value plus
    or minus one); [ResetGame] is the header's restart button. *)
Inductive Event :=
| SetPlayerCount (count : Number)
| SetImposterCount (count : Number)
| NameChange (index : nat) (value : string)
| StartGame
| ResetGame
| RevealWord
| NextPlayer
| SelectVote (index : nat)
| ConfirmVote
| PlayAgain.

(** [assignments.filter((player) => player.isImposter)] *)
Definition imposters (st : State) : list PlayerAssignment :=
  filter (fun p => isImposter p = true) (assignments st).

(** Which control the current render offers: [renderSetup] in stage
    [setup]; the reset button outside it; in [renderReveal] the show
    button while [!wordRevealed] and the next button only once
    [wordRevealed]; in [renderVoting] one button per player and the
    confirm button; both renders return [null] when the cursor has no
    player; [renderResult] returns [null] without imposters. *)
Definition offered (st : State) (event : Event) : bool :=
  match event with
  | SetPlayerCount _ | SetImposterCount _ | StartGame =>
      bool_decide (stage st = setup)
  | NameChange index _ =>
      bool_decide (stage st = setup) &&
      bool_decide (index < length (ensureNameList (playerCount st) (playerNames st)))%nat
  | ResetGame => bool_decide (stage st <> setup)
  | RevealWord =>
      bool_decide (stage st = reveal) &&
      bool_decide (is_Some (assignments st !! currentRevealIndex st)) &&
      negb (wordRevealed st)
  | NextPlayer =>
      bool_decide (stage st = reveal) &&
      bool_decide (is_Some (assignments st !! currentRevealIndex st)) &&
      wordRevealed st
  | SelectVote index =>
      bool_decide (stage st = voting) &&
      bool_decide (is_Some (assignments st !! currentVoterIndex st)) &&
      bool_decide (index < length (assignments st))%nat
  | ConfirmVote =>
      bool_decide (stage st = voting) &&
      bool_decide (is_Some (assignments st !! currentVoterIndex st))
  | PlayAgain =>
      bool_decide (stage st = result) &&
      bool_decide (imposters st <> [])
  end.

Section Dispatch.

Context (trim : string -> string).

(** The handler bound to a control. *)
Definition handler (fuel : nat) (o : Oracle) (event : Event) (st : State)
    : option State :=
  match event with
  | SetPlayerCount count => Some (adjustPlayerCount count st)
  | SetImposterCount count => Some (adjustImposterCount count st)
  | NameChange index value => Some (handleNameChange index value st)
  | StartGame => handleStartGame trim fuel o st
  | ResetGame | PlayAgain => Some (handleReset st)
  | RevealWord => Some (handleRevealWord st)
  | NextPlayer => Some (handleNextPlayer st)
  | SelectVote index => Some (handleSelectVote (Z.of_nat index) st)
  | ConfirmVote => Some (handleConfirmVote st)
  end.

(** One user action: a control that is not on the page does nothing. *)
Definition dispatch (fuel : nat) (o : Oracle) (event : Event) (st : State)
    : option State :=
  if offered st event then handler fuel o event st else Some st.

Definition isReset (event : Event) : bool :=
  match event with
  | ResetGame | PlayAgain => true
  | _ => false
  end.

Inductive reachable : State -> Prop :=
| reach_initial : reachable initialState
| reach_dispatch fuel o event st st' :
    reachable st ->
    randomOk o ->
    dispatch fuel o event st = Some st' ->
    reachable st'.

(** A run of one game: user actions other than reset and play-again. *)
Inductive plays : State -> State -> Prop :=
| plays_refl st : plays st st
| plays_step fuel o event st st' st'' :
    plays st st' ->
    isReset event = false ->
    randomOk o ->
    dispatch fuel o event st' = Some st'' ->
    plays st st''.

(** A sequence of user actions. *)
Fixpoint run (fuel : nat) (o : Oracle) (events : list Event) (st : State)
    : option State :=
  match events with
  | [] => Some st
  | event :: rest =>
      st' ← dispatch fuel o event st;
      run fuel o rest st'
  end.

End Dispatch.

(** [renderResult]: the highest vote is
    [voteSummary.reduce((max, item) => Math.max(max, item.votes), 0)]. *)
Definition highestVote (voteSummary : list VoteEntry) : nat :=
  foldl (fun max item => Nat.max max (entryVotes item)) 0%nat voteSummary.

Record ResultView := mkView {
  imposterNames : string;
  viewHighestVote : nat;
  viewVoteSummary : list VoteEntry;
  mostVoted : string
}.

Definition renderResult (st : State) : option ResultView :=
  let voteSummary := getVoteSummary (votes st) (assignments st) in
  if decide (length (imposters st) = 0%nat) then None
  else
    let highestVote := highestVote voteSummary in
    Some {| imposterNames := joinNames (name <$> imposters st);
            viewHighestVote := highestVote;
            viewVoteSummary := voteSummary;
            mostVoted := joinNames (mostVotedList voteSummary highestVote) |}.

End Web.

(** ** Concrete games, used to exercise the statements below *)

Module Examples.

(** A random source that alternates [0] and [1/2]: with three players it
    draws the indices 0, 1, 0, 1, ... *)
Definition alternating : Oracle :=
  {| random := fun i => if Nat.even i then 0%Q else (1 # 2)%Q;
     pickRandomWord := "ቡና" |}.

(** A random source stuck at [0]: every draw is index 0. *)
Definition stuck : Oracle :=
  {| random := fun _ => 0%Q;
     pickRandomWord := "ቡና" |}.

Definition number (n : Z) : Bot.Event :=
  Bot.Text {| Bot.asNumber := Some n; Bot.asNames := [pretty n] |}.

Definition names (l : list string) : Bot.Event :=
  Bot.Text {| Bot.asNumber := None; Bot.asNames := l |}.

Definition botSetup : list Bot.Event :=
  [Bot.CmdNewGame; number 3; names ["Abel"; "Sara"; "Lidya"]].

Definition botReveal : list Bot.Event :=
  [Bot.Callback Bot.reveal_show; Bot.Callback Bot.reveal_next;
   Bot.Callback Bot.reveal_show; Bot.Callback Bot.reveal_next;
   Bot.Callback Bot.reveal_show; Bot.Callback Bot.reveal_next].

Definition botVotes : list Bot.Event :=
  [Bot.selectTarget 1; Bot.Callback Bot.vote_confirm;
   Bot.selectTarget 0; Bot.selectTarget 1; Bot.Callback Bot.vote_confirm;
   Bot.selectTarget 2; Bot.Callback Bot.vote_confirm].

(** The bot waiting for the imposter count of a three-player game. *)
Definition botAsking : Bot.Session :=
  default Bot.resetSession (Bot.run 0 alternating botSetup Bot.resetSession).

(** The same game after the cards are dealt (one imposter). *)
Definition botDealt : Bot.Session :=
  default Bot.resetSession (Bot.run 1 alternating [number 1] botAsking).

(** After the three reveals: the first voter's ballot. *)
Definition botVoting : Bot.Session :=
  default Bot.resetSession (Bot.run 0 alternating botReveal botDealt).

(** After the votes 1, 1, 2. *)
Definition botFinished : Bot.Session :=
  default Bot.resetSession (Bot.run 0 alternating botVotes botVoting).

Definition noTrim (s : string) : string := s.

Definition webSetup : list Web.Event :=
  [Web.SetPlayerCount (Web.integer 3); Web.NameChange 0 "Abel";
   Web.SetImposterCount (Web.integer 2)].

Definition webReveal : list Web.Event :=
  [Web.RevealWord; Web.NextPlayer; Web.RevealWord; Web.NextPlayer;
   Web.RevealWord; Web.NextPlayer].

Definition webVotes : list Web.Event :=
  [Web.SelectVote 1; Web.ConfirmVote;
   Web.SelectVote 0; Web.SelectVote 1; Web.ConfirmVote;
   Web.SelectVote 2; Web.ConfirmVote].

(** The page once three players are chosen (one imposter). *)
Definition webThree : Web.State :=
  default Web.initialState
    (Web.run noTrim 0 alternating [Web.SetPlayerCount (Web.integer 3)]
       Web.initialState).

(** The page with three players and two imposters chosen, before the start. *)
Definition webReady : Web.State :=
  default Web.initialState (Web.run noTrim 0 alternating webSetup Web.initialState).

Definition webDealt : Web.State :=
  default Web.initialState (Web.run noTrim 2 alternating [Web.StartGame] webReady).

Definition webVoting : Web.State :=
  default Web.initialState (Web.run noTrim 0 alternating webReveal webDealt).

Definition webFinished : Web.State :=
  default Web.initialState (Web.run noTrim 0 alternating webVotes webVoting).

(** The page after [3.5] is typed into the player-count box: the count
    cell holds [3.5] and there are four name boxes. *)
Definition webFractional : Web.State :=
  default Web.initialState
    (Web.run noTrim 0 alternating [Web.SetPlayerCount (Web.Finite (7 # 2))]
       Web.initialState).

(** The game started from there: four players are dealt. *)
Definition webFractionalDealt : Web.State :=
  default Web.initialState
    (Web.run noTrim 1 alternating [Web.StartGame] webFractional).

(** The same game once three players have seen their word and passed the
    device on. *)
Definition webFractionalFourth : Web.State :=
  default Web.initialState
    (Web.run noTrim 0 alternating webReveal webFractionalDealt).

(** The same game at the ballot of the fourth voter. *)
Definition webFractionalLastVoter : Web.State :=
  default Web.initialState
    (Web.run noTrim 0 alternating
       ([Web.RevealWord; Web.NextPlayer] ++ webVotes) webFractionalFourth).

End Examples.

(** ** Vocabulary of the statements *)

(** The four phases both front ends share; the bot's three setup stages
    (and its unused [idle]) and the web client's [setup] are all [Setup]. *)
Inductive Phase := Setup | Revealing | Voting | Finished.

(** A recorded accusation: an index of one of the [n] players. *)
Definition validVote (n : nat) (e : option Z) : Prop :=
  exists v, e = Some v /\ 0 <= v < Z.of_nat n.

(** Every non-imposter holds the word [w]; every imposter holds none. *)
Definition wellAssigned (w : string) (players : list PlayerAssignment) : Prop :=
  forall p, p ∈ players -> word p = if isImposter p then None else Some w.

(** What the assignment step establishes, and what stays true until the
    next reset. *)
Definition Dealt (pc ic : Z) (players : list PlayerAssignment) (w : string)
    (vs : list (option Z)) : Prop :=
  Z.of_nat (length players) = pc /\
  length vs = length players /\
  1 <= ic <= pc - 1 /\
  Z.of_nat (countImposters players) = ic /\
  wellAssigned w players.

(** The ballots while voter [c] is choosing: earlier voters have a vote,
    later voters have none yet. *)
Definition Ballots (n c : nat) (vs : list (option Z)) : Prop :=
  forall (j : nat) e, vs !! j = Some e ->
    ((j < c)%nat -> validVote n e) /\
    (j = c -> e = Some (-1) \/ validVote n e) /\
    ((c < j)%nat -> e = Some (-1)).

(** The invariant of a session in phase [ph], over the fields the two
    front ends have in common. *)
Definition GameInv (ph : Phase) (pc ic : Z) (names : list string)
    (players : list PlayerAssignment) (w : string) (ri vi : nat)
    (vs : list (option Z)) : Prop :=
  3 <= pc <= 12 /\
  Z.of_nat (length names) = pc /\
  match ph with
  | Setup => players = [] /\ vs = [] /\ ri = 0%nat /\ vi = 0%nat
  | Revealing =>
      Dealt pc ic players w vs /\ (ri < length players)%nat /\ vi = 0%nat /\
      vs = replicate (length players) (Some (-1))
  | Voting =>
      Dealt pc ic players w vs /\ S ri = length players /\
      (vi < length players)%nat /\ Ballots (length players) vi vs
  | Finished =>
      Dealt pc ic players w vs /\ S ri = length players /\
      S vi = length players /\
      (forall (j : nat) e, vs !! j = Some e -> validVote (length players) e)
  end.

Definition botPhase (st : Bot.Stage) : Phase :=
  match st with
  | Bot.idle | Bot.askPlayerCount | Bot.collectNames | Bot.askImposterCount => Setup
  | Bot.reveal => Revealing
  | Bot.voting => Voting
  | Bot.result => Finished
  end.

Definition BotInv (s : Bot.Session) : Prop :=
  GameInv (botPhase (Bot.stage s)) (Bot.playerCount s) (Bot.imposterCount s)
    (Bot.playerNames s) (Bot.assignments s) (Bot.selectedWord s)
    (Bot.currentRevealIndex s) (Bot.currentVoterIndex s) (Bot.votes s).

Definition webPhase (st : Web.Stage) : Phase :=
  match st with
  | Web.setup => Setup
  | Web.reveal => Revealing
  | Web.voting => Voting
  | Web.result => Finished
  end.

(** The two count cells of the web page stay in the ranges the clamps
    give them; nothing makes them whole. *)
Definition WebCounts (st : Web.State) : Prop :=
  (3 <= Web.playerCount st <= 12)%Q /\
  (1 <= Web.imposterCount st <= Web.playerCount st - 1)%Q.

(** The number of name boxes, and of players dealt, at the player count
    the page holds: the count rounded up. *)
Definition webPlayers (st : Web.State) : Z := Qceiling (Web.playerCount st).

(** The number of imposters the sampling loop stops at. *)
Definition webImposters (st : Web.State) : Z := Qceiling (Web.imposterCount st).

Definition WebInv (st : Web.State) : Prop :=
  GameInv (webPhase (Web.stage st)) (webPlayers st) (webImposters st)
    (Web.playerNames st) (Web.assignments st) (Web.selectedWord st)
    (Web.currentRevealIndex st) (Web.currentVoterIndex st) (Web.votes st) /\
  1 <= webImposters st <= webPlayers st - 1.

(** What one cast vote contributes to the bot's fold. *)
Definition castCount (votes : list (option Z)) (vote : option Z) : nat :=
  match vote with
  | None => 0
  | Some v => if decide (v = -1) then 0 else countVotes votes v
  end.

(** Every entry of [votes] is a hole, [-1], or an index of one of the [n]
    players. *)
Definition castVotesValid (n : nat) (votes : list (option Z)) : Prop :=
  forall e, e ∈ votes ->
    match e with
    | None => True
    | Some v => v = -1 \/ 0 <= v < Z.of_nat n
    end.

(** The session with the current voter's ballot set to [target]. *)
Definition botBallot (target : Z) (s : Bot.Session) : Bot.Session :=
  {| Bot.stage := Bot.stage s;
     Bot.playerCount := Bot.playerCount s;
     Bot.playerNames := Bot.playerNames s;
     Bot.imposterCount := Bot.imposterCount s;
     Bot.assignments := Bot.assignments s;
     Bot.selectedWord := Bot.selectedWord s;
     Bot.currentRevealIndex := Bot.currentRevealIndex s;
     Bot.wordRevealed := Bot.wordRevealed s;
     Bot.currentVoterIndex := Bot.currentVoterIndex s;
     Bot.votes := <[Bot.currentVoterIndex s := Some target]> (Bot.votes s) |}.

(** The same for the web page; selecting also clears the error banner. *)
Definition webBallot (target : Z) (st : Web.State) : Web.State :=
  {| Web.stage := Web.stage st;
     Web.playerCount := Web.playerCount st;
     Web.playerNames := Web.playerNames st;
     Web.imposterCount := Web.imposterCount st;
     Web.assignments := Web.assignments st;
     Web.selectedWord := Web.selectedWord st;
     Web.currentRevealIndex := Web.currentRevealIndex st;
     Web.wordRevealed := Web.wordRevealed st;
     Web.votes := <[Web.currentVoterIndex st := Some target]> (Web.votes st);
     Web.currentVoterIndex := Web.currentVoterIndex st;
     Web.error := Web.noError |}.
(** ** The bot's chat messages *)

Module BotRender.

(** An inline-keyboard button ([Markup.button.callback(label, data)]), its
    [data] read the way the callback dispatcher reads it. *)
Record Button := mkButton {
  label : string;
  data : Bot.CallbackData
}.

(** The [{ text, keyboard }] pair the message builders return. *)
Record Message := mkMessage {
  text : string;
  keyboard : list (list Button)
}.

(** The newline of the template strings. *)
Definition nl : string := String (Ascii.ascii_of_nat 10) "".

(** [`• ${player.name}${player.isImposter ? ' (ኢምፖስተር)' : ''}`], joined
    with newlines. *)
Definition formatPlayerList (session : Bot.Session) : string :=
  String.concat nl
    ((fun player =>
        "• " +:+ name player +:+
        (if isImposter player then " (ኢምፖስተር)" else ""))
       <$> Bot.assignments session).

(** The [intro] of [buildRevealMessage]: the player's name and
    [currentRevealIndex + 1 / assignments.length]. *)
Definition revealIntro (player : PlayerAssignment) (session : Bot.Session)
    : string :=
  "👤 ተጫዋች: <b>" +:+ name player +:+ "</b>" +:+ nl +:+
  "ዙር " +:+ pretty (Bot.currentRevealIndex session + 1)%nat +:+
  " / " +:+ pretty (length (Bot.assignments session)).

(** The text before the word is shown. *)
Definition hiddenText (intro : string) : string :=
  intro +:+ nl +:+ nl +:+
  "ቃሉን ለማየት እባክዎን ቁልፉን ይንኩ። ሌሎች ተጫዋቾች እንዳይመልከቱ ያረጋግጡ።".

(** The text once the word is shown: [baseText], then [imposterNotice],
    then the closing line. *)
Definition revealedText (intro word : string) (imposter : bool) : string :=
  let baseText := intro +:+ nl +:+ nl +:+ "<b>የእርስዎ ቃል:</b> " +:+ word in
  let imposterNotice :=
    if imposter
    then nl +:+ nl +:+ "🚨 <b>እርስዎ ኢምፖስተሩ ናቸው!</b> ዝም ብለው ይጠብቁ።"
    else "" in
  baseText +:+ imposterNotice +:+ nl +:+ nl +:+
  "በቀጣዩ ተጫዋች ይቀጥሉ።".

Definition showButton : Button := mkButton "👁‍🗨 ቃሉን አሳይ" Bot.reveal_show.

Definition nextButton : Button := mkButton "➡️ ቀጣይ ተጫዋች" Bot.reveal_next.

(** [buildRevealMessage]: [None] is the [TypeError] raised by
    [player.name] when the reveal cursor has no player. *)
Definition buildRevealMessage (session : Bot.Session) : option Message :=
  player ← Bot.assignments session !! Bot.currentRevealIndex session;
  let intro := revealIntro player session in
  if negb (Bot.wordRevealed session) then
    Some {| text := hiddenText intro; keyboard := [[showButton]] |}
  else
    let word := default "???" (word player) in
    Some {| text := revealedText intro word (isImposter player);
            keyboard := [[nextButton]] |}.

(** The body of the [forEach] of [buildVoteKeyboard]: a new row when there
    is none yet or the last one holds two buttons, else the last row
    grows. *)
Definition pushButton (rows : list (list Button)) (button : Button)
    : list (list Button) :=
  match last rows with
  | None => rows ++ [[button]]
  | Some lastRow =>
      if decide (length lastRow = 2%nat) then rows ++ [[button]]
      else alter (fun row => row ++ [button]) (length rows - 1)%nat rows
  end.

(** The button of the player at [index]; [selected] is
    [votes[currentVoterIndex]]. *)
Definition voteButton (selected : option Z) (index : nat)
    (player : PlayerAssignment) : Button :=
  let isSelected := bool_decide (selected = Some (Z.of_nat index)) in
  {| label := (if isSelected then "✅ " else "") +:+ name player;
     data := Bot.vote_select (Some (Z.of_nat index)) |}.

Definition confirmButton : Button :=
  mkButton "✅ ድምጽ ያረጋግጡ" Bot.vote_confirm.

Definition buildVoteKeyboard (session : Bot.Session) : list (list Button) :=
  let selected := arrayGet (Bot.votes session) (Bot.currentVoterIndex session) in
  foldl pushButton [] (imap (voteButton selected) (Bot.assignments session))
    ++ [[confirmButton]].

(** ['—'], shown while nothing is selected. *)
Definition noSelectionMark : string := "—".

(** The five lines of [buildVoteMessage], joined with newlines. *)
Definition voteText (voter : PlayerAssignment) (session : Bot.Session)
    (selectedName : string) : string :=
  String.concat nl
    ["🗳️ <b>" +:+ name voter +:+ "</b>፣ ኢምፖስተሮቹን ይጥቁ!";
     "ዙር " +:+ pretty (Bot.currentVoterIndex session + 1)%nat +:+
       " / " +:+ pretty (length (Bot.assignments session));
     "";
     "በቅድሚያ እየተመረጡ ያሉት: <b>" +:+ selectedName +:+ "</b>";
     "የተናገሩትን አስታውሱ እና እውቀቱን ይጠቀሙ።"].

(** [buildVoteMessage]: [None] is the [TypeError] raised when the voter
    cursor has no player, or when the recorded selection is past the end
    of [assignments]. *)
Definition buildVoteMessage (session : Bot.Session) : option Message :=
  voter ← Bot.assignments session !! Bot.currentVoterIndex session;
  let selectedIndex :=
    arrayGet (Bot.votes session) (Bot.currentVoterIndex session) in
  selectedName ←
    match selectedIndex with
    | Some index =>
        if decide (0 <= index)
        then name <$> Bot.assignments session !! Z.to_nat index
        else Some noSelectionMark
    | None => Some noSelectionMark
    end;
  Some {| text := voteText voter session selectedName;
          keyboard := buildVoteKeyboard session |}.

(** The first six lines of the result message. *)
Definition resultHeader (imposterNames : string) (isPlural : bool)
    (selectedWord : string) : list string :=
  ["🎉 ጨዋታ ተጠናቋል!";
   "";
   "<b>" +:+ imposterNames +:+ "</b> " +:+
     (if isPlural then "ኢምፖስተሮቹ ነበሩ!" else "ኢምፖስተሩ ነበሩ!");
   "እውነተኛው ቃል: <b>" +:+ selectedWord +:+ "</b>";
   "";
   "🗳️ የድምጽ ማጠቃለያ:"].

(** One line of the tally. *)
Definition tallyLine (entry : VoteEntry) : string :=
  "• " +:+ name (player entry) +:+
  (if isImposter (player entry) then " (ኢምፖስተር)" else "") +:+
  ": <b>" +:+ pretty (entryVotes entry) +:+ "</b> ድምጽ".

Definition mostVotedLine (mostVotedNames : string) : string :=
  "ብዙዎቹ የመጣሉት: <b>" +:+ mostVotedNames +:+ "</b>".

Definition nobodyLine : string := "ማንም ተጫዋች የተመረጠ አልተገኘም።".

(** The [lines] array of [createResultMessage]. *)
Definition createResultLines (session : Bot.Session) : list string :=
  let summary := Bot.computeResultSummary session in
  let imposters := filter (fun player => isImposter player = true)
                     (Bot.assignments session) in
  let imposterNames := joinNames (name <$> imposters) in
  let isPlural := bool_decide (1 < length imposters)%nat in
  resultHeader imposterNames isPlural (Bot.selectedWord session)
  ++ (tallyLine <$> Bot.voteSummary summary)
  ++ (if decide (0 < Bot.summaryHighestVote summary)%nat
      then [""; mostVotedLine (Bot.mostVotedNames summary)]
      else [""; nobodyLine]).

Definition createResultMessage (session : Bot.Session) : string :=
  String.concat nl (createResultLines session).

End BotRender.

(** ** The bot's session store *)

Module Chats.

(** [getSession]: the session of a chat, created on first access. The
    second component is the [sessions] map afterwards. *)
Definition getSession (chatId : Z) (sessions : gmap Z Bot.Session)
    : Bot.Session * gmap Z Bot.Session :=
  match sessions !! chatId with
  | Some session => (session, sessions)
  | None => (Bot.resetSession, <[chatId := Bot.resetSession]> sessions)
  end.

(** One update, addressed to [chatId] ([None] when the update carries no
    chat). [/help] answers without looking at the chat; a callback whose
    data is neither ['reveal:...'] nor ['vote:...'] is answered without
    touching [sessions]; an unknown command reaches [bot.on('text')], which
    calls [getSession] before it returns. The handlers mutate the session
    object held by the map, so the map afterwards holds the new session. *)
Definition onUpdate (fuel : nat) (o : Oracle) (chatId : option Z)
    (event : Bot.Event) (sessions : gmap Z Bot.Session)
    : option (gmap Z Bot.Session * Bot.Reply) :=
  match event, chatId with
  | Bot.CmdHelp, _ => Some (sessions, Bot.HelpText)
  | Bot.Callback Bot.other_data, _ => Some (sessions, Bot.Silent)
  | _, None => Some (sessions, Bot.Silent)
  | Bot.CmdStart, Some chat =>
      Some (<[chat := Bot.resetSession]> sessions, Bot.Welcome)
  | Bot.CmdNewGame, Some chat =>
      Some (<[chat := Bot.resetSession]> sessions, Bot.NewGameStarted)
  | Bot.CmdOther, Some chat =>
      Some ((getSession chat sessions).2, Bot.Silent)
  | Bot.Text message, Some chat =>
      let '(session, sessions') := getSession chat sessions in
      '(session', reply) ← Bot.onText fuel o message session;
      Some (<[chat := session']> sessions', reply)
  | Bot.Callback data, Some chat =>
      let '(session, sessions') := getSession chat sessions in
      let '(session', reply) := Bot.onCallback data session in
      Some (<[chat := session']> sessions', reply)
  end.

(** The maps the bot can hold: empty at start, then one update after
    another. *)
Inductive reachable : gmap Z Bot.Session -> Prop :=
| reach_empty : reachable ∅
| reach_update fuel o chatId event sessions sessions' reply :
    reachable sessions ->
    randomOk o ->
    onUpdate fuel o chatId event sessions = Some (sessions', reply) ->
    reachable sessions'.

End Chats.

(** ** The earlier web client: one imposter, no imposter count *)

Module WebSingle.

Record State := mkState {
  stage : Web.Stage;
  playerCount : Q;
  playerNames : list string;
  assignments : list PlayerAssignment;
  selectedWord : string;
  currentRevealIndex : nat;
  wordRevealed : bool;
  votes : list (option Z);
  currentVoterIndex : nat;
  error : Web.ErrorText
}.

Definition initialState : State :=
  {| stage := Web.setup;
     playerCount := 5%Q;
     playerNames := Web.ensureNameList 5%Q [];
     assignments := [];
     selectedWord := "";
     currentRevealIndex := 0;
     wordRevealed := false;
     votes := [];
     currentVoterIndex := 0;
     error := Web.noError |}.

Definition adjustPlayerCount (count : Web.Number) (st : State) : State :=
  let safeCount :=
    Web.clamp (inject_Z MIN_PLAYERS) (inject_Z MAX_PLAYERS) count in
  {| stage := stage st;
     playerCount := safeCount;
     playerNames := Web.ensureNameList safeCount (playerNames st);
     assignments := assignments st;
     selectedWord := selectedWord st;
     currentRevealIndex := currentRevealIndex st;
     wordRevealed := wordRevealed st;
     votes := votes st;
     currentVoterIndex := currentVoterIndex st;
     error := error st |}.

(** [handleStartGame] of this variant: a single draw
    [Math.floor(Math.random() * sanitizedNames.length)], no loop. *)
Definition handleStartGame (trim : string -> string) (o : Oracle) (st : State)
    : State :=
  let sanitizedNames :=
    Web.ensureNameList (playerCount st) (Web.sanitize trim (playerNames st)) in
  if decide (Z.of_nat (length sanitizedNames) < MIN_PLAYERS)
  then {| stage := stage st;
          playerCount := playerCount st;
          playerNames := playerNames st;
          assignments := assignments st;
          selectedWord := selectedWord st;
          currentRevealIndex := currentRevealIndex st;
          wordRevealed := wordRevealed st;
          votes := votes st;
          currentVoterIndex := currentVoterIndex st;
          error := Web.errTooFewPlayers |}
  else
    let imposterIndex :=
      randomIndex (random o 0) (Z.of_nat (length sanitizedNames)) in
    let word := pickRandomWord o in
    {| stage := Web.reveal;
       playerCount := playerCount st;
       playerNames := sanitizedNames;
       assignments :=
         imap (fun index name =>
                 {| id := index;
                    name := name;
                    isImposter := bool_decide (Z.of_nat index = imposterIndex);
                    word := if bool_decide (Z.of_nat index = imposterIndex)
                            then None else Some word |}) sanitizedNames;
       selectedWord := word;
       currentRevealIndex := 0;
       wordRevealed := false;
       votes := freshVotes (Z.of_nat (length sanitizedNames));
       currentVoterIndex := 0;
       error := Web.noError |}.

(** [assignments.find((player) => player.isImposter) ?? null] *)
Definition imposter (st : State) : option PlayerAssignment :=
  head (filter (fun player => isImposter player = true) (assignments st)).

End WebSingle.

(** ** Further vocabulary *)

(** A list cut into rows of two, the last row holding one element when the
    length is odd. *)
Fixpoint pairs {A} (l : list A) : list (list A) :=
  match l with
  | [] => []
  | [a] => [[a]]
  | a :: b :: rest => [a; b] :: pairs rest
  end.

#[global] Instance Phase_eq_dec : EqDecision Phase.
Proof. solve_decision. Defined.

(** Names and positions of the players of a dealt game: the names are
    those of [names], in order, and each [id] is the position. *)
Definition Listed (names : list string) (players : list PlayerAssignment) : Prop :=
  name <$> players = names /\ id <$> players = seq 0 (length players).

(** [n] players in turn asking for their word and passing the device on. *)
Definition revealRound (n : nat) : list Bot.Event :=
  mjoin (replicate n [Bot.Callback Bot.reveal_show; Bot.Callback Bot.reveal_next]).

(** One voter after the other selecting a target and confirming it. *)
Definition votingRound (targets : list Z) : list Bot.Event :=
  targets ≫= (fun target => [Bot.selectTarget target; Bot.Callback Bot.vote_confirm]).

(** The session once every player from the reveal cursor on has seen the
    word: the ballot of the first voter. *)
Definition afterReveal (s : Bot.Session) : Bot.Session :=
  {| Bot.stage := Bot.voting;
     Bot.playerCount := Bot.playerCount s;
     Bot.playerNames := Bot.playerNames s;
     Bot.imposterCount := Bot.imposterCount s;
     Bot.assignments := Bot.assignments s;
     Bot.selectedWord := Bot.selectedWord s;
     Bot.currentRevealIndex := length (Bot.assignments s) - 1;
     Bot.wordRevealed := true;
     Bot.currentVoterIndex := 0;
     Bot.votes := Bot.votes s |}.

(** The session while player [index] is still to see the word. *)
Definition atReveal (index : nat) (s : Bot.Session) : Bot.Session :=
  {| Bot.stage := Bot.reveal;
     Bot.playerCount := Bot.playerCount s;
     Bot.playerNames := Bot.playerNames s;
     Bot.imposterCount := Bot.imposterCount s;
     Bot.assignments := Bot.assignments s;
     Bot.selectedWord := Bot.selectedWord s;
     Bot.currentRevealIndex := index;
     Bot.wordRevealed := false;
     Bot.currentVoterIndex := Bot.currentVoterIndex s;
     Bot.votes := Bot.votes s |}.

(** The session while voter [voter] is choosing, the ballots being [votes]. *)
Definition atBallot (voter : nat) (votes : list (option Z)) (s : Bot.Session)
    : Bot.Session :=
  {| Bot.stage := Bot.voting;
     Bot.playerCount := Bot.playerCount s;
     Bot.playerNames := Bot.playerNames s;
     Bot.imposterCount := Bot.imposterCount s;
     Bot.assignments := Bot.assignments s;
     Bot.selectedWord := Bot.selectedWord s;
     Bot.currentRevealIndex := Bot.currentRevealIndex s;
     Bot.wordRevealed := Bot.wordRevealed s;
     Bot.currentVoterIndex := voter;
     Bot.votes := votes |}.

(** The finished session in which the voters from the current one on have
    cast [targets], in order. *)
Definition afterVoting (targets : list Z) (s : Bot.Session) : Bot.Session :=
  {| Bot.stage := Bot.result;
     Bot.playerCount := Bot.playerCount s;
     Bot.playerNames := Bot.playerNames s;
     Bot.imposterCount := Bot.imposterCount s;
     Bot.assignments := Bot.assignments s;
     Bot.selectedWord := Bot.selectedWord s;
     Bot.currentRevealIndex := Bot.currentRevealIndex s;
     Bot.wordRevealed := Bot.wordRevealed s;
     Bot.currentVoterIndex := length (Bot.assignments s) - 1;
     Bot.votes := take (Bot.currentVoterIndex s) (Bot.votes s) ++ (Some <$> targets) |}.

(** ** Names and random indices *)

Lemma randomIndex_range (r : Q) (span : Z) :
  (0 <= r)%Q -> (r < 1)%Q -> 0 < span -> 0 <= randomIndex r span < span.
Proof.
  intros H0 H1 Hs. unfold randomIndex.
  assert (Hspan : (inject_Z 0 < inject_Z span)%Q) by (rewrite <- Zlt_Qlt; lia).
  split.
  - rewrite <- (Qfloor_Z 0) at 1.
    apply Qfloor_resp_le. apply Qmult_le_0_compat; [done|]. by apply Qlt_le_weak.
  - rewrite Zlt_Qlt. eapply Qle_lt_trans; [apply Qfloor_le|].
    rewrite <- (Qmult_1_l (inject_Z span)) at 2.
    apply Qmult_lt_compat_r; done.
Qed.

Lemma slice0_length {A} (l : list A) (count : Z) :
  0 <= count -> length (slice0 l count) = Nat.min (Z.to_nat count) (length l).
Proof.
  intros H. unfold slice0. case_decide; [lia|]. by rewrite length_take.
Qed.

Lemma ensureNameList_length (count : Z) (current : list string) :
  0 <= count -> Z.of_nat (length (ensureNameList count current)) = count.
Proof.
  intros H. unfold ensureNameList. case_decide as Hd; [done|].
  rewrite length_app, length_fmap, length_seq. 
  pose proof (slice0_length current count H). lia.
Qed.

(** ** The sampling loop and the assignment list *)

Lemma drawnIndices_S rnd span from count :
  drawnIndices rnd span from (S count) =
  {[ randomIndex (rnd from) span ]} ∪ drawnIndices rnd span (S from) count.
Proof. reflexivity. Qed.

Lemma size_add_le (x : Z) (S0 : gset Z) :
  (size S0 <= size ({[ x ]} ∪ S0) <= S (size S0))%nat.
Proof.
  destruct (decide (x ∈ S0)) as [Hin|Hnin].
  - replace ({[x]} ∪ S0) with S0 by set_solver. lia.
  - rewrite size_union by set_solver. rewrite size_singleton. lia.
Qed.

Lemma sampleLoop_sound rnd span wanted fuel :
  forall calls S0 S1,
    sampleLoop fuel rnd calls span wanted S0 = Some S1 ->
    exists m, (m <= fuel)%nat /\
      S1 = drawnIndices rnd span calls m ∪ S0 /\
      wanted <= Z.of_nat (size S1) /\
      (Z.of_nat (size S0) <= wanted -> Z.of_nat (size S1) = wanted).
Proof.
  induction fuel as [|fuel IH]; intros calls S0 S1; simpl.
  - case_decide; [done|]. intros [= <-]. exists 0%nat.
    split; [lia|]. split; [set_solver|]. lia.
  - case_decide as Hlt.
    + intros Hrun. apply IH in Hrun as (m & Hm & -> & Hge & Hex).
      exists (S m). split; [lia|]. split.
      { rewrite drawnIndices_S. set_solver. }
      split; [done|]. intros _. apply Hex.
      pose proof (size_add_le (randomIndex (rnd calls) span) S0). lia.
    + intros [= <-]. exists 0%nat.
      split; [lia|]. split; [set_solver|]. lia.
Qed.

Lemma sampleLoop_complete rnd span wanted m :
  forall fuel calls S0,
    (m <= fuel)%nat ->
    wanted <= Z.of_nat (size (drawnIndices rnd span calls m ∪ S0)) ->
    is_Some (sampleLoop fuel rnd calls span wanted S0).
Proof.
  induction m as [|m IH]; intros fuel calls S0 Hfuel Hsize.
  - replace (drawnIndices rnd span calls 0 ∪ S0) with S0 in Hsize by set_solver.
    destruct fuel; simpl; case_decide; eauto; lia.
  - destruct fuel as [|fuel]; [lia|]. simpl. case_decide; [|eauto].
    apply IH; [lia|]. rewrite drawnIndices_S in Hsize.
    by replace (drawnIndices rnd span (S calls) m ∪ ({[randomIndex (rnd calls) span]} ∪ S0))
      with ({[randomIndex (rnd calls) span]} ∪ drawnIndices rnd span (S calls) m ∪ S0)
      by set_solver.
Qed.

Lemma drawnIndices_range rnd span from count (x : Z) :
  (forall i : nat, (0 <= rnd i)%Q /\ (rnd i < 1)%Q) -> 0 < span ->
  x ∈ drawnIndices rnd span from count -> 0 <= x < span.
Proof.
  intros Hrnd Hspan. unfold drawnIndices. rewrite elem_of_list_to_set, list_elem_of_fmap.
  intros (i & -> & _). destruct (Hrnd i). by apply randomIndex_range.
Qed.

Lemma length_buildAssignments names S0 w :
  length (buildAssignments names S0 w) = length names.
Proof. apply length_imap. Qed.

Lemma lookup_buildAssignments names S0 w (i : nat) :
  buildAssignments names S0 w !! i =
  (fun n => {| id := i; name := n;
               isImposter := bool_decide (Z.of_nat i ∈ S0);
               word := if bool_decide (Z.of_nat i ∈ S0) then None else Some w |})
    <$> names !! i.
Proof. unfold buildAssignments. by rewrite list_lookup_imap. Qed.

Lemma countImposters_offset (names : list string) (S0 : gset Z) w :
  forall k : nat,
    countImposters
      (imap (fun index n =>
               {| id := k + index; name := n;
                  isImposter := bool_decide (Z.of_nat (k + index) ∈ S0);
                  word := if bool_decide (Z.of_nat (k + index) ∈ S0)
                          then None else Some w |}) names) =
    size (filter (fun x => Z.of_nat k <= x < Z.of_nat (k + length names)) S0).
Proof.
  unfold countImposters.
  induction names as [|n names IH]; intros k.
  - simpl. symmetry. apply size_empty_iff. set_solver by lia.
  - rewrite imap_cons.
    rewrite (imap_ext _ (fun index n0 =>
               {| id := S k + index; name := n0;
                  isImposter := bool_decide (Z.of_nat (S k + index) ∈ S0);
                  word := if bool_decide (Z.of_nat (S k + index) ∈ S0)
                          then None else Some w |}));
      [|intros i x _; simpl; by replace (k + S i)%nat with (S k + i)%nat by lia].
    rewrite filter_cons. cbn [isImposter]. rewrite Nat.add_0_r.
    destruct (decide (Z.of_nat k ∈ S0)) as [Hin|Hnin].
    + rewrite decide_True by (by apply bool_decide_eq_true_2).
      cbn [length]. rewrite IH.
      replace (filter (λ x : Z, Z.of_nat k ≤ x < Z.of_nat (k + S (length names))) S0)
        with ({[ Z.of_nat k ]} ∪
              filter (λ x : Z, Z.of_nat (S k) ≤ x < Z.of_nat (S k + length names)) S0).
      * rewrite size_union by (set_unfold; intros x; lia).
        by rewrite size_singleton.
      * apply set_eq. intros x. set_unfold. 
        split; [intros [->|[? ?]]; split; (done || lia)|].
        intros [? ?]. destruct (decide (x = Z.of_nat k)); [by left|right]. split; [lia|done].
    + rewrite decide_False by (by rewrite bool_decide_eq_false_2).
      rewrite IH. f_equal.
      apply set_eq. intros x. set_unfold.
      split; [intros [? ?]; split; (done || lia)|].
      intros [? ?]. split; [|done]. 
      destruct (decide (x = Z.of_nat k)); [congruence|lia].
Qed.

Lemma countImposters_buildAssignments names (S0 : gset Z) w :
  (forall x, x ∈ S0 -> 0 <= x < Z.of_nat (length names)) ->
  countImposters (buildAssignments names S0 w) = size S0.
Proof.
  intros Hrange. unfold buildAssignments.
  pose proof (countImposters_offset names S0 w 0) as H. simpl in H.
  rewrite H. f_equal. apply set_eq. intros x. set_unfold.
  split; [by intros [? ?]|]. intros Hx. split; [|done]. apply Hrange in Hx. lia.
Qed.

(** ** The invariant of the bot's sessions *)

Lemma getMaxImposters_eq (count : Z) : 2 <= count -> getMaxImposters count = count - 1.
Proof. unfold getMaxImposters, MIN_IMPOSTERS. lia. Qed.

Lemma wellAssigned_build names S0 w : wellAssigned w (buildAssignments names S0 w).
Proof.
  intros p Hp. apply list_elem_of_lookup in Hp as [i Hi].
  rewrite lookup_buildAssignments in Hi.
  destruct (names !! i); simplify_eq/=. done.
Qed.

(** The assignment step common to both front ends. *)
Lemma deal_Dealt fuel (o : Oracle) (pc ic : Z) names S0 :
  randomOk o -> 3 <= pc -> Z.of_nat (length names) = pc -> 1 <= ic <= pc - 1 ->
  drawImposterIndices fuel (random o) pc ic = Some S0 ->
  Dealt pc ic (buildAssignments names S0 (pickRandomWord o)) (pickRandomWord o)
    (freshVotes pc).
Proof.
  intros Hrnd Hpc Hnames Hic Hdraw.
  apply sampleLoop_sound in Hdraw as (m & _ & HS & _ & Hsize).
  rewrite size_empty in Hsize. specialize (Hsize ltac:(lia)).
  unfold Dealt. rewrite length_buildAssignments. unfold freshVotes.
  rewrite length_replicate. repeat split; try lia.
  - rewrite countImposters_buildAssignments; [done|].
    intros x Hx. rewrite Hnames. subst S0.
    apply (drawnIndices_range (random o) pc 0 m); [done|lia|set_solver].
  - intros p Hp. by apply (wellAssigned_build names S0).
Qed.

Lemma Ballots_fresh (n : nat) : Ballots n 0 (replicate n (Some (-1))).
Proof.
  intros j e Hj. apply lookup_replicate in Hj as [-> _].
  repeat split; (lia || auto).
Qed.

Lemma arraySet_in_range (vs : list (option Z)) (i : nat) (v : Z) :
  (i < length vs)%nat -> arraySet vs i v = <[i := Some v]> vs.
Proof. intros H. unfold arraySet. by rewrite decide_True. Qed.

Lemma Ballots_select n c vs (v : Z) :
  (c < length vs)%nat -> 0 <= v < Z.of_nat n ->
  Ballots n c vs -> Ballots n c (arraySet vs c v).
Proof.
  intros Hc Hv Hb j e. rewrite arraySet_in_range by done.
  destruct (decide (j = c)) as [->|Hne].
  - rewrite list_lookup_insert_eq by done. intros [= <-].
    repeat split; try lia. intros _. right. by exists v.
  - rewrite list_lookup_insert_ne by done. apply Hb.
Qed.

Lemma arrayGet_lookup (vs : list (option Z)) (i : nat) e :
  vs !! i = Some e -> arrayGet vs i = e.
Proof. unfold arrayGet. by intros ->. Qed.

Lemma Ballots_confirm_next n c vs :
  length vs = n -> (c < n)%nat ->
  arrayGet vs c <> Some (-1) ->
  Ballots n c vs -> Ballots n (S c) vs.
Proof.
  intros Hlen Hc Hget Hb j e Hj. destruct (Hb j e Hj) as (H1 & H2 & H3).
  repeat split.
  - intros Hlt. destruct (decide (j = c)) as [->|Hne]; [|apply H1; lia].
    destruct (H2 eq_refl) as [->|Hv]; [|done].
    by rewrite (arrayGet_lookup _ _ _ Hj) in Hget.
  - intros ->. left. apply H3. lia.
  - intros Hlt. apply H3. lia.
Qed.

Lemma Ballots_confirm_last n c vs :
  length vs = n -> S c = n ->
  arrayGet vs c <> Some (-1) ->
  Ballots n c vs ->
  forall (j : nat) e, vs !! j = Some e -> validVote n e.
Proof.
  intros Hlen Hc Hget Hb j e Hj. destruct (Hb j e Hj) as (H1 & H2 & H3).
  pose proof (lookup_lt_Some _ _ _ Hj).
  destruct (decide (j = c)) as [->|Hne]; [|apply H1; lia].
  destruct (H2 eq_refl) as [->|Hv]; [|done].
  by rewrite (arrayGet_lookup _ _ _ Hj) in Hget.
Qed.

Lemma BotInv_reset : BotInv Bot.resetSession.
Proof. unfold BotInv, GameInv. simpl. repeat split; (done || lia). Qed.

Ltac bot_inv_start :=
  unfold BotInv, GameInv in *; simpl in *.

Lemma BotInv_onPlayerCount message s :
  Bot.stage s = Bot.askPlayerCount -> BotInv s -> BotInv (Bot.onPlayerCount message s).1.
Proof.
  intros Hst Hinv. unfold Bot.onPlayerCount.
  destruct (Bot.asNumber message) as [count|]; [|done].
  case_decide as Hr; [done|]. unfold MIN_PLAYERS, MAX_PLAYERS in Hr.
  bot_inv_start. rewrite Hst in Hinv. simpl in Hinv.
  destruct Hinv as (_ & _ & Hsetup).
  split; [lia|]. split; [apply ensureNameList_length; lia|done].
Qed.

Lemma BotInv_onNames message s :
  Bot.stage s = Bot.collectNames -> BotInv s -> BotInv (Bot.onNames message s).1.
Proof.
  intros Hst Hinv. bot_inv_start. rewrite Hst in Hinv. simpl in Hinv.
  destruct Hinv as (Hpc & _ & Hsetup).
  split; [lia|]. split; [apply ensureNameList_length; lia|done].
Qed.

Lemma BotInv_onImposterCount fuel o message s s' r :
  randomOk o ->
  Bot.stage s = Bot.askImposterCount -> BotInv s ->
  Bot.onImposterCount fuel o message s = Some (s', r) -> BotInv s'.
Proof.
  intros Hrnd Hst Hinv. unfold Bot.onImposterCount.
  destruct (Bot.asNumber message) as [k|]; [|by intros [= <- <-]].
  case_decide as Hr; [by intros [= <- <-]|].
  destruct (drawImposterIndices _ _ _ _) as [S0|] eqn:Hdraw; [|done].
  simpl. intros [= <- <-].
  bot_inv_start. rewrite Hst in Hinv. simpl in Hinv.
  destruct Hinv as (Hpc & Hnames & Hsetup).
  rewrite getMaxImposters_eq in Hr by lia. unfold MIN_IMPOSTERS in Hr.
  pose proof (deal_Dealt fuel o (Bot.playerCount s) k (Bot.playerNames s) S0 Hrnd
                ltac:(lia) Hnames ltac:(lia) Hdraw) as HD.
  split; [lia|]. split; [done|]. split; [done|].
  rewrite length_buildAssignments. split; [lia|]. split; [done|].
  unfold freshVotes. f_equal. lia.
Qed.

Lemma BotInv_reveal data s :
  BotInv s -> BotInv (Bot.handleRevealCallbacks data s).1.
Proof.
  intros Hinv. unfold Bot.handleRevealCallbacks.
  case_decide as Hst; [done|].
  destruct data; try done.
  - destruct (Bot.wordRevealed s); [done|].
    bot_inv_start. by rewrite Hst in *.
  - destruct (Bot.wordRevealed s); [|done]. simpl.
    unfold Bot.isLast. case_bool_decide as Hlast.
    + bot_inv_start. rewrite Hst in *. simpl in *.
      destruct Hinv as (Hpc & Hnames & HD & Hri & Hvi & Hvs).
      split; [done|]. split; [done|]. split; [done|]. split; [lia|].
      split; [lia|]. rewrite Hvs. apply Ballots_fresh.
    + bot_inv_start. rewrite Hst in *. simpl in *.
      destruct Hinv as (Hpc & Hnames & HD & Hri & Hvi & Hvs).
      split; [done|]. split; [done|]. split; [done|]. split; [lia|]. done.
Qed.

Lemma BotInv_voting data s :
  BotInv s -> BotInv (Bot.handleVotingCallbacks data s).1.
Proof.
  intros Hinv. unfold Bot.handleVotingCallbacks.
  case_decide as Hst; [done|].
  destruct data as [| | |payload| | |]; try done.
  - destruct payload as [index|]; [|done]. case_decide as Hr; [done|].
    bot_inv_start. rewrite Hst in *. simpl in *.
    destruct Hinv as (Hpc & Hnames & HD & Hri & Hvi & Hb).
    destruct HD as (H1 & H2 & H3 & H4 & H5).
    split; [done|]. split; [done|]. split.
    { unfold Dealt. rewrite arraySet_in_range by lia.
      rewrite length_insert. done. }
    split; [done|]. split; [done|].
    apply Ballots_select; [lia|lia|done].
  - case_decide as Hget; [done|].
    unfold Bot.isLast. case_bool_decide as Hlast.
    + bot_inv_start. rewrite Hst in *. simpl in *.
      destruct Hinv as (Hpc & Hnames & HD & Hri & Hvi & Hb).
      split; [done|]. split; [done|]. split; [done|]. split; [done|].
      split; [lia|].
      destruct HD as (H1 & H2 & _).
      apply (Ballots_confirm_last _ (Bot.currentVoterIndex s)); [done|lia|done|done].
    + bot_inv_start. rewrite Hst in *. simpl in *.
      destruct Hinv as (Hpc & Hnames & HD & Hri & Hvi & Hb).
      split; [done|]. split; [done|]. split; [done|]. split; [done|].
      split; [lia|].
      destruct HD as (H1 & H2 & _).
      rewrite Nat.add_1_r.
      apply Ballots_confirm_next; [done|lia|done|done].
Qed.

Ltac from_fst Heq H' :=
  revert Heq H';
  match goal with |- Some ?t = _ -> _ => destruct t end;
  intros Heq H'; simplify_eq/=; exact H'.

Lemma BotInv_handle fuel o event s s' r :
  randomOk o -> BotInv s -> Bot.handle fuel o event s = Some (s', r) -> BotInv s'.
Proof.
  intros Hrnd Hinv. destruct event as [| | | |message|data]; simpl.
  - intros [= <- <-]. apply BotInv_reset.
  - intros [= <- <-]. apply BotInv_reset.
  - by intros [= <- <-].
  - by intros [= <- <-].
  - unfold Bot.onText. destruct (Bot.stage s) eqn:Hst;
      try (by intros [= <- <-]).
    + intros Heq. pose proof (BotInv_onPlayerCount message s Hst Hinv) as H'.
      from_fst Heq H'.
    + intros Heq. pose proof (BotInv_onNames message s Hst Hinv) as H'.
      from_fst Heq H'.
    + by apply BotInv_onImposterCount.
  - intros Heq. unfold Bot.onCallback in Heq.
    destruct data;
      lazymatch type of Heq with
      | Some (Bot.handleRevealCallbacks ?d _) = _ =>
          pose proof (BotInv_reveal d s Hinv) as H'; from_fst Heq H'
      | Some (Bot.handleVotingCallbacks ?d _) = _ =>
          pose proof (BotInv_voting d s Hinv) as H'; from_fst Heq H'
      | _ => by simplify_eq
      end.
Qed.

Lemma bot_reachable_inv s : Bot.reachable s -> BotInv s.
Proof.
  induction 1 as [|fuel o event s s' r _ IH Hrnd Hrun]; [apply BotInv_reset|].
  by eapply BotInv_handle.
Qed.

(** ** Counts that need not be whole *)

Lemma Qlt_ceiling_iff (z : Z) (q : Q) : (inject_Z z < q)%Q <-> z < Qceiling q.
Proof.
  split.
  - intros H. rewrite Zlt_Qlt. eapply Qlt_le_trans; [exact H|apply Qle_ceiling].
  - intros H. apply Qle_lt_trans with (inject_Z (Qceiling q - 1)).
    + rewrite <- Zle_Qle. lia.
    + apply Qceiling_lt.
Qed.

Lemma Qle_ceiling_iff (z : Z) (q : Q) : (q <= inject_Z z)%Q <-> Qceiling q <= z.
Proof.
  pose proof (Qlt_ceiling_iff z q) as H. split.
  - intros Hle. destruct (Z_lt_le_dec z (Qceiling q)) as [Hlt|]; [|done].
    apply H in Hlt. lra.
  - intros Hle. destruct (Qlt_le_dec (inject_Z z) q) as [Hlt|]; [|done].
    apply H in Hlt. lia.
Qed.

Lemma Qle_floor_iff (z : Z) (q : Q) : (inject_Z z <= q)%Q <-> z <= Qfloor q.
Proof.
  split.
  - intros H. destruct (Z_lt_le_dec (Qfloor q) z) as [Hlt|]; [|done].
    assert (Hq : (q < inject_Z z)%Q).
    { eapply Qlt_le_trans; [apply Qlt_floor|]. rewrite <- Zle_Qle. lia. }
    lra.
  - intros H. apply Qle_trans with (inject_Z (Qfloor q)).
    + by rewrite <- Zle_Qle.
    + apply Qfloor_le.
Qed.

Lemma inject_Z_pred (z : Z) : (inject_Z (z - 1) == inject_Z z - 1)%Q.
Proof. unfold Qeq. simpl. lia. Qed.

Lemma Qceiling_pred (q : Q) : Qceiling (q - 1) = Qceiling q - 1.
Proof.
  apply Z.le_antisymm.
  - apply Qle_ceiling_iff. rewrite inject_Z_pred.
    pose proof (Qle_ceiling q). lra.
  - cut (Qceiling q <= Qceiling (q - 1) + 1); [lia|].
    apply Qle_ceiling_iff. rewrite inject_Z_plus.
    pose proof (Qle_ceiling (q - 1)). change (inject_Z 1) with 1%Q. lra.
Qed.

Lemma Qfloor_le_ceiling (q : Q) : Qfloor q <= Qceiling q.
Proof. rewrite Zle_Qle. apply Qle_floor_ceiling. Qed.

Lemma Qmax_spec (x y : Q) :
  ((x < y)%Q /\ Qmax x y = y) \/ ((y <= x)%Q /\ Qmax x y = x).
Proof.
  unfold Qmax, GenericMinMax.gmax. destruct (x ?= y)%Q eqn:Hc.
  - right. apply Qeq_alt in Hc. split; [lra|done].
  - left. apply Qlt_alt in Hc. done.
  - right. apply Qgt_alt in Hc. split; [lra|done].
Qed.

Lemma Qmin_spec (x y : Q) :
  ((x <= y)%Q /\ Qmin x y = x) \/ ((y < x)%Q /\ Qmin x y = y).
Proof.
  unfold Qmin, GenericMinMax.gmin. destruct (x ?= y)%Q eqn:Hc.
  - left. apply Qeq_alt in Hc. split; [lra|done].
  - left. apply Qlt_alt in Hc. split; [lra|done].
  - right. apply Qgt_alt in Hc. done.
Qed.

Ltac q_case_on x y spec :=
  let H := fresh in
  let H' := fresh in
  destruct (spec x y) as [[H' H]|[H' H]]; rewrite ?H in *; clear H.

Ltac q_cases :=
  repeat match goal with
         | |- context [Qmin ?x ?y] => q_case_on x y Qmin_spec
         | |- context [Qmax ?x ?y] => q_case_on x y Qmax_spec
         | _ : context [Qmin ?x ?y] |- _ => q_case_on x y Qmin_spec
         | _ : context [Qmax ?x ?y] |- _ => q_case_on x y Qmax_spec
         end.

Lemma clamp_range (lo hi : Q) (count : Web.Number) :
  (lo <= hi)%Q -> (lo <= Web.clamp lo hi count <= hi)%Q.
Proof. intros H. destruct count as [q| |]; simpl; q_cases; lra. Qed.


Lemma web_getMaxImposters_eq (count : Q) :
  (2 <= count)%Q -> (Web.getMaxImposters count == count - 1)%Q.
Proof.
  intros H. unfold Web.getMaxImposters, MIN_IMPOSTERS.
  change (inject_Z 1) with 1%Q. q_cases; lra.
Qed.

Lemma toInteger_floor (q : Q) : (0 <= q)%Q -> Web.toInteger q = Qfloor q.
Proof. intros H. unfold Web.toInteger. by rewrite decide_True. Qed.

Lemma toInteger_Z (n : Z) : Web.toInteger (inject_Z n) = n.
Proof.
  unfold Web.toInteger. case_decide; [apply Qfloor_Z|apply Qceiling_Z].
Qed.

(** [Web.ensureNameList] does not tell equal numbers apart. *)
Lemma web_ensureNameList_proper (q q' : Q) (l : list string) :
  (q == q')%Q -> Web.ensureNameList q l = Web.ensureNameList q' l.
Proof.
  intros H. unfold Web.ensureNameList.
  assert (Ht : Web.toInteger q = Web.toInteger q').
  { unfold Web.toInteger. rewrite (Qfloor_comp _ _ H), (Qceiling_comp _ _ H).
    repeat case_decide; (done || lra). }
  rewrite Ht, (Qceiling_comp _ _ H).
  repeat case_decide; (done || lra).
Qed.

(** At a whole count the page's [ensureNameList] is the shared one. *)
Lemma web_ensureNameList_integer (n : Z) (l : list string) :
  Web.ensureNameList (inject_Z n) l = ensureNameList n l.
Proof.
  unfold Web.ensureNameList, ensureNameList.
  rewrite toInteger_Z, Qceiling_Z.
  set (trimmed := slice0 l n).
  destruct (decide (inject_Z (Z.of_nat (length trimmed)) == inject_Z n)%Q) as [Hq|Hq];
    destruct (decide (Z.of_nat (length trimmed) = n)) as [Hz|Hz]; try done.
  - exfalso. apply Hz. by apply inject_Z_injective.
  - exfalso. apply Hq. by rewrite Hz.
Qed.

(** At any count [q >= 0] it keeps the first [floor q] names and pads up
    to [ceiling q] names. *)
Lemma web_ensureNameList_eq (q : Q) (l : list string) :
  (0 <= q)%Q ->
  Web.ensureNameList q l =
    ensureNameList (Qceiling q) (take (Z.to_nat (Qfloor q)) l).
Proof.
  intros Hq. unfold Web.ensureNameList, ensureNameList.
  rewrite toInteger_floor by done.
  assert (Hf : 0 <= Qfloor q) by (apply Qle_floor_iff; done).
  pose proof (Qfloor_le_ceiling q) as Hfc.
  unfold slice0.
  rewrite (decide_False (P := Qfloor q < 0)) by lia.
  rewrite (decide_False (P := Qceiling q < 0)) by lia.
  rewrite take_take, Nat.min_r by lia.
  set (trimmed := take (Z.to_nat (Qfloor q)) l).
  assert (Hlen : Z.of_nat (length trimmed) <= Qfloor q).
  { subst trimmed. rewrite length_take. lia. }
  destruct (decide (inject_Z (Z.of_nat (length trimmed)) == q)%Q) as [Hq'|Hq'];
    destruct (decide (Z.of_nat (length trimmed) = Qceiling q)) as [Hz|Hz]; try done.
  - exfalso. apply Hz. rewrite <- (Qceiling_comp _ _ Hq'). by rewrite Qceiling_Z.
  - rewrite <- Hz, Z.sub_diag. simpl. by rewrite app_nil_r.
Qed.

Lemma web_ensureNameList_length (q : Q) (l : list string) :
  (0 <= q)%Q -> Z.of_nat (length (Web.ensureNameList q l)) = Qceiling q.
Proof.
  intros Hq. rewrite web_ensureNameList_eq by done.
  apply ensureNameList_length.
  assert (Hge : Qceiling 0 <= Qceiling q) by (by apply Qceiling_resp_le).
  exact Hge.
Qed.

(** The page's loop stops where the shared loop stops at the bound
    rounded up. *)
Lemma web_sampleLoop_eq fuel rnd span (wanted : Q) :
  forall calls S0,
    Web.sampleLoop fuel rnd calls span wanted S0 =
      sampleLoop fuel rnd calls span (Qceiling wanted) S0.
Proof.
  induction fuel as [|fuel IH]; intros calls S0; simpl;
    pose proof (Qlt_ceiling_iff (Z.of_nat (size S0)) wanted) as H;
    repeat case_decide; try done; try tauto.
Qed.

Lemma web_drawImposterIndices_eq fuel rnd span (wanted : Q) :
  Web.drawImposterIndices fuel rnd span wanted =
    drawImposterIndices fuel rnd span (Qceiling wanted).
Proof. apply web_sampleLoop_eq. Qed.

(** ** The invariant of the web client's states *)

Ltac web_inv_start :=
  unfold WebInv, GameInv, webPlayers, webImposters in *; simpl in *.

Lemma WebCounts_initial : WebCounts Web.initialState.
Proof. unfold WebCounts. simpl. unfold MIN_IMPOSTERS. split; split; done. Qed.

Lemma WebCounts_adjustPlayerCount count st :
  WebCounts st -> WebCounts (Web.adjustPlayerCount count st).
Proof.
  intros [Hpc Hic]. unfold WebCounts. simpl.
  pose proof (clamp_range (inject_Z MIN_PLAYERS) (inject_Z MAX_PLAYERS) count
                ltac:(done)) as Hsafe.
  set (safeCount := Web.clamp _ _ count) in *.
  change (inject_Z MIN_PLAYERS) with 3%Q in Hsafe.
  change (inject_Z MAX_PLAYERS) with 12%Q in Hsafe.
  split; [done|].
  pose proof (web_getMaxImposters_eq safeCount ltac:(lra)) as Hmax.
  destruct (Qmin_spec (Web.imposterCount st) (Web.getMaxImposters safeCount))
    as [[? ->]|[? ->]]; lra.
Qed.

Lemma WebCounts_adjustImposterCount count st :
  WebCounts st -> WebCounts (Web.adjustImposterCount count st).
Proof.
  intros [Hpc Hic]. unfold WebCounts. simpl. split; [done|].
  pose proof (web_getMaxImposters_eq (Web.playerCount st) ltac:(lra)) as Hmax.
  pose proof (clamp_range (inject_Z MIN_IMPOSTERS)
                (Web.getMaxImposters (Web.playerCount st)) count) as Hsafe.
  change (inject_Z MIN_IMPOSTERS) with 1%Q in *.
  specialize (Hsafe ltac:(lra)). lra.
Qed.

Lemma WebCounts_dispatch trim fuel o event st st' :
  WebCounts st -> Web.dispatch trim fuel o event st = Some st' -> WebCounts st'.
Proof.
  intros Hc. unfold Web.dispatch.
  destruct (Web.offered st event); [|by intros [= <-]].
  destruct event; simpl; try (by intros [= <-]).
  - intros [= <-]. by apply WebCounts_adjustPlayerCount.
  - intros [= <-]. by apply WebCounts_adjustImposterCount.
  - unfold Web.handleStartGame. repeat case_decide; try (by intros [= <-]).
    destruct (Web.drawImposterIndices _ _ _ _); [|done].
    simpl. by intros [= <-].
  - unfold Web.handleNextPlayer. case_match; by intros [= <-].
  - unfold Web.handleConfirmVote. repeat case_decide; repeat case_match;
      by intros [= <-].
Qed.

Lemma web_reachable_counts trim st : Web.reachable trim st -> WebCounts st.
Proof.
  induction 1 as [|fuel o event st st' _ IH Hrnd Hrun]; [apply WebCounts_initial|].
  by eapply WebCounts_dispatch.
Qed.

(** The ranges of the counts, rounded up. *)
Lemma WebCounts_ceilings st :
  WebCounts st ->
  3 <= webPlayers st <= 12 /\ 1 <= webImposters st <= webPlayers st - 1.
Proof.
  intros [Hpc Hic]. unfold webPlayers, webImposters.
  assert (H3 : Qceiling 3 <= Qceiling (Web.playerCount st))
    by (apply Qceiling_resp_le; lra).
  assert (H12 : Qceiling (Web.playerCount st) <= Qceiling 12)
    by (apply Qceiling_resp_le; lra).
  assert (H1 : Qceiling 1 <= Qceiling (Web.imposterCount st))
    by (apply Qceiling_resp_le; lra).
  assert (Hic' : Qceiling (Web.imposterCount st) <= Qceiling (Web.playerCount st - 1))
    by (apply Qceiling_resp_le; lra).
  rewrite Qceiling_pred in Hic'.
  change (Qceiling 3) with 3 in H3. change (Qceiling 12) with 12 in H12.
  change (Qceiling 1) with 1 in H1. lia.
Qed.

Lemma WebInv_initial : WebInv Web.initialState.
Proof. web_inv_start. by vm_compute. Qed.

Lemma WebInv_adjustPlayerCount count st :
  Web.stage st = Web.setup -> WebCounts st -> WebInv st ->
  WebInv (Web.adjustPlayerCount count st).
Proof.
  intros Hst Hc Hinv.
  pose proof (WebCounts_adjustPlayerCount count st Hc) as Hc'.
  pose proof (WebCounts_ceilings _ Hc') as [Hpc' Hic'].
  destruct Hc' as [[Hlo _] _].
  web_inv_start. rewrite Hst in *. simpl in *.
  destruct Hinv as ((_ & _ & Hsetup) & _).
  split; [|done]. split; [done|].
  split; [|done]. apply web_ensureNameList_length. lra.
Qed.

Lemma WebInv_adjustImposterCount count st :
  Web.stage st = Web.setup -> WebCounts st -> WebInv st ->
  WebInv (Web.adjustImposterCount count st).
Proof.
  intros Hst Hc Hinv.
  pose proof (WebCounts_ceilings _ (WebCounts_adjustImposterCount count st Hc))
    as [Hpc' Hic'].
  web_inv_start. rewrite Hst in *. simpl in *.
  destruct Hinv as ((_ & Hnames & Hsetup) & _).
  split; [|done]. done.
Qed.

Lemma WebInv_handleNameChange index value st :
  Web.stage st = Web.setup -> WebCounts st -> WebInv st ->
  WebInv (Web.handleNameChange index value st).
Proof.
  intros Hst [[Hlo _] _] Hinv. web_inv_start. rewrite Hst in *. simpl in *.
  destruct Hinv as ((Hpc & Hnames & Hsetup) & Hic).
  split; [|done]. split; [done|]. split; [|done].
  rewrite length_insert. apply web_ensureNameList_length. lra.
Qed.

(** The start of a game, unfolded once and for all: from a setup state
    with counts in range no error is set, and the loop runs on
    [ceiling playerCount] names until [ceiling imposterCount] indices are
    drawn. *)
Lemma web_handleStartGame_eq trim fuel o st :
  WebCounts st ->
  let sanitizedNames :=
    Web.ensureNameList (Web.playerCount st)
      (Web.sanitize trim (Web.playerNames st)) in
  Z.of_nat (length sanitizedNames) = webPlayers st /\
  Web.handleStartGame trim fuel o st =
    imposterIndices ←
      drawImposterIndices fuel (random o) (webPlayers st) (webImposters st);
    Some {| Web.stage := Web.reveal;
            Web.playerCount := Web.playerCount st;
            Web.playerNames := sanitizedNames;
            Web.imposterCount := Web.imposterCount st;
            Web.assignments :=
              buildAssignments sanitizedNames imposterIndices (pickRandomWord o);
            Web.selectedWord := pickRandomWord o;
            Web.currentRevealIndex := 0;
            Web.wordRevealed := false;
            Web.votes := freshVotes (webPlayers st);
            Web.currentVoterIndex := 0;
            Web.error := Web.noError |}.
Proof.
  intros Hc sanitizedNames.
  pose proof (WebCounts_ceilings _ Hc) as [Hpc Hic].
  destruct Hc as [[Hlo Hhi] [Hic1 Hic2]].
  assert (Hlen : Z.of_nat (length sanitizedNames) = webPlayers st).
  { apply web_ensureNameList_length. lra. }
  split; [done|].
  unfold Web.handleStartGame. fold sanitizedNames. rewrite Hlen.
  unfold MIN_PLAYERS. rewrite decide_False by lia.
  rewrite decide_False.
  - by rewrite web_drawImposterIndices_eq.
  - pose proof (web_getMaxImposters_eq (inject_Z (webPlayers st))) as Hmax.
    assert (H2 : (2 <= inject_Z (webPlayers st))%Q).
    { change 2%Q with (inject_Z 2). rewrite <- Zle_Qle. lia. }
    specialize (Hmax H2).
    pose proof (Qle_ceiling (Web.playerCount st)) as Hceil.
    fold (webPlayers st) in Hceil. lra.
Qed.

Lemma WebInv_handleStartGame trim fuel o st st' :
  randomOk o -> Web.stage st = Web.setup -> WebCounts st -> WebInv st ->
  Web.handleStartGame trim fuel o st = Some st' -> WebInv st'.
Proof.
  intros Hrnd Hst Hc Hinv.
  destruct (web_handleStartGame_eq trim fuel o st Hc) as [Hlen ->].
  pose proof (WebCounts_ceilings _ Hc) as [Hpc Hic].
  destruct (drawImposterIndices _ _ _ _) as [S0|] eqn:Hdraw; [|done].
  simpl. intros [= <-].
  pose proof (deal_Dealt fuel o (webPlayers st) (webImposters st)
                _ S0 Hrnd ltac:(lia) Hlen ltac:(lia) Hdraw) as HD.
  unfold WebInv, GameInv. simpl.
  change (Qceiling (Web.playerCount st)) with (webPlayers st).
  change (Qceiling (Web.imposterCount st)) with (webImposters st).
  unfold webPlayers at 1 2 4, webImposters at 1 3. simpl.
  fold (webPlayers st) (webImposters st).
  split; [|done].
  split; [done|]. split; [done|]. split; [done|].
  rewrite length_buildAssignments. split; [lia|]. split; [done|].
  unfold freshVotes. f_equal. lia.
Qed.

Lemma WebInv_handleReset st : WebInv st -> WebInv (Web.handleReset st).
Proof.
  intros ((Hpc & Hnames & _) & Hic). web_inv_start. done.
Qed.

Lemma WebInv_handleRevealWord st : WebInv st -> WebInv (Web.handleRevealWord st).
Proof. intros Hinv. by web_inv_start. Qed.

Lemma WebInv_handleNextPlayer st :
  Web.stage st = Web.reveal -> WebInv st -> WebInv (Web.handleNextPlayer st).
Proof.
  intros Hst Hinv. unfold Web.handleNextPlayer, Web.isLast.
  case_bool_decide as Hlast.
  - web_inv_start. rewrite Hst in *. simpl in *.
    destruct Hinv as ((Hpc & Hnames & HD & Hri & Hvi & Hvs) & Hic).
    split; [|done].
    split; [done|]. split; [done|]. split; [done|]. split; [lia|].
    split; [lia|]. rewrite Hvs. apply Ballots_fresh.
  - web_inv_start. rewrite Hst in *. simpl in *.
    destruct Hinv as ((Hpc & Hnames & HD & Hri & Hvi & Hvs) & Hic).
    split; [|done].
    split; [done|]. split; [done|]. split; [done|]. split; [lia|]. done.
Qed.

Lemma WebInv_handleSelectVote (index : nat) st :
  Web.stage st = Web.voting -> (index < length (Web.assignments st))%nat ->
  WebInv st -> WebInv (Web.handleSelectVote (Z.of_nat index) st).
Proof.
  intros Hst Hidx Hinv. web_inv_start. rewrite Hst in *. simpl in *.
  destruct Hinv as ((Hpc & Hnames & HD & Hri & Hvi & Hb) & Hic).
  destruct HD as (H1 & H2 & H3 & H4 & H5).
  split; [|done]. split; [done|]. split; [done|]. split.
  { unfold Dealt. rewrite arraySet_in_range by lia.
    rewrite length_insert. done. }
  split; [done|]. split; [done|].
  apply Ballots_select; [lia|lia|done].
Qed.

Lemma WebInv_handleConfirmVote st :
  Web.stage st = Web.voting -> WebInv st -> WebInv (Web.handleConfirmVote st).
Proof.
  intros Hst Hinv. unfold Web.handleConfirmVote.
  case_decide as Hget; [done|].
  unfold Web.isLast. case_bool_decide as Hlast.
  - web_inv_start. rewrite Hst in *. simpl in *.
    destruct Hinv as ((Hpc & Hnames & HD & Hri & Hvi & Hb) & Hic).
    split; [|done].
    split; [done|]. split; [done|]. split; [done|]. split; [done|].
    split; [lia|].
    destruct HD as (H1 & H2 & _).
    apply (Ballots_confirm_last _ (Web.currentVoterIndex st)); [done|lia|done|done].
  - web_inv_start. rewrite Hst in *. simpl in *.
    destruct Hinv as ((Hpc & Hnames & HD & Hri & Hvi & Hb) & Hic).
    split; [|done].
    split; [done|]. split; [done|]. split; [done|]. split; [done|].
    split; [lia|].
    destruct HD as (H1 & H2 & _).
    rewrite Nat.add_1_r.
    apply Ballots_confirm_next; [done|lia|done|done].
Qed.

Ltac offered_facts H :=
  simpl in H;
  repeat (apply andb_prop in H as [H ?]);
  repeat match goal with
         | H' : bool_decide _ = true |- _ => apply bool_decide_eq_true_1 in H'
         end.

Lemma WebInv_dispatch trim fuel o event st st' :
  randomOk o -> WebCounts st -> WebInv st ->
  Web.dispatch trim fuel o event st = Some st' -> WebInv st'.
Proof.
  intros Hrnd Hc Hinv. unfold Web.dispatch.
  destruct (Web.offered st event) eqn:Hoff; [|by intros [= <-]].
  destruct event; offered_facts Hoff; simpl.
  - intros [= <-]. by apply WebInv_adjustPlayerCount.
  - intros [= <-]. by apply WebInv_adjustImposterCount.
  - intros [= <-]. by apply WebInv_handleNameChange.
  - by apply WebInv_handleStartGame.
  - intros [= <-]. by apply WebInv_handleReset.
  - intros [= <-]. by apply WebInv_handleRevealWord.
  - intros [= <-]. by apply WebInv_handleNextPlayer.
  - intros [= <-]. by apply WebInv_handleSelectVote.
  - intros [= <-]. by apply WebInv_handleConfirmVote.
  - intros [= <-]. by apply WebInv_handleReset.
Qed.

Lemma web_reachable_inv trim st : Web.reachable trim st -> WebInv st.
Proof.
  induction 1 as [|fuel o event st st' Hreach IH Hrnd Hrun]; [apply WebInv_initial|].
  eapply WebInv_dispatch; [done|by eapply web_reachable_counts|done|done].
Qed.

(** A setup whose count cells hold the whole numbers [n] and [k]. *)
Lemma WebCounts_whole st (n k : Z) :
  (Web.playerCount st == inject_Z n)%Q ->
  (Web.imposterCount st == inject_Z k)%Q ->
  3 <= n <= 12 -> 1 <= k <= n - 1 ->
  WebCounts st /\ webPlayers st = n /\ webImposters st = k.
Proof.
  intros Hn Hk Hnr Hkr. split; [|split].
  - assert (H3 : (inject_Z 3 <= inject_Z n)%Q) by (rewrite <- Zle_Qle; lia).
    assert (H12 : (inject_Z n <= inject_Z 12)%Q) by (rewrite <- Zle_Qle; lia).
    assert (H1 : (inject_Z 1 <= inject_Z k)%Q) by (rewrite <- Zle_Qle; lia).
    assert (Hk' : (inject_Z k <= inject_Z (n - 1))%Q) by (rewrite <- Zle_Qle; lia).
    rewrite inject_Z_pred in Hk'.
    change (inject_Z 3) with 3%Q in H3. change (inject_Z 12) with 12%Q in H12.
    change (inject_Z 1) with 1%Q in H1.
    unfold WebCounts. lra.
  - unfold webPlayers. by rewrite (Qceiling_comp _ _ Hn), Qceiling_Z.
  - unfold webImposters. by rewrite (Qceiling_comp _ _ Hk), Qceiling_Z.
Qed.

(** ** The two tallies *)

Section FoldMax.
Context {A : Type} (g : A -> nat).

Lemma foldl_max_list (l : list A) (a : nat) :
  foldl (fun acc x => Nat.max acc (g x)) a l = Nat.max a (max_list_with g l).
Proof.
  revert a. induction l as [|x l IH]; intros a.
  - cbn. apply eq_sym, Nat.max_0_r.
  - cbn [foldl max_list_with]. rewrite IH. fold (max_list_with g l). lia.
Qed.

Lemma foldl_max_ext (f : nat -> A -> nat) (l : list A) (a : nat) :
  (forall acc x, f acc x = Nat.max acc (g x)) ->
  foldl f a l = Nat.max a (max_list_with g l).
Proof.
  intros Hf. rewrite <- foldl_max_list. revert a.
  induction l as [|x l IH]; intros a; simpl; [done|]. by rewrite Hf, IH.
Qed.

Lemma max_list_with_le_iff (l : list A) (b : nat) :
  (max_list_with g l <= b)%nat <-> (forall x, x ∈ l -> (g x <= b)%nat).
Proof.
  induction l as [|y l IH]; cbn [max_list_with].
  - split; [intros _ x Hx; by apply elem_of_nil in Hx|lia].
  - fold (max_list_with g l). split.
    + intros H x Hx. apply elem_of_cons in Hx as [->|Hx]; [lia|].
      apply IH; [lia|done].
    + intros H. apply Nat.max_lub; [apply H; left|].
      apply IH. intros x Hx. apply H. by right.
Qed.

Lemma max_list_with_elem_le (l : list A) (x : A) :
  x ∈ l -> (g x <= max_list_with g l)%nat.
Proof. intros Hx. by apply (max_list_with_le_iff l (max_list_with g l)). Qed.

Lemma max_list_with_attained (l : list A) :
  l <> [] -> exists x, x ∈ l /\ g x = max_list_with g l.
Proof.
  induction l as [|y l IH]; [done|]. intros _. cbn [max_list_with].
  fold (max_list_with g l).
  destruct l as [|z l].
  - exists y. split; [left|]. cbn. lia.
  - destruct (IH ltac:(done)) as (x & Hx & Hgx).
    destruct (decide (g y <= max_list_with g (z :: l))%nat).
    + exists x. split; [by right|]. lia.
    + exists y. split; [left|]. lia.
Qed.
End FoldMax.

Lemma bot_highestVote_max_list (votes : list (option Z)) :
  Bot.highestVote votes = max_list_with (castCount votes) votes.
Proof.
  unfold Bot.highestVote.
  rewrite (foldl_max_ext (castCount votes)); [lia|].
  intros acc [v|]; simpl; [|lia]. case_decide; lia.
Qed.

Lemma web_highestVote_max_list (summary : list VoteEntry) :
  Web.highestVote summary = max_list_with entryVotes summary.
Proof. unfold Web.highestVote. rewrite foldl_max_list. lia. Qed.

Lemma lookup_getVoteSummary votes players (i : nat) :
  getVoteSummary votes players !! i =
  (fun p => {| player := p; entryVotes := countVotes votes (Z.of_nat i) |})
    <$> players !! i.
Proof. unfold getVoteSummary. by rewrite list_lookup_imap. Qed.

Lemma length_getVoteSummary votes players :
  length (getVoteSummary votes players) = length players.
Proof. apply length_imap. Qed.

Lemma countVotes_pos votes (v : Z) :
  (0 < countVotes votes v)%nat <-> Some v ∈ votes.
Proof.
  unfold countVotes. split.
  - intros H. destruct (filter _ votes) as [|e l] eqn:Hf; [simpl in H; lia|].
    assert (He : e ∈ filter (λ vote : option Z, vote = Some v) votes)
      by (rewrite Hf; left).
    apply list_elem_of_filter in He as [-> ?]. done.
  - intros H.
    assert (He : Some v ∈ filter (λ vote : option Z, vote = Some v) votes)
      by (by apply list_elem_of_filter).
    destruct (filter _ votes); [by apply elem_of_nil in He|simpl; lia].
Qed.

Lemma highestVote_agree votes players :
  castVotesValid (length players) votes ->
  Bot.highestVote votes = Web.highestVote (getVoteSummary votes players).
Proof.
  intros Hvalid.
  rewrite bot_highestVote_max_list, web_highestVote_max_list.
  apply Nat.le_antisymm; apply max_list_with_le_iff; intros y Hy.
  - destruct y as [v|]; simpl; [|lia]. case_decide as Hv; [lia|].
    specialize (Hvalid _ Hy). simpl in Hvalid.
    destruct Hvalid as [?|Hr]; [done|].
    destruct (lookup_lt_is_Some_2 players (Z.to_nat v)) as [p Hp]; [lia|].
    apply (max_list_with_elem_le entryVotes _
             {| player := p; entryVotes := countVotes votes v |}).
    apply list_elem_of_lookup. exists (Z.to_nat v).
    rewrite lookup_getVoteSummary, Hp. simpl. by rewrite Z2Nat.id by lia.
  - apply list_elem_of_lookup in Hy as [i Hi].
    rewrite lookup_getVoteSummary in Hi.
    destruct (players !! i) as [p|]; simplify_eq/=.
    destruct (decide (countVotes votes (Z.of_nat i) = 0%nat)) as [->|Hpos]; [lia|].
    assert (Hin : Some (Z.of_nat i) ∈ votes) by (apply countVotes_pos; lia).
    etransitivity; [|apply (max_list_with_elem_le _ _ _ Hin)].
    simpl. by rewrite decide_False by lia.
Qed.

Lemma mostVotedList_pos (summary : list VoteEntry) (h : nat) :
  (0 < h)%nat ->
  mostVotedList summary h =
  (fun entry => name (player entry)) <$> filter (fun entry => entryVotes entry = h) summary.
Proof.
  intros Hh. unfold mostVotedList. f_equal.
  apply list_filter_iff. intros entry. naive_solver.
Qed.

Lemma finished_votes_valid (n : nat) (votes : list (option Z)) :
  (forall (j : nat) e, votes !! j = Some e -> validVote n e) ->
  castVotesValid n votes.
Proof.
  intros H e He. apply list_elem_of_lookup in He as [j Hj].
  destruct (H j e Hj) as (v & -> & Hv). by right.
Qed.

Lemma finished_highest_pos (n : nat) (votes : list (option Z)) :
  (0 < length votes)%nat ->
  (forall (j : nat) e, votes !! j = Some e -> validVote n e) ->
  (1 <= Bot.highestVote votes)%nat.
Proof.
  intros Hlen H.
  destruct (lookup_lt_is_Some_2 votes 0 Hlen) as [e He].
  destruct (H _ _ He) as (v & -> & Hv).
  rewrite bot_highestVote_max_list.
  assert (Hin : Some v ∈ votes) by (apply list_elem_of_lookup; eauto).
  transitivity (castCount votes (Some v)).
  - simpl. rewrite decide_False by lia. by apply countVotes_pos.
  - by apply max_list_with_elem_le.
Qed.

(** ** Cursors *)

(** Cursor bounds, read off the invariant. *)
Lemma GameInv_bounds ph pc ic names players w ri vi vs :
  GameInv ph pc ic names players w ri vi vs ->
  Z.of_nat ri <= pc - 1 /\ Z.of_nat vi <= pc - 1.
Proof.
  intros (Hpc & _ & Hph). destruct ph.
  - destruct Hph as (_ & _ & -> & ->). lia.
  - destruct Hph as ((Hlen & _) & ? & -> & _). lia.
  - destruct Hph as ((Hlen & _) & ? & ? & _). lia.
  - destruct Hph as ((Hlen & _) & ? & ? & _). lia.
Qed.

Lemma bot_step_monotone fuel o event s s' r :
  BotInv s -> Bot.isReset event = false ->
  Bot.handle fuel o event s = Some (s', r) ->
  (Bot.currentRevealIndex s <= Bot.currentRevealIndex s')%nat /\
  (Bot.currentVoterIndex s <= Bot.currentVoterIndex s')%nat.
Proof.
  intros Hinv Hnr. destruct event as [| | | |message|data]; try done; simpl.
  - by intros [= <- <-].
  - by intros [= <- <-].
  - unfold Bot.onText. destruct (Bot.stage s) eqn:Hst;
      try (by intros [= <- <-]).
    + unfold Bot.onPlayerCount. destruct (Bot.asNumber message).
      * case_decide; by intros [= <- <-].
      * by intros [= <- <-].
    + unfold Bot.onImposterCount.
      destruct (Bot.asNumber message); [|by intros [= <- <-]].
      case_decide; [by intros [= <- <-]|].
      destruct (drawImposterIndices _ _ _ _); [|done].
      simpl. intros [= <- <-]. simpl.
      unfold BotInv, GameInv in Hinv. rewrite Hst in Hinv. simpl in Hinv.
      destruct Hinv as (_ & _ & _ & _ & -> & ->). lia.
  - assert (Hvi : Bot.stage s = Bot.reveal -> Bot.currentVoterIndex s = 0%nat).
    { intros Hst. unfold BotInv, GameInv in Hinv. rewrite Hst in Hinv.
      simpl in Hinv. tauto. }
    intros [= Heq]. revert Heq. unfold Bot.onCallback.
    unfold Bot.handleRevealCallbacks, Bot.handleVotingCallbacks.
    destruct data; repeat case_decide; repeat case_match;
      intros [= <- <-]; simpl; try lia; specialize (Hvi ltac:(done)); lia.
Qed.

Lemma bot_plays_reachable s s' : Bot.reachable s -> Bot.plays s s' -> Bot.reachable s'.
Proof.
  intros Hs. induction 1 as [|fuel o event s s' s'' r _ IH Hnr Hrnd Hrun]; [done|].
  eapply Bot.reach_handle; [by apply IH|done|done].
Qed.

Lemma web_step_monotone trim fuel o event st st' :
  WebInv st -> Web.isReset event = false ->
  Web.dispatch trim fuel o event st = Some st' ->
  (Web.currentRevealIndex st <= Web.currentRevealIndex st')%nat /\
  (Web.currentVoterIndex st <= Web.currentVoterIndex st')%nat.
Proof.
  intros Hinv Hnr. unfold Web.dispatch.
  destruct (Web.offered st event) eqn:Hoff; [|by intros [= <-]].
  destruct event; try done; offered_facts Hoff; simpl.
  - by intros [= <-].
  - by intros [= <-].
  - by intros [= <-].
  - unfold Web.handleStartGame. repeat case_decide; try (by intros [= <-]).
    destruct (Web.drawImposterIndices _ _ _ _); [|done].
    simpl. intros [= <-]. simpl.
    destruct Hinv as [Hinv _]. unfold GameInv in Hinv.
    rewrite Hoff in Hinv. simpl in Hinv.
    destruct Hinv as (_ & _ & _ & _ & -> & ->). lia.
  - by intros [= <-].
  - assert (Hvi : Web.currentVoterIndex st = 0%nat).
    { destruct Hinv as [Hinv _]. unfold GameInv in Hinv.
      rewrite Hoff in Hinv. simpl in Hinv. tauto. }
    unfold Web.handleNextPlayer. case_match; intros [= <-]; simpl; lia.
  - by intros [= <-].
  - unfold Web.handleConfirmVote. repeat case_decide; repeat case_match;
      intros [= <-]; simpl; lia.
Qed.

Lemma web_plays_reachable trim st st' :
  Web.reachable trim st -> Web.plays trim st st' -> Web.reachable trim st'.
Proof.
  intros Hs. induction 1 as [|fuel o event st st' st'' _ IH Hnr Hrnd Hrun]; [done|].
  eapply Web.reach_dispatch; [by apply IH|done|done].
Qed.

(** X27. The cursors of one game (handler runs with no reset in between)
    never decrease. In the bot neither ever exceeds [playerCount - 1]. In
    the web client neither ever exceeds [ceiling playerCount - 1], the last
    index of the name boxes and of the players dealt; so both stay below
    [playerCount], and at most [playerCount - 1] whenever the count cell
    holds a whole number. *)
Theorem cursors_monotone_and_bounded :
  (forall s s',
     Bot.reachable s -> Bot.plays s s' ->
     (Bot.currentRevealIndex s <= Bot.currentRevealIndex s')%nat /\
     (Bot.currentVoterIndex s <= Bot.currentVoterIndex s')%nat /\
     Z.of_nat (Bot.currentRevealIndex s') <= Bot.playerCount s' - 1 /\
     Z.of_nat (Bot.currentVoterIndex s') <= Bot.playerCount s' - 1) /\
  (forall trim st st',
     Web.reachable trim st -> Web.plays trim st st' ->
     (Web.currentRevealIndex st <= Web.currentRevealIndex st')%nat /\
     (Web.currentVoterIndex st <= Web.currentVoterIndex st')%nat /\
     Z.of_nat (Web.currentRevealIndex st') <= webPlayers st' - 1 /\
     Z.of_nat (Web.currentVoterIndex st') <= webPlayers st' - 1 /\
     (inject_Z (Z.of_nat (Web.currentRevealIndex st')) < Web.playerCount st')%Q /\
     (inject_Z (Z.of_nat (Web.currentVoterIndex st')) < Web.playerCount st')%Q /\
     (forall n : Z,
        (Web.playerCount st' == inject_Z n)%Q ->
        Z.of_nat (Web.currentRevealIndex st') <= n - 1 /\
        Z.of_nat (Web.currentVoterIndex st') <= n - 1)).
Proof.
  split.
  - intros s s' Hs Hplays.
    pose proof (bot_reachable_inv _ (bot_plays_reachable _ _ Hs Hplays)) as Hinv'.
    apply GameInv_bounds in Hinv' as [? ?].
    cut ((Bot.currentRevealIndex s <= Bot.currentRevealIndex s')%nat /\
         (Bot.currentVoterIndex s <= Bot.currentVoterIndex s')%nat); [tauto|].
    clear -Hs Hplays.
    induction Hplays as [|fuel o event s s' s'' r Hplays IH Hnr Hrnd Hrun]; [lia|].
    pose proof (bot_reachable_inv _ (bot_plays_reachable _ _ Hs Hplays)) as Hinv.
    destruct (bot_step_monotone _ _ _ _ _ _ Hinv Hnr Hrun).
    specialize (IH Hs). lia.
  - intros trim st st' Hs Hplays.
    pose proof (web_reachable_inv _ _ (web_plays_reachable _ _ _ Hs Hplays))
      as [Hinv' _].
    apply GameInv_bounds in Hinv' as [Hri Hvi].
    assert (Hbelow : forall c : nat,
              Z.of_nat c <= webPlayers st' - 1 ->
              (inject_Z (Z.of_nat c) < Web.playerCount st')%Q).
    { intros c Hc. apply Qlt_ceiling_iff. unfold webPlayers in Hc. lia. }
    assert (Hmono : (Web.currentRevealIndex st <= Web.currentRevealIndex st')%nat /\
                    (Web.currentVoterIndex st <= Web.currentVoterIndex st')%nat).
    { clear -Hs Hplays.
      induction Hplays as [|fuel o event st st' st'' Hplays IH Hnr Hrnd Hrun]; [lia|].
      pose proof (web_reachable_inv _ _ (web_plays_reachable _ _ _ Hs Hplays)) as Hinv.
      destruct (web_step_monotone _ _ _ _ _ _ Hinv Hnr Hrun).
      specialize (IH Hs). lia. }
    destruct Hmono as [? ?].
    repeat (split; [by auto|]).
    intros n Hn. unfold webPlayers in Hri, Hvi.
    rewrite (Qceiling_comp _ _ Hn), Qceiling_Z in Hri, Hvi. done.
Qed.

(** ** Runs, and the example games *)

Lemma bot_run_reachable fuel o events :
  randomOk o ->
  forall s s', Bot.reachable s -> Bot.run fuel o events s = Some s' -> Bot.reachable s'.
Proof.
  intros Hrnd. induction events as [|event rest IH]; intros s s' Hs; simpl.
  - by intros [= <-].
  - destruct (Bot.handle fuel o event s) as [[s1 r]|] eqn:Hrun; [|done]. simpl.
    apply IH. by eapply Bot.reach_handle.
Qed.

Lemma web_run_reachable trim fuel o events :
  randomOk o ->
  forall st st', Web.reachable trim st -> Web.run trim fuel o events st = Some st' ->
                 Web.reachable trim st'.
Proof.
  intros Hrnd. induction events as [|event rest IH]; intros st st' Hs; simpl.
  - by intros [= <-].
  - destruct (Web.dispatch trim fuel o event st) as [st1|] eqn:Hrun; [|done]. simpl.
    apply IH. by eapply Web.reach_dispatch.
Qed.

Lemma randomOk_alternating : randomOk Examples.alternating.
Proof. intros i. simpl. destruct (Nat.even i); split; done. Qed.

Lemma randomOk_stuck : randomOk Examples.stuck.
Proof. intros i. simpl. split; done. Qed.

Lemma reachable_botAsking : Bot.reachable Examples.botAsking.
Proof.
  apply (bot_run_reachable 0 Examples.alternating Examples.botSetup
           randomOk_alternating Bot.resetSession); [constructor|].
  by vm_compute.
Qed.

Lemma reachable_botDealt : Bot.reachable Examples.botDealt.
Proof.
  apply (bot_run_reachable 1 Examples.alternating [Examples.number 1]
           randomOk_alternating _ _ reachable_botAsking).
  by vm_compute.
Qed.

Lemma reachable_botVoting : Bot.reachable Examples.botVoting.
Proof.
  apply (bot_run_reachable 0 Examples.alternating Examples.botReveal
           randomOk_alternating _ _ reachable_botDealt).
  by vm_compute.
Qed.

Lemma reachable_botFinished : Bot.reachable Examples.botFinished.
Proof.
  apply (bot_run_reachable 0 Examples.alternating Examples.botVotes
           randomOk_alternating _ _ reachable_botVoting).
  by vm_compute.
Qed.

Lemma reachable_webReady : Web.reachable Examples.noTrim Examples.webReady.
Proof.
  apply (web_run_reachable Examples.noTrim 0 Examples.alternating Examples.webSetup
           randomOk_alternating Web.initialState); [constructor|].
  by vm_compute.
Qed.

Lemma reachable_webDealt : Web.reachable Examples.noTrim Examples.webDealt.
Proof.
  apply (web_run_reachable Examples.noTrim 2 Examples.alternating [Web.StartGame]
           randomOk_alternating _ _ reachable_webReady).
  by vm_compute.
Qed.

Lemma reachable_webVoting : Web.reachable Examples.noTrim Examples.webVoting.
Proof.
  apply (web_run_reachable Examples.noTrim 0 Examples.alternating Examples.webReveal
           randomOk_alternating _ _ reachable_webDealt).
  by vm_compute.
Qed.

Lemma reachable_webFinished : Web.reachable Examples.noTrim Examples.webFinished.
Proof.
  apply (web_run_reachable Examples.noTrim 0 Examples.alternating Examples.webVotes
           randomOk_alternating _ _ reachable_webVoting).
  by vm_compute.
Qed.

Lemma bot_run_plays fuel o events :
  randomOk o ->
  forallb (fun event => negb (Bot.isReset event)) events = true ->
  forall s s', Bot.run fuel o events s = Some s' -> Bot.plays s s'.
Proof.
  intros Hrnd. induction events as [|event rest IH]; intros Hall s s'; simpl.
  - intros [= <-]. constructor.
  - simpl in Hall. apply andb_prop in Hall as [Hev Hrest].
    destruct (Bot.handle fuel o event s) as [[s1 r]|] eqn:Hrun; [|done]. simpl.
    intros Hrest_run. specialize (IH Hrest s1 s' Hrest_run).
    assert (Hfirst : Bot.plays s s1).
    { eapply Bot.plays_step; [constructor| |done|done].
      by destruct (Bot.isReset event). }
    clear -IH Hfirst. induction IH; [done|].
    eapply Bot.plays_step; [by apply IHIH|done|done|done].
Qed.

Lemma web_run_plays trim fuel o events :
  randomOk o ->
  forallb (fun event => negb (Web.isReset event)) events = true ->
  forall st st', Web.run trim fuel o events st = Some st' -> Web.plays trim st st'.
Proof.
  intros Hrnd. induction events as [|event rest IH]; intros Hall st st'; simpl.
  - intros [= <-]. constructor.
  - simpl in Hall. apply andb_prop in Hall as [Hev Hrest].
    destruct (Web.dispatch trim fuel o event st) as [st1|] eqn:Hrun; [|done]. simpl.
    intros Hrest_run. specialize (IH Hrest st1 st' Hrest_run).
    assert (Hfirst : Web.plays trim st st1).
    { eapply Web.plays_step; [constructor| |done|done].
      by destruct (Web.isReset event). }
    clear -IH Hfirst. induction IH; [done|].
    eapply Web.plays_step; [by apply IHIH|done|done|done].
Qed.

Lemma reachable_webFractionalDealt :
  Web.reachable Examples.noTrim Examples.webFractionalDealt.
Proof.
  apply (web_run_reachable Examples.noTrim 1 Examples.alternating
           [Web.SetPlayerCount (Web.Finite (7 # 2)); Web.StartGame]
           randomOk_alternating Web.initialState); [constructor|].
  by vm_compute.
Qed.

Lemma cursors_monotone_and_bounded_witness :
  ((Bot.currentRevealIndex Examples.botDealt <=
    Bot.currentRevealIndex Examples.botFinished)%nat /\
   Z.of_nat (Bot.currentVoterIndex Examples.botFinished) <=
     Bot.playerCount Examples.botFinished - 1) /\
  ((Web.currentVoterIndex Examples.webDealt <=
    Web.currentVoterIndex Examples.webFinished)%nat /\
   Z.of_nat (Web.currentRevealIndex Examples.webFinished) <= 3 - 1).
Proof.
  split.
  - destruct (proj1 cursors_monotone_and_bounded Examples.botDealt
                Examples.botFinished reachable_botDealt) as (H1 & _ & _ & H4);
      [|by split].
    apply (bot_run_plays 0 Examples.alternating
             (Examples.botReveal ++ Examples.botVotes) randomOk_alternating);
      by vm_compute.
  - destruct (proj2 cursors_monotone_and_bounded Examples.noTrim Examples.webDealt
                Examples.webFinished reachable_webDealt)
      as (_ & H2 & _ & _ & _ & _ & H7).
    + apply (web_run_plays Examples.noTrim 0 Examples.alternating
               (Examples.webReveal ++ Examples.webVotes) randomOk_alternating);
        by vm_compute.
    + split; [done|]. by apply (H7 3).
Defined.

(** C4 fails on the web client. Its player-count box passes on every
    number but [NaN], where the bot asks for [Number.isInteger]: with
    [3.5] typed in, the count cell holds [3.5], four players are dealt,
    and within that one game the reveal cursor and then the voter cursor
    reach [3], above [playerCount - 1 = 2.5]. *)
Theorem web_cursors_pass_fractional_player_count :
  Web.reachable Examples.noTrim Examples.webFractionalDealt /\
  Web.plays Examples.noTrim Examples.webFractionalDealt
    Examples.webFractionalFourth /\
  Web.plays Examples.noTrim Examples.webFractionalDealt
    Examples.webFractionalLastVoter /\
  Web.playerCount Examples.webFractionalFourth = (7 # 2)%Q /\
  Web.playerCount Examples.webFractionalLastVoter = (7 # 2)%Q /\
  length (Web.assignments Examples.webFractionalDealt) = 4%nat /\
  Web.currentRevealIndex Examples.webFractionalFourth = 3%nat /\
  Web.currentVoterIndex Examples.webFractionalLastVoter = 3%nat /\
  (Web.playerCount Examples.webFractionalFourth - 1 <
     inject_Z (Z.of_nat (Web.currentRevealIndex Examples.webFractionalFourth)))%Q /\
  (Web.playerCount Examples.webFractionalLastVoter - 1 <
     inject_Z (Z.of_nat (Web.currentVoterIndex Examples.webFractionalLastVoter)))%Q.
Proof.
  split; [apply reachable_webFractionalDealt|].
  split.
  { apply (web_run_plays Examples.noTrim 0 Examples.alternating
             Examples.webReveal randomOk_alternating); by vm_compute. }
  split.
  { apply (web_run_plays Examples.noTrim 0 Examples.alternating
             (Examples.webReveal ++ [Web.RevealWord; Web.NextPlayer] ++
              Examples.webVotes) randomOk_alternating); by vm_compute. }
  by vm_compute.
Qed.

(** ** The assignment engine *)

Lemma drawnIndices_mono rnd span (m n : nat) :
  (m <= n)%nat -> drawnIndices rnd span 0 m ⊆ drawnIndices rnd span 0 n.
Proof.
  intros Hmn x. unfold drawnIndices.
  rewrite !elem_of_list_to_set, !list_elem_of_fmap.
  intros (i & -> & Hi). exists i. split; [done|].
  apply elem_of_seq in Hi. apply elem_of_seq. lia.
Qed.

(** The loop returns within [fuel] iterations exactly when the first
    [fuel] draws contain [wanted] distinct indices. *)
Lemma drawImposterIndices_returns fuel rnd span wanted :
  is_Some (drawImposterIndices fuel rnd span wanted) <->
  wanted <= Z.of_nat (size (drawnIndices rnd span 0 fuel)).
Proof.
  unfold drawImposterIndices. split.
  - intros [S0 Hrun]. apply sampleLoop_sound in Hrun as (m & Hm & -> & Hge & _).
    etransitivity; [exact Hge|]. apply inj_le, subseteq_size.
    rewrite (right_id_L ∅ (∪)). by apply drawnIndices_mono.
  - intros Hsize. apply (sampleLoop_complete rnd span wanted fuel); [done|].
    by rewrite (right_id_L ∅ (∪)).
Qed.

Lemma drawImposterIndices_result fuel rnd span wanted S0 :
  (forall i : nat, (0 <= rnd i)%Q /\ (rnd i < 1)%Q) -> 0 < span -> 0 <= wanted ->
  drawImposterIndices fuel rnd span wanted = Some S0 ->
  Z.of_nat (size S0) = wanted /\ (forall x, x ∈ S0 -> 0 <= x < span).
Proof.
  intros Hrnd Hspan Hw Hrun.
  apply sampleLoop_sound in Hrun as (m & Hm & -> & _ & Hsize).
  rewrite size_empty in Hsize. split; [apply Hsize; lia|].
  intros x Hx. apply (drawnIndices_range rnd span 0 m); [done|done|set_solver].
Qed.

(** C1. From a valid setup (a reachable session awaiting the imposter
    count; its player count [n] is in [3..12]) and a valid imposter count [k]
    ([1 <= k <= n - 1]), whenever the assignment step returns, [assignments]
    has length [n] and exactly [k] of its entries are imposters; and the
    step does return once the first [fuel] draws contain [k] distinct
    indices. The same for the web client's [handleStartGame] on every setup
    page whose count cells hold such whole numbers [n] and [k]; the cells
    of a page the user can reach are always within these ranges. *)
Theorem assignment_counts :
  (forall fuel o message k session,
     Bot.reachable session ->
     Bot.stage session = Bot.askImposterCount ->
     randomOk o ->
     Bot.asNumber message = Some k ->
     1 <= k <= Bot.playerCount session - 1 ->
     3 <= Bot.playerCount session <= 12 /\
     (forall session' reply,
        Bot.handle fuel o (Bot.Text message) session = Some (session', reply) ->
        Bot.stage session' = Bot.reveal /\
        Z.of_nat (length (Bot.assignments session')) = Bot.playerCount session /\
        Z.of_nat (countImposters (Bot.assignments session')) = k) /\
     (k <= Z.of_nat (size (drawnIndices (random o) (Bot.playerCount session) 0 fuel)) ->
      is_Some (Bot.handle fuel o (Bot.Text message) session))) /\
  (forall trim fuel o (n k : Z) st,
     Web.stage st = Web.setup ->
     randomOk o ->
     (Web.playerCount st == inject_Z n)%Q ->
     (Web.imposterCount st == inject_Z k)%Q ->
     3 <= n <= 12 ->
     1 <= k <= n - 1 ->
     (forall st',
        Web.dispatch trim fuel o Web.StartGame st = Some st' ->
        Web.stage st' = Web.reveal /\
        Z.of_nat (length (Web.assignments st')) = n /\
        Z.of_nat (countImposters (Web.assignments st')) = k) /\
     (k <= Z.of_nat (size (drawnIndices (random o) n 0 fuel)) ->
      is_Some (Web.dispatch trim fuel o Web.StartGame st))) /\
  (forall trim st,
     Web.reachable trim st ->
     (3 <= Web.playerCount st <= 12)%Q /\
     (1 <= Web.imposterCount st <= Web.playerCount st - 1)%Q).
Proof.
  split; [|split].
  - intros fuel o message k s Hreach Hst Hrnd Hnum Hk.
    pose proof (bot_reachable_inv s Hreach) as Hinv.
    assert (Hpc : 3 <= Bot.playerCount s <= 12) by apply Hinv.
    split; [done|].
    simpl. unfold Bot.onText. rewrite Hst. unfold Bot.onImposterCount.
    rewrite Hnum, getMaxImposters_eq by lia. unfold MIN_IMPOSTERS.
    rewrite decide_False by lia. split.
    + intros s' r Hrun.
      pose proof (BotInv_onImposterCount fuel o message s s' r Hrnd Hst Hinv) as Hinv'.
      unfold Bot.onImposterCount in Hinv'.
      rewrite Hnum, getMaxImposters_eq in Hinv' by lia. unfold MIN_IMPOSTERS in Hinv'.
      rewrite decide_False in Hinv' by lia. specialize (Hinv' Hrun).
      destruct (drawImposterIndices _ _ _ _) as [S0|]; [|done].
      simpl in Hrun. injection Hrun as <- <-. simpl.
      unfold BotInv, GameInv in Hinv'. simpl in Hinv'.
      destruct Hinv' as (_ & _ & (Hlen & _ & _ & Hcount & _) & _). done.
    + intros Hsize. apply drawImposterIndices_returns in Hsize as [S0 ->]. by eexists.
  - intros trim fuel o n k st Hst Hrnd Hn Hk Hnr Hkr.
    destruct (WebCounts_whole st n k Hn Hk Hnr Hkr) as (Hc & Hplayers & Himps).
    unfold Web.dispatch. simpl. rewrite Hst, bool_decide_eq_true_2 by done.
    destruct (web_handleStartGame_eq trim fuel o st Hc) as [Hlen ->].
    rewrite Hplayers, Himps in *. split.
    + intros st'.
      destruct (drawImposterIndices _ _ _ _) as [S0|] eqn:Hdraw; [|done].
      simpl. intros [= <-]. simpl.
      pose proof (deal_Dealt fuel o n k _ S0 Hrnd ltac:(lia) Hlen Hkr Hdraw)
        as (Hlen' & _ & _ & Hcount & _).
      done.
    + intros Hsize.
      apply drawImposterIndices_returns in Hsize as [S0 ->]. by eexists.
  - intros trim st Hreach. apply (web_reachable_counts trim st Hreach).
Qed.

Lemma assignment_counts_witness :
  (Z.of_nat (length (Bot.assignments Examples.botDealt)) = 3 /\
   Z.of_nat (countImposters (Bot.assignments Examples.botDealt)) = 1) /\
  (Z.of_nat (length (Web.assignments Examples.webDealt)) = 3 /\
   Z.of_nat (countImposters (Web.assignments Examples.webDealt)) = 2).
Proof.
  split.
  - pose proof (proj1 assignment_counts 1%nat Examples.alternating
        {| Bot.asNumber := Some 1; Bot.asNames := ["1"] |} 1 Examples.botAsking
        reachable_botAsking eq_refl randomOk_alternating eq_refl
        ltac:(vm_compute; split; discriminate)) as (_ & Hrun & _).
    apply (Hrun Examples.botDealt Bot.CardsDealt). by vm_compute.
  - pose proof (proj1 (proj2 assignment_counts) Examples.noTrim 2%nat
        Examples.alternating 3 2 Examples.webReady eq_refl randomOk_alternating
        ltac:(by vm_compute) ltac:(by vm_compute) ltac:(lia) ltac:(lia))
      as (Hrun & _).
    apply (Hrun Examples.webDealt). by vm_compute.
Defined.

(** C2. In every session the bot or the web client can reach, each
    assignment that is not an imposter carries [selectedWord] as its word,
    and each imposter carries no word ([null]). *)
Theorem words_follow_roles :
  (forall session p,
     Bot.reachable session -> p ∈ Bot.assignments session ->
     (isImposter p = false -> word p = Some (Bot.selectedWord session)) /\
     (isImposter p = true -> word p = None)) /\
  (forall trim st p,
     Web.reachable trim st -> p ∈ Web.assignments st ->
     (isImposter p = false -> word p = Some (Web.selectedWord st)) /\
     (isImposter p = true -> word p = None)).
Proof.
  assert (Hcore : forall ph pc ic names players w ri vi vs p,
            GameInv ph pc ic names players w ri vi vs -> p ∈ players ->
            word p = if isImposter p then None else Some w).
  { intros ph pc ic names players w ri vi vs p (_ & _ & Hph) Hp.
    destruct ph.
    - destruct Hph as (-> & _). by apply elem_of_nil in Hp.
    - destruct Hph as ((_ & _ & _ & _ & Hw) & _). by apply Hw.
    - destruct Hph as ((_ & _ & _ & _ & Hw) & _). by apply Hw.
    - destruct Hph as ((_ & _ & _ & _ & Hw) & _). by apply Hw. }
  split.
  - intros s p Hreach Hp.
    pose proof (Hcore _ _ _ _ _ _ _ _ _ p (bot_reachable_inv s Hreach) Hp) as ->.
    split; intros ->; done.
  - intros trim st p Hreach Hp.
    pose proof (Hcore _ _ _ _ _ _ _ _ _ p (proj1 (web_reachable_inv trim st Hreach)) Hp)
      as ->.
    split; intros ->; done.
Qed.

Lemma words_follow_roles_witness :
  word {| id := 1; name := "Sara"; isImposter := false; word := Some "ቡና" |}
    = Some (Bot.selectedWord Examples.botDealt) /\
  word {| id := 0; name := "Abel"; isImposter := true; word := None |} = None.
Proof.
  split.
  - apply (proj1 words_follow_roles Examples.botDealt _ reachable_botDealt);
      [|done]. vm_compute. apply list_elem_of_further, list_elem_of_here.
  - apply (proj2 words_follow_roles Examples.noTrim Examples.webDealt _
             reachable_webDealt); [|done]. vm_compute. apply list_elem_of_here.
Defined.

(** C3 does not hold for every sequence of random values: with three
    players and two imposters, a source that returns [0] on every call keeps
    drawing index 0, so the loop never collects a second index, whatever
    the number of iterations allowed. *)
Lemma sampling_stuck_never_returns :
  randomOk Examples.stuck /\ 1 <= 2 <= 3 - 1 /\
  ~ exists fuel, is_Some (drawImposterIndices fuel (random Examples.stuck) 3 2).
Proof.
  split; [apply randomOk_stuck|]. split; [lia|].
  intros [fuel Hsome]. apply drawImposterIndices_returns in Hsome.
  assert (Hsub : drawnIndices (random Examples.stuck) 3 0 fuel ⊆ {[ 0 ]}).
  { intros x. unfold drawnIndices.
    rewrite elem_of_list_to_set, list_elem_of_fmap. intros (i & -> & _).
    by apply elem_of_singleton. }
  apply subseteq_size in Hsub. rewrite size_singleton in Hsub. lia.
Qed.

(** C3, amended. For a valid input ([1 <= wanted <= span - 1]) and random
    values in [[0, 1)], the rejection-sampling loop returns within [fuel]
    iterations exactly when the first [fuel] draws contain [wanted]
    distinct indices; and whenever it returns, the set it returns has
    exactly [wanted] indices, all in [[0, span)]: the loop cannot fail, it
    can only keep running. *)
Theorem sampling_returns_iff_enough_distinct :
  forall fuel rnd span wanted,
    (forall i : nat, (0 <= rnd i)%Q /\ (rnd i < 1)%Q) ->
    1 <= wanted <= span - 1 ->
    (is_Some (drawImposterIndices fuel rnd span wanted) <->
     wanted <= Z.of_nat (size (drawnIndices rnd span 0 fuel))) /\
    (forall imposterIndices,
       drawImposterIndices fuel rnd span wanted = Some imposterIndices ->
       Z.of_nat (size imposterIndices) = wanted /\
       forall x, x ∈ imposterIndices -> 0 <= x < span).
Proof.
  intros fuel rnd span wanted Hrnd Hw. split.
  - apply drawImposterIndices_returns.
  - intros S0. apply drawImposterIndices_result; (done || lia).
Qed.

Lemma sampling_returns_iff_enough_distinct_witness :
  is_Some (drawImposterIndices 2 (random Examples.alternating) 3 2).
Proof.
  apply (sampling_returns_iff_enough_distinct 2 (random Examples.alternating) 3 2
           randomOk_alternating ltac:(lia)).
  by vm_compute.
Defined.

(** ** Results, rejections *)

(** The tally of a finished game, from the invariant alone. *)
Lemma finished_tally pc ic names players w ri vi vs :
  GameInv Finished pc ic names players w ri vi vs ->
  Bot.highestVote vs = Web.highestVote (getVoteSummary vs players) /\
  Web.highestVote (getVoteSummary vs players) =
    max_list_with entryVotes (getVoteSummary vs players) /\
  (1 <= Bot.highestVote vs)%nat /\
  (1 <= countImposters players)%nat.
Proof.
  intros (Hpc & _ & (Hlen & Hvs & Hic & Hcount & _) & _ & _ & Hvalid).
  split; [|split; [|split]].
  - apply highestVote_agree. by apply finished_votes_valid.
  - apply web_highestVote_max_list.
  - apply (finished_highest_pos (length players)); [lia|done].
  - lia.
Qed.

(** C5. The result is a function of the final session alone. In a finished
    game each player's count is the number of [votes] entries equal to that
    player's index, the highest vote is the maximum of these counts and is
    at least 1, and the most-voted names are the names of all players whose
    count equals the highest vote, in player order and separated by
    [", "]; for the bot's [computeResultSummary] and for the web client's
    [renderResult]. For the votes [1, 1, 2] the counts are [0, 2, 1], the
    highest vote is 2 and the most-voted names are the name of the player
    at index 1 alone; for the votes [1, 2, 0] all three players tie and
    all three names are reported. *)
Theorem result_tally :
  (forall session,
     Bot.reachable session -> Bot.stage session = Bot.result ->
     let summary := Bot.computeResultSummary session in
     (forall (i : nat) p,
        Bot.assignments session !! i = Some p ->
        Bot.voteSummary summary !! i =
          Some {| player := p;
                  entryVotes := countVotes (Bot.votes session) (Z.of_nat i) |}) /\
     length (Bot.voteSummary summary) = length (Bot.assignments session) /\
     Bot.summaryHighestVote summary =
       max_list_with entryVotes (Bot.voteSummary summary) /\
     (1 <= Bot.summaryHighestVote summary)%nat /\
     Bot.mostVotedNames summary =
       String.concat ", "
         ((fun entry => name (player entry)) <$>
            filter (fun entry => entryVotes entry = Bot.summaryHighestVote summary)
                   (Bot.voteSummary summary))) /\
  (forall trim st,
     Web.reachable trim st -> Web.stage st = Web.result ->
     exists view,
       Web.renderResult st = Some view /\
       (forall (i : nat) p,
          Web.assignments st !! i = Some p ->
          Web.viewVoteSummary view !! i =
            Some {| player := p;
                    entryVotes := countVotes (Web.votes st) (Z.of_nat i) |}) /\
       length (Web.viewVoteSummary view) = length (Web.assignments st) /\
       Web.viewHighestVote view =
         max_list_with entryVotes (Web.viewVoteSummary view) /\
       (1 <= Web.viewHighestVote view)%nat /\
       Web.mostVoted view =
         String.concat ", "
           ((fun entry => name (player entry)) <$>
              filter (fun entry => entryVotes entry = Web.viewHighestVote view)
                     (Web.viewVoteSummary view))) /\
  (forall p0 p1 p2,
     let votes := [Some 1; Some 1; Some 2] in
     let summary := getVoteSummary votes [p0; p1; p2] in
     entryVotes <$> summary = [0; 2; 1]%nat /\
     Bot.highestVote votes = 2%nat /\
     Web.highestVote summary = 2%nat /\
     mostVotedList summary 2 = [name p1] /\
     joinNames (mostVotedList summary 2) = name p1) /\
  (forall p0 p1 p2,
     let votes := [Some 1; Some 2; Some 0] in
     let summary := getVoteSummary votes [p0; p1; p2] in
     entryVotes <$> summary = [1; 1; 1]%nat /\
     Bot.highestVote votes = 1%nat /\
     Web.highestVote summary = 1%nat /\
     joinNames (mostVotedList summary 1) =
       name p0 +:+ ", " +:+ name p1 +:+ ", " +:+ name p2).
Proof.
  split; [|split; [|split]].
  - intros s Hreach Hst summary.
    pose proof (bot_reachable_inv s Hreach) as Hinv.
    unfold BotInv in Hinv. rewrite Hst in Hinv. simpl in Hinv.
    destruct (finished_tally _ _ _ _ _ _ _ _ Hinv) as (Hagree & Hmax & Hpos & _).
    subst summary. unfold Bot.computeResultSummary. simpl.
    split; [|split; [|split; [|split]]].
    + intros i p Hp. by rewrite lookup_getVoteSummary, Hp.
    + apply length_getVoteSummary.
    + by rewrite Hagree.
    + done.
    + by rewrite mostVotedList_pos by lia.
  - intros trim st Hreach Hst.
    pose proof (web_reachable_inv trim st Hreach) as [Hinv _].
    rewrite Hst in Hinv. simpl in Hinv.
    destruct (finished_tally _ _ _ _ _ _ _ _ Hinv) as (Hagree & Hmax & Hpos & Himp).
    unfold Web.renderResult.
    rewrite decide_False by (unfold Web.imposters; unfold countImposters in Himp; lia).
    eexists. split; [done|]. simpl.
    split; [|split; [|split; [|split]]].
    + intros i p Hp. by rewrite lookup_getVoteSummary, Hp.
    + apply length_getVoteSummary.
    + done.
    + by rewrite <- Hagree.
    + rewrite mostVotedList_pos; [done|]. rewrite <- Hagree. lia.
  - intros p0 p1 p2. by vm_compute.
  - intros p0 p1 p2. by vm_compute.
Qed.

Lemma result_tally_witness :
  Bot.summaryHighestVote (Bot.computeResultSummary Examples.botFinished) =
    max_list_with entryVotes
      (Bot.voteSummary (Bot.computeResultSummary Examples.botFinished)) /\
  is_Some (Web.renderResult Examples.webFinished).
Proof.
  split.
  - apply (proj1 result_tally Examples.botFinished reachable_botFinished eq_refl).
  - destruct (proj1 (proj2 result_tally) Examples.noTrim Examples.webFinished
                reachable_webFinished eq_refl) as (view & -> & _).
    by eexists.
Defined.

(** C6 does not hold for the web client's [handleNextPlayer]: called on a
    dealt game whose first word is not yet shown, it reports nothing,
    leaves the error banner empty and moves the reveal cursor from 0 to 1.
    The handler does not look at [wordRevealed]. *)
Lemma web_next_handler_is_unguarded :
  Web.stage Examples.webDealt = Web.reveal /\
  Web.wordRevealed Examples.webDealt = false /\
  Web.currentRevealIndex Examples.webDealt = 0%nat /\
  Web.currentRevealIndex (Web.handleNextPlayer Examples.webDealt) = 1%nat /\
  Web.error (Web.handleNextPlayer Examples.webDealt) = Web.noError /\
  Web.handleNextPlayer Examples.webDealt <> Examples.webDealt.
Proof.
  repeat (split; [by vm_compute|]). intros H.
  apply (f_equal Web.currentRevealIndex) in H. by vm_compute in H.
Qed.

(** C6, amended. While the word of the current player is not yet shown,
    the bot answers the next-player callback with the 'show the word
    first' alert ([NotYetRevealed]) and returns the session as it was. The
    web client's [handleNextPlayer] has no such guard: it touches neither
    the error banner nor the deal, and moves on all the same, to the next
    player or, from the last player, to the ballot. What keeps the web
    page from advancing is its render, which does not offer the
    next-player button until the word is shown. *)
Theorem next_before_show_is_rejected :
  (forall fuel o session,
     Bot.stage session = Bot.reveal -> Bot.wordRevealed session = false ->
     Bot.handle fuel o (Bot.Callback Bot.reveal_next) session =
       Some (session, Bot.NotYetRevealed)) /\
  (forall st,
     Web.stage st = Web.reveal -> Web.wordRevealed st = false ->
     let st' := Web.handleNextPlayer st in
     Web.error st' = Web.error st /\
     Web.assignments st' = Web.assignments st /\
     Web.votes st' = Web.votes st /\
     Web.wordRevealed st' = false /\
     (Z.of_nat (Web.currentRevealIndex st) <>
        Z.of_nat (length (Web.assignments st)) - 1 ->
      Web.stage st' = Web.reveal /\
      Web.currentRevealIndex st' = S (Web.currentRevealIndex st)) /\
     (Z.of_nat (Web.currentRevealIndex st) =
        Z.of_nat (length (Web.assignments st)) - 1 ->
      Web.stage st' = Web.voting /\
      Web.currentRevealIndex st' = Web.currentRevealIndex st /\
      Web.currentVoterIndex st' = 0%nat)) /\
  (forall trim fuel o st,
     Web.stage st = Web.reveal -> Web.wordRevealed st = false ->
     Web.offered st Web.NextPlayer = false /\
     Web.dispatch trim fuel o Web.NextPlayer st = Some st).
Proof.
  split; [|split].
  - intros fuel o s Hst Hrev. simpl. unfold Bot.handleRevealCallbacks.
    rewrite decide_False by (intros H; by apply H). by rewrite Hrev.
  - intros st Hst Hrev st'. subst st'.
    unfold Web.handleNextPlayer, Web.isLast.
    case_bool_decide as Hlast; simpl; rewrite ?Hst;
      repeat (split; [done|]); split; intros H; try done.
    split; [done|lia].
  - intros trim fuel o st Hst Hrev.
    assert (Hoff : Web.offered st Web.NextPlayer = false).
    { simpl. rewrite Hrev. apply andb_false_r. }
    split; [done|]. unfold Web.dispatch. by rewrite Hoff.
Qed.

Lemma next_before_show_is_rejected_witness :
  Bot.handle 0 Examples.alternating (Bot.Callback Bot.reveal_next) Examples.botDealt =
    Some (Examples.botDealt, Bot.NotYetRevealed) /\
  Web.currentRevealIndex (Web.handleNextPlayer Examples.webDealt) = 1%nat /\
  Web.dispatch Examples.noTrim 0 Examples.alternating Web.NextPlayer Examples.webDealt =
    Some Examples.webDealt.
Proof.
  split; [|split].
  - apply (proj1 next_before_show_is_rejected 0%nat Examples.alternating
             Examples.botDealt eq_refl eq_refl).
  - apply (proj1 (proj2 next_before_show_is_rejected) Examples.webDealt
             eq_refl eq_refl). by vm_compute.
  - apply (proj2 (proj2 next_before_show_is_rejected) Examples.noTrim 0%nat
             Examples.alternating Examples.webDealt eq_refl eq_refl).
Defined.




(** C8 does not hold on the web client: with three players and one
    imposter, entering imposter count 3 is not rejected; the page takes 2
    as the imposter count and shows no error. *)
Lemma web_imposter_count_three_is_clamped :
  Web.stage Examples.webThree = Web.setup /\
  Web.playerCount Examples.webThree = 3%Q /\
  Web.imposterCount Examples.webThree = 1%Q /\
  exists st',
    Web.dispatch Examples.noTrim 0 Examples.alternating
      (Web.SetImposterCount (Web.integer 3)) Examples.webThree = Some st' /\
    Web.imposterCount st' = 2%Q /\
    Web.error st' = Web.noError /\
    st' <> Examples.webThree.
Proof.
  split; [done|]. split; [done|]. split; [done|]. eexists. split; [reflexivity|].
  split; [done|]. split; [done|]. intros H.
  apply (f_equal Web.imposterCount) in H. by vm_compute in H.
Qed.

(** C8, amended. The bot, awaiting the imposter count, rejects every
    integer [n < 1] or [n > playerCount - 1] with the out-of-range reply and
    leaves the session unchanged. The web client's setup page never rejects
    an imposter count: [adjustImposterCount] clamps it, so [n < 1] gives 1
    and [n > playerCount - 1] gives [playerCount - 1], and the error banner
    is not touched. *)
Theorem imposter_count_out_of_range :
  (forall fuel o message n session,
     Bot.reachable session ->
     Bot.stage session = Bot.askImposterCount ->
     Bot.asNumber message = Some n ->
     n < 1 \/ n > Bot.playerCount session - 1 ->
     Bot.handle fuel o (Bot.Text message) session =
       Some (session, Bot.OutOfRangeImposters)) /\
  (forall trim fuel o n st,
     Web.reachable trim st ->
     Web.stage st = Web.setup ->
     (inject_Z n < 1 \/ inject_Z n > Web.playerCount st - 1)%Q ->
     Web.dispatch trim fuel o (Web.SetImposterCount (Web.integer n)) st =
       Some (Web.adjustImposterCount (Web.integer n) st) /\
     Web.imposterCount (Web.adjustImposterCount (Web.integer n) st) =
       (if decide (n < 1) then 1%Q else (Web.playerCount st - 1)%Q) /\
     Web.error (Web.adjustImposterCount (Web.integer n) st) = Web.error st).
Proof.
  split.
  - intros fuel o message n s Hreach Hst Hnum Hn.
    pose proof (bot_reachable_inv s Hreach) as (Hpc & _).
    simpl. unfold Bot.onText. rewrite Hst. unfold Bot.onImposterCount.
    rewrite Hnum, getMaxImposters_eq by lia. unfold MIN_IMPOSTERS.
    by rewrite decide_True by lia.
  - intros trim fuel o n st Hreach Hst Hn.
    pose proof (web_reachable_counts trim st Hreach) as [[Hlo Hhi] _].
    unfold Web.dispatch. simpl. rewrite Hst, bool_decide_eq_true_2 by done.
    split; [done|]. split; [|done].
    unfold Web.getMaxImposters, MIN_IMPOSTERS. change (inject_Z 1) with 1%Q.
    assert (Hn1 : n < 1 <-> (inject_Z n < 1)%Q).
    { change 1%Q with (inject_Z 1). by rewrite <- Zlt_Qlt. }
    case_decide as Hd; [apply Hn1 in Hd|rewrite Hn1 in Hd; apply Qnot_lt_le in Hd];
      q_cases; first [done | exfalso; lra].
Qed.

Lemma imposter_count_out_of_range_witness :
  Bot.handle 0 Examples.alternating (Examples.number 3) Examples.botAsking =
    Some (Examples.botAsking, Bot.OutOfRangeImposters) /\
  Web.imposterCount (Web.adjustImposterCount (Web.integer 3) Examples.webThree) = 2%Q.
Proof.
  split.
  - apply (proj1 imposter_count_out_of_range 0%nat Examples.alternating
             {| Bot.asNumber := Some 3; Bot.asNames := [pretty 3] |} 3
             Examples.botAsking reachable_botAsking eq_refl eq_refl).
    right. by vm_compute.
  - assert (Hreach : Web.reachable Examples.noTrim Examples.webThree).
    { apply (web_run_reachable Examples.noTrim 0 Examples.alternating
               [Web.SetPlayerCount (Web.integer 3)] randomOk_alternating
               Web.initialState);
        [constructor|]. by vm_compute. }
    apply (proj2 imposter_count_out_of_range Examples.noTrim 0%nat
             Examples.alternating 3 Examples.webThree Hreach eq_refl).
    right. by vm_compute.
Defined.

(** C10. When every entry of [votes] is [-1] or the index of a player, the
    bot's highest vote (the fold over the cast votes that skips [-1]) equals
    the web client's (the maximum over the players of the per-index
    counts). *)
Theorem highest_vote_tallies_agree :
  forall (votes : list (option Z)) (players : list PlayerAssignment),
    (forall e, e ∈ votes ->
       e = Some (-1) \/ exists v, e = Some v /\ 0 <= v < Z.of_nat (length players)) ->
    Bot.highestVote votes = Web.highestVote (getVoteSummary votes players).
Proof.
  intros votes players Hvalid. apply highestVote_agree.
  intros e He. destruct (Hvalid e He) as [->|(v & -> & Hv)]; [by left|by right].
Qed.

Lemma highest_vote_tallies_agree_witness :
  Bot.highestVote [Some 1; Some (-1); Some 1; Some 2] =
  Web.highestVote (getVoteSummary [Some 1; Some (-1); Some 1; Some 2]
                     (Bot.assignments Examples.botDealt)).
Proof.
  apply highest_vote_tallies_agree. intros e He.
  repeat (apply elem_of_cons in He as [->|He]);
    [right; exists 1|by left|right; exists 1|right; exists 2|by apply elem_of_nil in He];
    (split; [done|by vm_compute]).
Defined.

(** ** Ballots *)

Lemma bot_select_once fuel o (target : Z) s :
  Bot.stage s = Bot.voting ->
  (Bot.currentVoterIndex s < length (Bot.votes s))%nat ->
  0 <= target < Z.of_nat (length (Bot.assignments s)) ->
  Bot.handle fuel o (Bot.selectTarget target) s =
    Some (botBallot target s, Bot.SelectionRecorded).
Proof.
  intros Hst Hvi Ht. simpl. unfold Bot.handleVotingCallbacks.
  rewrite decide_False by (intros H; by apply H).
  rewrite decide_False by lia. by rewrite arraySet_in_range.
Qed.

Lemma bot_select_many fuel o (targets : list Z) :
  forall s,
    Bot.stage s = Bot.voting ->
    (Bot.currentVoterIndex s < length (Bot.votes s))%nat ->
    (forall t, t ∈ targets -> 0 <= t < Z.of_nat (length (Bot.assignments s))) ->
    Bot.run fuel o (Bot.selectTarget <$> targets) s =
      Some (match last targets with
            | None => s
            | Some final => botBallot final s
            end).
Proof.
  induction targets as [|t rest IH]; intros s Hst Hvi Hvalid; [done|].
  rewrite fmap_cons. cbn [Bot.run].
  rewrite bot_select_once by (done || apply Hvalid; left).
  cbn [mbind option_bind].
  rewrite IH.
  - f_equal. destruct rest as [|t' rest]; [done|].
    rewrite (last_cons t).
    destruct (last (t' :: rest)) as [final|] eqn:Hlast;
      [|by apply last_None in Hlast].
    unfold botBallot. cbn. by rewrite list_insert_insert_eq.
  - done.
  - cbn. by rewrite length_insert.
  - intros t0 Ht0. cbn. apply Hvalid. by right.
Qed.

Lemma web_select_once trim fuel o (index : nat) st :
  Web.stage st = Web.voting ->
  (Web.currentVoterIndex st < length (Web.assignments st))%nat ->
  length (Web.votes st) = length (Web.assignments st) ->
  (index < length (Web.assignments st))%nat ->
  Web.dispatch trim fuel o (Web.SelectVote index) st =
    Some (webBallot (Z.of_nat index) st).
Proof.
  intros Hst Hvi Hlen Ht. unfold Web.dispatch. simpl.
  rewrite Hst. rewrite !bool_decide_eq_true_2;
    [|done|by apply lookup_lt_is_Some_2|done].
  simpl. unfold Web.handleSelectVote. by rewrite arraySet_in_range by lia.
Qed.

Lemma web_select_many trim fuel o (targets : list nat) :
  forall st,
    Web.stage st = Web.voting ->
    (Web.currentVoterIndex st < length (Web.assignments st))%nat ->
    length (Web.votes st) = length (Web.assignments st) ->
    (forall t, t ∈ targets -> (t < length (Web.assignments st))%nat) ->
    Web.run trim fuel o (Web.SelectVote <$> targets) st =
      Some (match last targets with
            | None => st
            | Some final => webBallot (Z.of_nat final) st
            end).
Proof.
  induction targets as [|t rest IH]; intros st Hst Hvi Hlen Hvalid; [done|].
  rewrite fmap_cons. cbn [Web.run].
  rewrite web_select_once by (done || apply Hvalid; left).
  cbn [mbind option_bind].
  rewrite IH.
  - f_equal. destruct rest as [|t' rest]; [done|].
    rewrite (last_cons t).
    destruct (last (t' :: rest)) as [final|] eqn:Hlast;
      [|by apply last_None in Hlast].
    unfold webBallot. cbn. by rewrite list_insert_insert_eq.
  - done.
  - done.
  - cbn. by rewrite length_insert.
  - intros t0 Ht0. cbn. apply Hvalid. by right.
Qed.

(** C9. During a ballot, any non-empty sequence of selections of valid
    targets by the current voter has the effect of its last selection
    alone: the voter's entry of [votes] is the last target, the length of
    [votes] and every other entry are unchanged, and so is the rest of the
    session (the web page also clears its error banner). *)
Theorem last_selection_wins :
  (forall fuel o session (targets : list Z) (final : Z),
     Bot.reachable session ->
     Bot.stage session = Bot.voting ->
     (forall t, t ∈ targets ->
        0 <= t < Z.of_nat (length (Bot.assignments session))) ->
     last targets = Some final ->
     let voter := Bot.currentVoterIndex session in
     exists session',
       Bot.run fuel o (Bot.selectTarget <$> targets) session = Some session' /\
       session' = botBallot final session /\
       length (Bot.votes session') = length (Bot.votes session) /\
       Bot.votes session' !! voter = Some (Some final) /\
       (forall j : nat, j <> voter ->
          Bot.votes session' !! j = Bot.votes session !! j)) /\
  (forall trim fuel o st (targets : list nat) (final : nat),
     Web.reachable trim st ->
     Web.stage st = Web.voting ->
     (forall t, t ∈ targets -> (t < length (Web.assignments st))%nat) ->
     last targets = Some final ->
     let voter := Web.currentVoterIndex st in
     exists st',
       Web.run trim fuel o (Web.SelectVote <$> targets) st = Some st' /\
       st' = webBallot (Z.of_nat final) st /\
       length (Web.votes st') = length (Web.votes st) /\
       Web.votes st' !! voter = Some (Some (Z.of_nat final)) /\
       (forall j : nat, j <> voter ->
          Web.votes st' !! j = Web.votes st !! j)).
Proof.
  split.
  - intros fuel o s targets final Hreach Hst Hvalid Hlast voter.
    pose proof (bot_reachable_inv s Hreach) as Hinv.
    unfold BotInv in Hinv. rewrite Hst in Hinv.
    destruct Hinv as (_ & _ & (_ & Hlen & _) & _ & Hvi & _).
    exists (botBallot final s).
    rewrite bot_select_many, Hlast by (done || lia).
    split; [done|]. split; [done|]. simpl. split; [apply length_insert|].
    split; [apply list_lookup_insert_eq; lia|].
    intros j Hj. by apply list_lookup_insert_ne.
  - intros trim fuel o st targets final Hreach Hst Hvalid Hlast voter.
    pose proof (web_reachable_inv trim st Hreach) as [Hinv _].
    rewrite Hst in Hinv.
    destruct Hinv as (_ & _ & (_ & Hlen & _) & _ & Hvi & _).
    exists (webBallot (Z.of_nat final) st).
    rewrite web_select_many, Hlast by done.
    split; [done|]. split; [done|]. simpl. split; [apply length_insert|].
    split; [apply list_lookup_insert_eq; lia|].
    intros j Hj. by apply list_lookup_insert_ne.
Qed.

Lemma last_selection_wins_witness :
  (Bot.votes <$> Bot.run 0 Examples.alternating
                   (Bot.selectTarget <$> [0; 2; 1]) Examples.botVoting) =
    Some [Some 1; Some (-1); Some (-1)] /\
  (Web.votes <$> Web.run Examples.noTrim 0 Examples.alternating
                   (Web.SelectVote <$> [0; 2; 1]%nat) Examples.webVoting) =
    Some [Some 1; Some (-1); Some (-1)].
Proof.
  split.
  - destruct (proj1 last_selection_wins 0%nat Examples.alternating
                Examples.botVoting [0; 2; 1] 1 reachable_botVoting eq_refl)
      as (s' & -> & -> & _); [|done|done].
    intros t Ht. repeat (apply elem_of_cons in Ht as [->|Ht]);
      [by vm_compute..|by apply elem_of_nil in Ht].
  - destruct (proj2 last_selection_wins Examples.noTrim 0%nat Examples.alternating
                Examples.webVoting [0; 2; 1]%nat 1%nat reachable_webVoting eq_refl)
      as (s' & -> & -> & _); [|done|done].
    intros t Ht. repeat (apply elem_of_cons in Ht as [->|Ht]);
      [apply Nat.ltb_lt; by vm_compute..|by apply elem_of_nil in Ht].
Defined.

(** * Further properties of the code *)

(** ** Name lists *)

Lemma slice0_lookup {A} (l : list A) (count : Z) (i : nat) :
  0 <= count -> (Z.of_nat i < count) -> slice0 l count !! i = l !! i.
Proof.
  intros Hc Hi. unfold slice0. rewrite decide_False by lia.
  apply lookup_take_lt. lia.
Qed.

Lemma ensureNameList_spec :
  forall (count : Z) (current : list string),
    0 <= count ->
    Z.of_nat (length (ensureNameList count current)) = count /\
    forall i : nat, Z.of_nat i < count ->
      ensureNameList count current !! i =
        Some (default (createDefaultName i) (current !! i)).
Proof.
  intros count current Hc. split; [by apply ensureNameList_length|].
  intros i Hi. unfold ensureNameList.
  pose proof (slice0_length current count Hc) as Hlen.
  case_decide as Hfull.
  - rewrite slice0_lookup by done.
    destruct (lookup_lt_is_Some_2 current i) as [x ->]; [lia|done].
  - destruct (decide (i < length current)%nat) as [Hin|Hout].
    + rewrite lookup_app_l by lia. rewrite slice0_lookup by done.
      destruct (lookup_lt_is_Some_2 current i Hin) as [x ->]. done.
    + rewrite lookup_app_r by lia.
      rewrite (lookup_ge_None_2 current i) by lia. simpl.
      rewrite list_lookup_fmap.
      rewrite lookup_seq_lt by lia. simpl. do 2 f_equal. lia.
Qed.

(** X1. [ensureNameList] with a count of at least 0 returns exactly
    [count] names: position [i] keeps the name [current] had there, and a
    position [current] does not have gets the default name of that
    position ([createDefaultName i]). *)
Theorem ensureNameList_entries :
  forall (count : Z) (current : list string),
    0 <= count ->
    Z.of_nat (length (ensureNameList count current)) = count /\
    forall i : nat, Z.of_nat i < count ->
      ensureNameList count current !! i =
        Some (default (createDefaultName i) (current !! i)).
Proof. apply ensureNameList_spec. Qed.

Lemma ensureNameList_entries_witness :
  ensureNameList 3 ["Abel"] !! 0%nat = Some "Abel" /\
  ensureNameList 3 ["Abel"] !! 2%nat = Some (createDefaultName 2).
Proof.
  split.
  - apply (ensureNameList_entries 3 ["Abel"] ltac:(lia)). lia.
  - apply (ensureNameList_entries 3 ["Abel"] ltac:(lia)). lia.
Defined.

(** X2. Normalising a name list to [n] names and then to [m <= n] names
    gives the same list as normalising it to [m] names directly; with [m =
    n], [ensureNameList] is idempotent. *)
Theorem ensureNameList_shrink :
  forall (m n : Z) (current : list string),
    0 <= m <= n ->
    ensureNameList m (ensureNameList n current) = ensureNameList m current.
Proof.
  intros m n current Hmn.
  destruct (ensureNameList_spec m current ltac:(lia)) as [Hlen1 Hget1].
  destruct (ensureNameList_spec n current ltac:(lia)) as [Hlen2 Hget2].
  destruct (ensureNameList_spec m (ensureNameList n current) ltac:(lia))
    as [Hlen3 Hget3].
  apply list_eq. intros i.
  destruct (decide (Z.of_nat i < m)) as [Hi|Hi].
  - rewrite Hget3, Hget1 by done. rewrite Hget2 by lia. done.
  - rewrite !lookup_ge_None_2 by lia. done.
Qed.

Lemma ensureNameList_shrink_witness :
  ensureNameList 3 (ensureNameList 5 ["Abel"; "Sara"]) =
  ensureNameList 3 ["Abel"; "Sara"].
Proof. apply ensureNameList_shrink. lia. Defined.

(** X3. In the bot's name-collection stage every text message that is not
    a command is accepted and moves on to the imposter-count question with
    [playerCount] names.
    A message with no name keeps the stored names; a message with at least
    one name replaces them all: position [i] gets the [i]-th given name,
    or the default name of position [i] when fewer were given, and names
    beyond [playerCount] are dropped. *)
Theorem names_message_replaces_names :
  forall fuel o message session,
    Bot.reachable session ->
    Bot.stage session = Bot.collectNames ->
    exists session',
      Bot.handle fuel o (Bot.Text message) session =
        Some (session', Bot.AskImposters) /\
      Bot.stage session' = Bot.askImposterCount /\
      Bot.playerCount session' = Bot.playerCount session /\
      Z.of_nat (length (Bot.playerNames session')) = Bot.playerCount session /\
      (Bot.asNames message = [] ->
       Bot.playerNames session' = Bot.playerNames session) /\
      (Bot.asNames message <> [] ->
       forall i : nat, Z.of_nat i < Bot.playerCount session ->
         Bot.playerNames session' !! i =
           Some (default (createDefaultName i) (Bot.asNames message !! i))).
Proof.
  intros fuel o message s Hreach Hst.
  pose proof (bot_reachable_inv s Hreach) as (Hpc & Hnames & _).
  eexists. simpl. unfold Bot.onText. rewrite Hst. split; [reflexivity|].
  simpl. split; [done|]. split; [done|].
  split; [apply ensureNameList_length; lia|]. split.
  - intros ->. simpl. unfold ensureNameList.
    assert (Hs : slice0 (Bot.playerNames s) (Bot.playerCount s) = Bot.playerNames s).
    { unfold slice0. rewrite decide_False by lia. apply take_ge. lia. }
    rewrite Hs. by rewrite decide_True.
  - intros Hne i Hi. destruct (Bot.asNames message) as [|x l] eqn:Hm; [done|].
    simpl. apply ensureNameList_spec; lia.
Qed.

Lemma names_message_replaces_names_witness :
  exists session',
    Bot.handle 0 Examples.alternating (Examples.names ["Hana"])
      (default Bot.resetSession
         (Bot.run 0 Examples.alternating [Examples.number 3] Bot.resetSession)) =
      Some (session', Bot.AskImposters) /\
    Bot.playerNames session' = ["Hana"; createDefaultName 1; createDefaultName 2].
Proof.
  assert (Hreach : Bot.reachable
            (default Bot.resetSession
               (Bot.run 0 Examples.alternating [Examples.number 3] Bot.resetSession))).
  { apply (bot_run_reachable 0 Examples.alternating [Examples.number 3]
             randomOk_alternating Bot.resetSession); [constructor|]. by vm_compute. }
  destruct (names_message_replaces_names 0%nat Examples.alternating
              {| Bot.asNumber := None; Bot.asNames := ["Hana"] |} _ Hreach eq_refl)
    as (s' & Hrun & _).
  exists s'. split; [exact Hrun|]. vm_compute in Hrun. by injection Hrun as <-.
Defined.

(** ** Single steps of the reveal and the ballot *)

Lemma arrayGet_arraySet (array : list (option Z)) (i : nat) (v : Z) :
  arrayGet (arraySet array i v) i = Some v.
Proof.
  unfold arrayGet, arraySet. case_decide as Hi.
  - by rewrite list_lookup_insert_eq.
  - rewrite lookup_app_r by lia. rewrite lookup_app_r; rewrite length_replicate; [|lia].
    by replace (i - length array - (i - length array))%nat with 0%nat by lia.
Qed.

(** X4. Confirming a ballot whose entry is still [-1] changes neither the
    votes nor the voter cursor nor the stage: the bot answers with the
    'choose first' alert and returns the session as it was, and the web
    page only sets its error banner. *)
Theorem confirm_without_selection :
  (forall fuel o session,
     Bot.stage session = Bot.voting ->
     arrayGet (Bot.votes session) (Bot.currentVoterIndex session) = Some (-1) ->
     Bot.handle fuel o (Bot.Callback Bot.vote_confirm) session =
       Some (session, Bot.NoSelection)) /\
  (forall trim fuel o st,
     Web.stage st = Web.voting ->
     arrayGet (Web.votes st) (Web.currentVoterIndex st) = Some (-1) ->
     exists st',
       Web.dispatch trim fuel o Web.ConfirmVote st = Some st' /\
       Web.stage st' = Web.voting /\
       Web.currentVoterIndex st' = Web.currentVoterIndex st /\
       Web.votes st' = Web.votes st /\
       (Web.offered st Web.ConfirmVote = true -> Web.error st' = Web.errNoSelection)).
Proof.
  split.
  - intros fuel o s Hst Hget. simpl. unfold Bot.handleVotingCallbacks.
    rewrite decide_False by (intros H; by apply H). by rewrite decide_True.
  - intros trim fuel o st Hst Hget. unfold Web.dispatch.
    destruct (Web.offered st Web.ConfirmVote) eqn:Hoff.
    + eexists. split; [reflexivity|]. unfold Web.handleConfirmVote.
      rewrite decide_True by done. done.
    + eexists. split; [reflexivity|]. done.
Qed.

Lemma confirm_without_selection_witness :
  Bot.handle 0 Examples.alternating (Bot.Callback Bot.vote_confirm) Examples.botVoting =
    Some (Examples.botVoting, Bot.NoSelection) /\
  exists st',
    Web.dispatch Examples.noTrim 0 Examples.alternating Web.ConfirmVote
      Examples.webVoting = Some st' /\
    Web.currentVoterIndex st' = 0%nat.
Proof.
  split.
  - apply (proj1 confirm_without_selection 0%nat Examples.alternating
             Examples.botVoting eq_refl eq_refl).
  - destruct (proj2 confirm_without_selection Examples.noTrim 0%nat
                Examples.alternating Examples.webVoting eq_refl eq_refl)
      as (st' & Hrun & _ & Hvi & _).
    exists st'. split; [exact Hrun|exact Hvi].
Defined.

(** X5. In a reachable bot session, confirming a ballot that has a
    selection leaves [votes] and [assignments] as they are; when the voter
    is not the last one the voter cursor moves on by one and the new
    voter's entry is [-1]; when the voter is the last one the stage
    becomes [result]. *)
Theorem confirm_with_selection :
  forall fuel o session,
    Bot.reachable session ->
    Bot.stage session = Bot.voting ->
    arrayGet (Bot.votes session) (Bot.currentVoterIndex session) <> Some (-1) ->
    exists session' reply,
      Bot.handle fuel o (Bot.Callback Bot.vote_confirm) session =
        Some (session', reply) /\
      Bot.votes session' = Bot.votes session /\
      Bot.assignments session' = Bot.assignments session /\
      (Z.of_nat (Bot.currentVoterIndex session) < Bot.playerCount session - 1 ->
       reply = Bot.NextVoterPrompt /\
       Bot.stage session' = Bot.voting /\
       Bot.currentVoterIndex session' = S (Bot.currentVoterIndex session) /\
       arrayGet (Bot.votes session') (Bot.currentVoterIndex session') = Some (-1)) /\
      (Z.of_nat (Bot.currentVoterIndex session) = Bot.playerCount session - 1 ->
       reply = Bot.ResultShown /\
       Bot.stage session' = Bot.result /\
       Bot.currentVoterIndex session' = Bot.currentVoterIndex session).
Proof.
  intros fuel o s Hreach Hst Hget.
  pose proof (bot_reachable_inv s Hreach) as Hinv.
  unfold BotInv in Hinv. rewrite Hst in Hinv.
  destruct Hinv as (Hpc & _ & (Hlen & Hvs & _) & _ & Hvi & Hb).
  simpl. unfold Bot.handleVotingCallbacks.
  rewrite decide_False by (intros H; by apply H).
  rewrite decide_False by done.
  unfold Bot.isLast. case_bool_decide as Hlast.
  - eexists _, _. split; [reflexivity|]. simpl.
    split; [done|]. split; [done|]. split; [lia|]. done.
  - eexists _, _. split; [reflexivity|]. simpl.
    split; [done|]. split; [done|]. split; [|lia].
    intros _. split; [done|]. split; [done|]. split; [lia|].
    destruct (lookup_lt_is_Some_2 (Bot.votes s) (Bot.currentVoterIndex s + 1))
      as [e He]; [lia|].
    rewrite (arrayGet_lookup _ _ _ He).
    destruct (Hb _ _ He) as (_ & _ & H3). apply H3. lia.
Qed.

Lemma confirm_with_selection_witness :
  exists session' reply,
    Bot.handle 0 Examples.alternating (Bot.Callback Bot.vote_confirm)
      (botBallot 1 Examples.botVoting) = Some (session', reply) /\
    Bot.votes session' = Bot.votes (botBallot 1 Examples.botVoting).
Proof.
  assert (Hreach : Bot.reachable (botBallot 1 Examples.botVoting)).
  { apply (bot_run_reachable 0 Examples.alternating [Bot.selectTarget 1]
             randomOk_alternating _ _ reachable_botVoting). by vm_compute. }
  destruct (confirm_with_selection 0%nat Examples.alternating
              (botBallot 1 Examples.botVoting) Hreach eq_refl)
    as (s' & r & Hrun & Hvotes & _); [by vm_compute|].
  by exists s', r.
Defined.

(** X6. During the ballot the bot records a selection exactly when the
    payload is an integer [t] with [0 <= t < assignments.length] (the
    voter's own index included); it then stores [t] as the current voter's
    entry and moves nothing else; every other payload gets the 'choice not
    allowed' answer and leaves the session unchanged. *)
Theorem select_accepted_iff_valid :
  forall fuel o payload session,
    Bot.stage session = Bot.voting ->
    exists session' reply,
      Bot.handle fuel o (Bot.Callback (Bot.vote_select payload)) session =
        Some (session', reply) /\
      (reply = Bot.SelectionRecorded \/ reply = Bot.InvalidTarget) /\
      (reply = Bot.SelectionRecorded <->
       exists target, payload = Some target /\
         0 <= target < Z.of_nat (length (Bot.assignments session))) /\
      (reply = Bot.InvalidTarget -> session' = session) /\
      (forall target, payload = Some target -> reply = Bot.SelectionRecorded ->
         arrayGet (Bot.votes session') (Bot.currentVoterIndex session') = Some target /\
         Bot.currentVoterIndex session' = Bot.currentVoterIndex session /\
         Bot.stage session' = Bot.voting).
Proof.
  intros fuel o payload s Hst. simpl. unfold Bot.handleVotingCallbacks.
  rewrite decide_False by (intros H; by apply H).
  destruct payload as [index|].
  - case_decide as Hr.
    + eexists _, _. split; [reflexivity|]. split; [by right|]. split.
      { split; [done|]. intros (t & [= <-] & Ht). lia. }
      split; [done|]. intros t _ H; discriminate H.
    + eexists _, _. split; [reflexivity|]. split; [by left|]. split.
      { split; [|done]. intros _. exists index. split; [done|lia]. }
      split; [intros H; discriminate H|].
      intros t [= <-] _. simpl. split; [apply arrayGet_arraySet|done].
  - eexists _, _. split; [reflexivity|]. split; [by right|]. split.
    { split; [done|]. by intros (t & H & _). }
    split; [done|]. intros t H; discriminate H.
Qed.

Lemma select_accepted_iff_valid_witness :
  exists session' reply,
    Bot.handle 0 Examples.alternating (Bot.Callback (Bot.vote_select (Some 3)))
      Examples.botVoting = Some (session', reply) /\
    session' = Examples.botVoting.
Proof.
  destruct (select_accepted_iff_valid 0%nat Examples.alternating (Some 3)
              Examples.botVoting eq_refl)
    as (s' & r & Hrun & Hcases & Hiff & Hsame & _).
  exists s', r. split; [exact Hrun|]. apply Hsame.
  destruct Hcases as [Hr|Hr]; [|done].
  apply Hiff in Hr as (t & [= <-] & Ht). by vm_compute in Ht; destruct Ht as [_ Ht].
Defined.

(** X7. In the reveal stage, asking to show the word sets [wordRevealed]
    and moves nothing else; asking again is answered 'already shown' and
    changes nothing, so showing twice has the effect of showing once. The
    web client's [handleRevealWord] sets [wordRevealed] and nothing else,
    and applying it twice is applying it once; on a reachable page whose
    current word is hidden the show button is offered, and once it is
    pressed the word is shown, the show button is offered no more (a second
    press changes nothing) and the next-player button is offered instead. *)
Theorem show_is_idempotent :
  (forall fuel o session,
     Bot.stage session = Bot.reveal ->
     exists session' reply,
       Bot.handle fuel o (Bot.Callback Bot.reveal_show) session =
         Some (session', reply) /\
       Bot.wordRevealed session' = true /\
       Bot.currentRevealIndex session' = Bot.currentRevealIndex session /\
       Bot.stage session' = Bot.reveal /\
       (reply = Bot.WordShown <-> Bot.wordRevealed session = false) /\
       (reply = Bot.AlreadyRevealed <-> Bot.wordRevealed session = true) /\
       Bot.handle fuel o (Bot.Callback Bot.reveal_show) session' =
         Some (session', Bot.AlreadyRevealed)) /\
  (forall st,
     let st' := Web.handleRevealWord st in
     Web.wordRevealed st' = true /\
     Web.stage st' = Web.stage st /\
     Web.currentRevealIndex st' = Web.currentRevealIndex st /\
     Web.currentVoterIndex st' = Web.currentVoterIndex st /\
     Web.assignments st' = Web.assignments st /\
     Web.votes st' = Web.votes st /\
     Web.error st' = Web.error st /\
     Web.handleRevealWord st' = st') /\
  (forall trim fuel o st,
     Web.reachable trim st ->
     Web.stage st = Web.reveal ->
     Web.wordRevealed st = false ->
     let st' := Web.handleRevealWord st in
     Web.offered st Web.RevealWord = true /\
     Web.dispatch trim fuel o Web.RevealWord st = Some st' /\
     Web.offered st' Web.RevealWord = false /\
     Web.dispatch trim fuel o Web.RevealWord st' = Some st' /\
     Web.offered st' Web.NextPlayer = true).
Proof.
  split; [|split].
  - intros fuel o s Hst. simpl. unfold Bot.handleRevealCallbacks.
    rewrite decide_False by (intros H; by apply H).
    destruct (Bot.wordRevealed s) eqn:Hrev.
    + eexists _, _. split; [reflexivity|]. rewrite Hrev.
      rewrite decide_False by (intros H; by apply H). by repeat split.
    + eexists _, _. split; [reflexivity|]. simpl. rewrite Hst.
      rewrite decide_False by (intros H; by apply H). by repeat split.
  - intros st st'. subst st'. by repeat split.
  - intros trim fuel o st Hreach Hst Hrev st'. subst st'.
    pose proof (web_reachable_inv trim st Hreach) as [Hinv _].
    unfold GameInv in Hinv. rewrite Hst in Hinv. simpl in Hinv.
    destruct Hinv as (_ & _ & _ & Hri & _).
    apply lookup_lt_is_Some_2 in Hri.
    assert (Hoff : Web.offered st Web.RevealWord = true).
    { simpl. rewrite Hst, Hrev. by rewrite !bool_decide_eq_true_2. }
    assert (Hoff' : Web.offered (Web.handleRevealWord st) Web.RevealWord = false).
    { simpl. apply andb_false_r. }
    unfold Web.dispatch. rewrite Hoff, Hoff'. repeat (split; [done|]).
    simpl. rewrite Hst. by rewrite !bool_decide_eq_true_2.
Qed.

Lemma show_is_idempotent_witness :
  (exists session' reply,
     Bot.handle 0 Examples.alternating (Bot.Callback Bot.reveal_show)
       Examples.botDealt = Some (session', reply) /\
     Bot.handle 0 Examples.alternating (Bot.Callback Bot.reveal_show) session' =
       Some (session', Bot.AlreadyRevealed)) /\
  Web.offered (Web.handleRevealWord Examples.webDealt) Web.RevealWord = false.
Proof.
  split.
  - destruct (proj1 show_is_idempotent 0%nat Examples.alternating Examples.botDealt
                eq_refl) as (s' & r & Hrun & _ & _ & _ & _ & _ & Hagain).
    by exists s', r.
  - apply (proj2 (proj2 show_is_idempotent) Examples.noTrim 0%nat
             Examples.alternating Examples.webDealt reachable_webDealt
             eq_refl eq_refl).
Defined.

(** X8. Events that do not belong to the session's stage leave the bot's
    session unchanged: a text message once the cards are dealt, a reveal
    callback outside the reveal stage, a vote callback outside the ballot,
    [/help], an unknown command, and callbacks with unknown data. *)
Theorem stale_events_are_inert :
  forall fuel o session,
    (Bot.stage session = Bot.reveal \/ Bot.stage session = Bot.voting \/
     Bot.stage session = Bot.result ->
     forall message,
       Bot.handle fuel o (Bot.Text message) session = Some (session, Bot.UseNewGame)) /\
    (Bot.stage session <> Bot.reveal ->
     forall data, data = Bot.reveal_show \/ data = Bot.reveal_next \/ data = Bot.reveal_other ->
       Bot.handle fuel o (Bot.Callback data) session =
         Some (session, Bot.StageMismatchReveal)) /\
    (Bot.stage session <> Bot.voting ->
     forall data,
       (exists payload, data = Bot.vote_select payload) \/
       data = Bot.vote_confirm \/ data = Bot.vote_other ->
       Bot.handle fuel o (Bot.Callback data) session = Some (session, Bot.Silent)) /\
    (forall event,
       event = Bot.CmdHelp \/ event = Bot.CmdOther \/
       event = Bot.Callback Bot.other_data \/ event = Bot.Callback Bot.reveal_other \/
       event = Bot.Callback Bot.vote_other ->
       exists reply, Bot.handle fuel o event session = Some (session, reply)).
Proof.
  intros fuel o s. split; [|split; [|split]].
  - intros Hst message. simpl. unfold Bot.onText.
    by destruct Hst as [->|[->| ->]].
  - intros Hst data Hdata. simpl. unfold Bot.onCallback, Bot.handleRevealCallbacks.
    destruct Hdata as [->|[->| ->]]; by rewrite decide_True.
  - intros Hst data Hdata. simpl. unfold Bot.onCallback, Bot.handleVotingCallbacks.
    destruct Hdata as [[payload ->]|[->| ->]]; by rewrite decide_True.
  - intros event Hev. simpl.
    destruct Hev as [->|[->|[->|[->| ->]]]]; simpl; eauto.
    + unfold Bot.handleRevealCallbacks. case_decide; eauto.
    + unfold Bot.handleVotingCallbacks. case_decide; eauto.
Qed.

Lemma stale_events_are_inert_witness :
  Bot.handle 0 Examples.alternating (Examples.number 1) Examples.botVoting =
    Some (Examples.botVoting, Bot.UseNewGame) /\
  Bot.handle 0 Examples.alternating (Bot.Callback Bot.vote_confirm) Examples.botDealt =
    Some (Examples.botDealt, Bot.Silent).
Proof.
  destruct (stale_events_are_inert 0%nat Examples.alternating Examples.botVoting)
    as (Htext & _).
  destruct (stale_events_are_inert 0%nat Examples.alternating Examples.botDealt)
    as (_ & _ & Hvote & _).
  split.
  - apply Htext. right. by left.
  - apply Hvote; [done|]. right. by left.
Defined.

(** ** What a game keeps fixed *)

Lemma bot_step_keeps_deal fuel o event s s' r :
  botPhase (Bot.stage s) <> Setup ->
  Bot.isReset event = false ->
  Bot.handle fuel o event s = Some (s', r) ->
  Bot.assignments s' = Bot.assignments s /\
  Bot.selectedWord s' = Bot.selectedWord s /\
  Bot.playerCount s' = Bot.playerCount s /\
  Bot.playerNames s' = Bot.playerNames s /\
  Bot.imposterCount s' = Bot.imposterCount s /\
  botPhase (Bot.stage s') <> Setup.
Proof.
  intros Hph Hnr. destruct event as [| | | |message|data]; try done; simpl.
  - by intros [= <- <-].
  - by intros [= <- <-].
  - unfold Bot.onText. destruct (Bot.stage s) eqn:Hst; simpl in Hph; try done;
      intros [= <- <-]; by rewrite Hst.
  - intros [= Heq]. revert Heq. unfold Bot.onCallback.
    unfold Bot.handleRevealCallbacks, Bot.handleVotingCallbacks.
    destruct data; repeat case_decide; repeat case_match;
      intros [= <- <-]; simpl; repeat split; try done;
      destruct (Bot.stage s); done.
Qed.

Lemma web_step_keeps_deal trim fuel o event st st' :
  Web.stage st <> Web.setup ->
  Web.isReset event = false ->
  Web.dispatch trim fuel o event st = Some st' ->
  Web.assignments st' = Web.assignments st /\
  Web.selectedWord st' = Web.selectedWord st /\
  Web.playerCount st' = Web.playerCount st /\
  Web.playerNames st' = Web.playerNames st /\
  Web.imposterCount st' = Web.imposterCount st /\
  Web.stage st' <> Web.setup.
Proof.
  intros Hph Hnr. unfold Web.dispatch.
  destruct (Web.offered st event) eqn:Hoff; [|by intros [= <-]].
  destruct event; try done; offered_facts Hoff; try done; simpl.
  - by intros [= <-].
  - unfold Web.handleNextPlayer. case_match; intros [= <-]; simpl;
      repeat split; try done; by rewrite Hoff.
  - by intros [= <-].
  - unfold Web.handleConfirmVote. repeat case_decide; repeat case_match;
      intros [= <-]; simpl; repeat split; try done; by rewrite Hoff.
Qed.

(** X9. Once the cards are dealt, nothing short of a reset changes
    [assignments], [selectedWord], [playerCount], [playerNames] or
    [imposterCount], and the session never returns to a setup stage; for
    the bot and for the web client. *)
Theorem deal_is_fixed_during_a_game :
  (forall session session',
     Bot.stage session = Bot.reveal \/ Bot.stage session = Bot.voting \/
     Bot.stage session = Bot.result ->
     Bot.plays session session' ->
     Bot.assignments session' = Bot.assignments session /\
     Bot.selectedWord session' = Bot.selectedWord session /\
     Bot.playerCount session' = Bot.playerCount session /\
     Bot.playerNames session' = Bot.playerNames session /\
     Bot.imposterCount session' = Bot.imposterCount session /\
     (Bot.stage session' = Bot.reveal \/ Bot.stage session' = Bot.voting \/
      Bot.stage session' = Bot.result)) /\
  (forall trim st st',
     Web.stage st <> Web.setup ->
     Web.plays trim st st' ->
     Web.assignments st' = Web.assignments st /\
     Web.selectedWord st' = Web.selectedWord st /\
     Web.playerCount st' = Web.playerCount st /\
     Web.playerNames st' = Web.playerNames st /\
     Web.imposterCount st' = Web.imposterCount st /\
     Web.stage st' <> Web.setup).
Proof.
  split.
  - intros s s' Hst Hplays.
    assert (Hph : botPhase (Bot.stage s) <> Setup)
      by (by destruct Hst as [->|[->| ->]]).
    cut (Bot.assignments s' = Bot.assignments s /\
         Bot.selectedWord s' = Bot.selectedWord s /\
         Bot.playerCount s' = Bot.playerCount s /\
         Bot.playerNames s' = Bot.playerNames s /\
         Bot.imposterCount s' = Bot.imposterCount s /\
         botPhase (Bot.stage s') <> Setup).
    { intros (-> & -> & -> & -> & -> & Hph'). repeat split; try done.
      destruct (Bot.stage s'); try done; eauto. }
    clear Hst.
    induction Hplays as [|fuel o event s s' s'' r Hplays IH Hnr Hrnd Hrun]; [done|].
    destruct (IH Hph) as (<- & <- & <- & <- & <- & Hph').
    by apply (bot_step_keeps_deal fuel o event s' s'' r).
  - intros trim st st' Hst Hplays.
    induction Hplays as [|fuel o event st st' st'' Hplays IH Hnr Hrnd Hrun]; [done|].
    destruct (IH Hst) as (<- & <- & <- & <- & <- & Hph').
    by apply (web_step_keeps_deal trim fuel o event st' st'').
Qed.

Lemma deal_is_fixed_during_a_game_witness :
  Bot.assignments Examples.botFinished = Bot.assignments Examples.botDealt /\
  Web.selectedWord Examples.webFinished = Web.selectedWord Examples.webDealt.
Proof.
  split.
  - apply (proj1 deal_is_fixed_during_a_game Examples.botDealt Examples.botFinished);
      [by left|].
    apply (bot_run_plays 0 Examples.alternating
             (Examples.botReveal ++ Examples.botVotes) randomOk_alternating);
      by vm_compute.
  - apply (proj2 deal_is_fixed_during_a_game Examples.noTrim Examples.webDealt
             Examples.webFinished); [done|].
    apply (web_run_plays Examples.noTrim 0 Examples.alternating
             (Examples.webReveal ++ Examples.webVotes) randomOk_alternating);
      by vm_compute.
Defined.

Lemma GameInv_shape ph pc ic names players w ri vi vs :
  GameInv ph pc ic names players w ri vi vs ->
  length vs = length players /\
  castVotesValid (length players) vs /\
  (ph = Setup -> players = []) /\
  (ph <> Setup ->
   Z.of_nat (length players) = pc /\
   Z.of_nat (countImposters players) = ic /\
   1 <= ic <= pc - 1).
Proof.
  intros (Hpc & _ & Hph). destruct ph.
  - destruct Hph as (-> & -> & _). repeat split; try done.
    intros e He. by apply elem_of_nil in He.
  - destruct Hph as ((Hlen & Hvs & Hic & Hcount & _) & _ & _ & Hfresh).
    repeat split; try done; try lia.
    intros e He. rewrite Hfresh in He. apply elem_of_replicate in He as [-> _].
    by left.
  - destruct Hph as ((Hlen & Hvs & Hic & Hcount & _) & _ & _ & Hb).
    repeat split; try done; try lia.
    intros e He. apply list_elem_of_lookup in He as [j Hj].
    destruct (Hb j e Hj) as (H1 & H2 & H3).
    destruct (lt_eq_lt_dec j vi) as [[Hlt|Heq]|Hgt].
    + destruct (H1 Hlt) as (v & -> & Hv). by right.
    + destruct (H2 Heq) as [->|(v & -> & Hv)]; [by left|by right].
    + rewrite (H3 Hgt). by left.
  - destruct Hph as ((Hlen & Hvs & Hic & Hcount & _) & _ & _ & Hvalid).
    repeat split; try done; try lia.
    by apply finished_votes_valid.
Qed.

(** X10. In every session the bot or the web client can reach, [votes] is
    as long as [assignments] and each of its entries is [-1] or the index
    of a player. In the bot, once the cards are dealt, [assignments] has
    [playerCount] entries of which exactly [imposterCount] are imposters,
    with [1 <= imposterCount <= playerCount - 1]; hence the bot's and the
    web client's highest-vote computations agree on every reachable bot
    session. On the web page the two counts are numbers that need not be
    whole, with [3 <= playerCount <= 12] and [1 <= imposterCount <=
    playerCount - 1]; there are [ceiling playerCount] names, and once the
    cards are dealt [ceiling playerCount] assignments of which exactly
    [ceiling imposterCount] are imposters: [playerCount] and
    [imposterCount] themselves when these are whole. *)
Theorem sessions_keep_their_shape :
  (forall session,
     Bot.reachable session ->
     length (Bot.votes session) = length (Bot.assignments session) /\
     (forall e, e ∈ Bot.votes session ->
        e = Some (-1) \/
        exists v, e = Some v /\ 0 <= v < Z.of_nat (length (Bot.assignments session))) /\
     (Bot.stage session = Bot.reveal \/ Bot.stage session = Bot.voting \/
      Bot.stage session = Bot.result ->
      Z.of_nat (length (Bot.assignments session)) = Bot.playerCount session /\
      Z.of_nat (countImposters (Bot.assignments session)) = Bot.imposterCount session /\
      1 <= Bot.imposterCount session <= Bot.playerCount session - 1) /\
     Bot.highestVote (Bot.votes session) =
       Web.highestVote (getVoteSummary (Bot.votes session) (Bot.assignments session))) /\
  (forall trim st,
     Web.reachable trim st ->
     length (Web.votes st) = length (Web.assignments st) /\
     (forall e, e ∈ Web.votes st ->
        e = Some (-1) \/
        exists v, e = Some v /\ 0 <= v < Z.of_nat (length (Web.assignments st))) /\
     (3 <= Web.playerCount st <= 12)%Q /\
     (1 <= Web.imposterCount st <= Web.playerCount st - 1)%Q /\
     Z.of_nat (length (Web.playerNames st)) = Qceiling (Web.playerCount st) /\
     (Web.stage st <> Web.setup ->
      Z.of_nat (length (Web.assignments st)) = Qceiling (Web.playerCount st) /\
      Z.of_nat (countImposters (Web.assignments st)) =
        Qceiling (Web.imposterCount st) /\
      forall n k : Z,
        (Web.playerCount st == inject_Z n)%Q ->
        (Web.imposterCount st == inject_Z k)%Q ->
        Z.of_nat (length (Web.assignments st)) = n /\
        Z.of_nat (countImposters (Web.assignments st)) = k)).
Proof.
  assert (Hvotes : forall n (vs : list (option Z)),
            length vs = n -> castVotesValid n vs ->
            (forall j e, vs !! j = Some e -> e <> None) ->
            forall e, e ∈ vs ->
              e = Some (-1) \/ exists v, e = Some v /\ 0 <= v < Z.of_nat n).
  { intros n vs _ Hvalid Hsome e He. specialize (Hvalid e He).
    destruct e as [v|].
    - destruct Hvalid as [->|Hv]; [by left|right; by exists v].
    - apply list_elem_of_lookup in He as [j Hj]. by destruct (Hsome j None Hj). }
  assert (Hnohole : forall ph pc ic names players w ri vi vs,
            GameInv ph pc ic names players w ri vi vs ->
            forall (j : nat) e, vs !! j = Some e -> e <> None).
  { intros ph pc ic names players w ri vi vs (_ & _ & Hph) j e Hj ->.
    destruct ph.
    - destruct Hph as (_ & -> & _). done.
    - destruct Hph as (_ & _ & _ & Hfresh). rewrite Hfresh in Hj.
      by apply lookup_replicate in Hj as [? _].
    - destruct Hph as (_ & _ & _ & Hb). destruct (Hb j None Hj) as (H1 & H2 & H3).
      destruct (lt_eq_lt_dec j vi) as [[Hlt|Heq]|Hgt].
      + by destruct (H1 Hlt) as (v & ? & _).
      + by destruct (H2 Heq) as [?|(v & ? & _)].
      + by specialize (H3 Hgt).
    - destruct Hph as (_ & _ & _ & Hvalid).
      by destruct (Hvalid j None Hj) as (v & ? & _). }
  split.
  - intros s Hreach. pose proof (bot_reachable_inv s Hreach) as Hinv.
    destruct (GameInv_shape _ _ _ _ _ _ _ _ _ Hinv) as (Hlen & Hvalid & _ & Hdealt).
    split; [done|]. split.
    { apply Hvotes; [done|done|]. by apply (Hnohole _ _ _ _ _ _ _ _ _ Hinv). }
    split.
    { intros Hst. apply Hdealt. by destruct Hst as [->|[->| ->]]. }
    by apply highestVote_agree.
  - intros trim st Hreach. pose proof (web_reachable_inv trim st Hreach) as [Hinv Hic].
    destruct (GameInv_shape _ _ _ _ _ _ _ _ _ Hinv) as (Hlen & Hvalid & _ & Hdealt).
    split; [done|]. split.
    { apply Hvotes; [done|done|]. by apply (Hnohole _ _ _ _ _ _ _ _ _ Hinv). }
    destruct (web_reachable_counts trim st Hreach) as [Hpc Hic'].
    split; [done|]. split; [done|].
    split; [apply Hinv|].
    intros Hst. destruct Hdealt as (H1 & H2 & _); [by destruct (Web.stage st)|].
    split; [done|]. split; [done|].
    intros n k Hn Hk. rewrite H1, H2. unfold webPlayers, webImposters.
    by rewrite (Qceiling_comp _ _ Hn), (Qceiling_comp _ _ Hk), !Qceiling_Z.
Qed.

Lemma sessions_keep_their_shape_witness :
  length (Bot.votes Examples.botVoting) = length (Bot.assignments Examples.botVoting) /\
  length (Web.votes Examples.webVoting) = length (Web.assignments Examples.webVoting).
Proof.
  split.
  - apply (proj1 sessions_keep_their_shape Examples.botVoting reachable_botVoting).
  - apply (proj2 sessions_keep_their_shape Examples.noTrim Examples.webVoting
             reachable_webVoting).
Defined.

(** ** Identity of the players *)

Lemma buildAssignments_ids_names names (S0 : gset Z) w :
  id <$> buildAssignments names S0 w = seq 0 (length names) /\
  name <$> buildAssignments names S0 w = names.
Proof.
  split; apply list_eq; intros i; rewrite list_lookup_fmap, lookup_buildAssignments;
    destruct (names !! i) as [n|] eqn:Hn; simpl.
  - apply lookup_lt_Some in Hn. by rewrite lookup_seq_lt.
  - apply lookup_ge_None in Hn. by rewrite lookup_seq_ge.
  - done.
  - done.
Qed.

Lemma Listed_build names S0 w : Listed names (buildAssignments names S0 w).
Proof.
  destruct (buildAssignments_ids_names names S0 w) as [Hid Hname].
  split; [done|]. by rewrite length_buildAssignments.
Qed.

Lemma bot_step_listed fuel o event s s' r :
  (botPhase (Bot.stage s) <> Setup -> Listed (Bot.playerNames s) (Bot.assignments s)) ->
  Bot.handle fuel o event s = Some (s', r) ->
  botPhase (Bot.stage s') <> Setup ->
  Listed (Bot.playerNames s') (Bot.assignments s').
Proof.
  intros HP Hrun Hph'.
  destruct (decide (botPhase (Bot.stage s) = Setup)) as [Hsetup|Hdealt].
  - destruct event as [| | | |message|data]; simpl in Hrun.
    + by injection Hrun as <- <-.
    + by injection Hrun as <- <-.
    + injection Hrun as <- <-. by destruct Hph'.
    + injection Hrun as <- <-. by destruct Hph'.
    + unfold Bot.onText in Hrun.
      destruct (Bot.stage s) eqn:Hst; simpl in Hsetup; try done.
      * injection Hrun as <- <-. by rewrite Hst in Hph'.
      * revert Hrun. unfold Bot.onPlayerCount.
        destruct (Bot.asNumber message); [case_decide|];
          intros [= <- <-]; simpl in Hph'; try done; by rewrite Hst in Hph'.
      * by injection Hrun as <- <-.
      * revert Hrun. unfold Bot.onImposterCount.
        destruct (Bot.asNumber message); [|intros [= <- <-]; by rewrite Hst in Hph'].
        case_decide; [intros [= <- <-]; by rewrite Hst in Hph'|].
        destruct (drawImposterIndices _ _ _ _); [|done].
        simpl. intros [= <- <-]. simpl. apply Listed_build.
    + injection Hrun as Hrun. revert Hrun. unfold Bot.onCallback.
      unfold Bot.handleRevealCallbacks, Bot.handleVotingCallbacks.
      destruct data; repeat case_decide; repeat case_match;
        intros [= <- <-]; simpl in *; try done;
        destruct (Bot.stage s); done.
  - destruct (Bot.isReset event) eqn:Hreset.
    + destruct event; try done; simpl in Hrun; by injection Hrun as <- <-.
    + destruct (bot_step_keeps_deal fuel o event s s' r Hdealt Hreset Hrun)
        as (-> & _ & _ & -> & _). by apply HP.
Qed.

Lemma web_step_listed trim fuel o event st st' :
  (Web.stage st <> Web.setup -> Listed (Web.playerNames st) (Web.assignments st)) ->
  Web.dispatch trim fuel o event st = Some st' ->
  Web.stage st' <> Web.setup ->
  Listed (Web.playerNames st') (Web.assignments st').
Proof.
  intros HP Hrun Hph'.
  destruct (decide (Web.stage st = Web.setup)) as [Hsetup|Hdealt].
  - revert Hrun. unfold Web.dispatch.
    destruct (Web.offered st event) eqn:Hoff; [|intros [= <-]; by destruct Hph'].
    destruct event; offered_facts Hoff; try congruence; simpl;
      try (intros [= <-]; by destruct Hph').
    unfold Web.handleStartGame.
    repeat case_decide; try (intros [= <-]; by destruct Hph').
    destruct (Web.drawImposterIndices _ _ _ _); [|done].
    simpl. intros [= <-]. simpl. apply Listed_build.
  - destruct (Web.isReset event) eqn:Hreset.
    + revert Hrun. unfold Web.dispatch.
      destruct (Web.offered st event) eqn:Hoff; [|intros [= <-]; by apply HP].
      destruct event; try done; simpl; intros [= <-]; by destruct Hph'.
    + destruct (web_step_keeps_deal trim fuel o event st st' Hdealt Hreset Hrun)
        as (-> & _ & _ & -> & _). by apply HP.
Qed.

(** X11. In every dealt session the assignments carry the names of
    [playerNames], in order, and the [id] of each assignment is its
    position, so no two ids collide; for the bot and for the web client. *)
Theorem players_are_listed_in_order :
  (forall session,
     Bot.reachable session ->
     Bot.stage session = Bot.reveal \/ Bot.stage session = Bot.voting \/
     Bot.stage session = Bot.result ->
     name <$> Bot.assignments session = Bot.playerNames session /\
     id <$> Bot.assignments session = seq 0 (length (Bot.assignments session)) /\
     NoDup (id <$> Bot.assignments session)) /\
  (forall trim st,
     Web.reachable trim st ->
     Web.stage st <> Web.setup ->
     name <$> Web.assignments st = Web.playerNames st /\
     id <$> Web.assignments st = seq 0 (length (Web.assignments st)) /\
     NoDup (id <$> Web.assignments st)).
Proof.
  split.
  - intros s Hreach Hst.
    assert (Hph : botPhase (Bot.stage s) <> Setup)
      by (by destruct Hst as [->|[->| ->]]).
    clear Hst.
    cut (Listed (Bot.playerNames s) (Bot.assignments s)).
    { intros [Hn Hi]. split; [done|]. split; [done|]. rewrite Hi. apply NoDup_seq. }
    revert Hph.
    induction Hreach as [|fuel o event s s' r _ IH Hrnd Hrun]; [done|].
    intros Hph. by apply (bot_step_listed fuel o event s s' r).
  - intros trim st Hreach Hst.
    cut (Listed (Web.playerNames st) (Web.assignments st)).
    { intros [Hn Hi]. split; [done|]. split; [done|]. rewrite Hi. apply NoDup_seq. }
    revert Hst.
    induction Hreach as [|fuel o event st st' _ IH Hrnd Hrun]; [done|].
    intros Hph. by apply (web_step_listed trim fuel o event st st').
Qed.

Lemma players_are_listed_in_order_witness :
  name <$> Bot.assignments Examples.botFinished = Bot.playerNames Examples.botFinished /\
  NoDup (id <$> Web.assignments Examples.webVoting).
Proof.
  split.
  - apply (proj1 players_are_listed_in_order Examples.botFinished
             reachable_botFinished). right. by right.
  - apply (proj2 players_are_listed_in_order Examples.noTrim Examples.webVoting
             reachable_webVoting). done.
Defined.

(** ** Whole rounds *)

Lemma bot_run_app fuel o (l1 l2 : list Bot.Event) s :
  Bot.run fuel o (l1 ++ l2) s = Bot.run fuel o l1 s ≫= Bot.run fuel o l2.
Proof.
  revert s. induction l1 as [|event l1 IH]; intros s; [done|].
  simpl. destruct (Bot.handle fuel o event s) as [[s1 r]|]; [|done]. simpl. apply IH.
Qed.

Lemma reveal_pair_inner fuel o s :
  Bot.stage s = Bot.reveal -> Bot.wordRevealed s = false ->
  (S (Bot.currentRevealIndex s) < length (Bot.assignments s))%nat ->
  Bot.run fuel o [Bot.Callback Bot.reveal_show; Bot.Callback Bot.reveal_next] s =
    Some (atReveal (S (Bot.currentRevealIndex s)) s).
Proof.
  intros Hst Hrev Hlt. simpl. unfold Bot.handleRevealCallbacks.
  rewrite decide_False by (intros H; by apply H). rewrite Hrev. simpl.
  rewrite Hst. rewrite decide_False by (intros H; by apply H).
  unfold Bot.isLast. simpl. rewrite bool_decide_eq_false_2 by lia.
  simpl. unfold atReveal. by rewrite Nat.add_1_r.
Qed.

Lemma reveal_pair_last fuel o s :
  Bot.stage s = Bot.reveal -> Bot.wordRevealed s = false ->
  S (Bot.currentRevealIndex s) = length (Bot.assignments s) ->
  Bot.currentVoterIndex s = 0%nat ->
  Bot.run fuel o [Bot.Callback Bot.reveal_show; Bot.Callback Bot.reveal_next] s =
    Some (afterReveal s).
Proof.
  intros Hst Hrev Hlast Hvi. simpl. unfold Bot.handleRevealCallbacks.
  rewrite decide_False by (intros H; by apply H). rewrite Hrev. simpl.
  rewrite Hst. rewrite decide_False by (intros H; by apply H).
  unfold Bot.isLast. simpl. rewrite bool_decide_eq_true_2 by lia.
  simpl. unfold afterReveal. do 2 f_equal. lia.
Qed.

Lemma revealRound_S n :
  revealRound (S n) =
  [Bot.Callback Bot.reveal_show; Bot.Callback Bot.reveal_next] ++ revealRound n.
Proof. done. Qed.

Lemma reveal_rounds_inner fuel o (j : nat) :
  forall s,
    Bot.stage s = Bot.reveal -> Bot.wordRevealed s = false ->
    (Bot.currentRevealIndex s + j < length (Bot.assignments s))%nat ->
    Bot.run fuel o (revealRound j) s =
      Some (atReveal (Bot.currentRevealIndex s + j) s).
Proof.
  induction j as [|j IH]; intros s Hst Hrev Hlt.
  - simpl. rewrite Nat.add_0_r. destruct s; simpl in *. by subst.
  - rewrite revealRound_S, bot_run_app, reveal_pair_inner by (done || lia).
    simpl. rewrite IH by (done || simpl; lia). simpl. unfold atReveal. simpl.
    do 2 f_equal. lia.
Qed.

(** X12. From a reveal-stage session whose current word is hidden, [k]
    rounds of show-then-next, [k] being the number of players still to see
    their word, open the ballot of the first voter with [votes] and
    [assignments] untouched; after fewer rounds [j] the session is still
    revealing, with the cursor [j] places on and the word hidden. *)
Theorem reveal_round_reaches_voting :
  forall fuel o session (k : nat),
    Bot.stage session = Bot.reveal ->
    Bot.wordRevealed session = false ->
    Bot.currentVoterIndex session = 0%nat ->
    (Bot.currentRevealIndex session + k = length (Bot.assignments session))%nat ->
    (1 <= k)%nat ->
    (forall j : nat, (j < k)%nat ->
       Bot.run fuel o (revealRound j) session =
         Some (atReveal (Bot.currentRevealIndex session + j) session)) /\
    Bot.run fuel o (revealRound k) session = Some (afterReveal session).
Proof.
  intros fuel o s k Hst Hrev Hvi Hk Hpos. split.
  - intros j Hj. apply reveal_rounds_inner; (done || lia).
  - destruct k as [|k]; [lia|].
    assert (Hsplit : revealRound (S k) =
              revealRound k ++
              [Bot.Callback Bot.reveal_show; Bot.Callback Bot.reveal_next]).
    { replace (S k) with (k + 1)%nat by lia. unfold revealRound.
      by rewrite replicate_add, join_app. }
    rewrite Hsplit, bot_run_app, reveal_rounds_inner by (done || lia).
    cbn [mbind option_bind].
    rewrite reveal_pair_last by (done || simpl; lia). done.
Qed.

Lemma reveal_round_reaches_voting_witness :
  Bot.run 0 Examples.alternating (revealRound 3) Examples.botDealt =
    Some (afterReveal Examples.botDealt).
Proof.
  apply (reveal_round_reaches_voting 0%nat Examples.alternating Examples.botDealt 3);
    (done || by vm_compute || lia).
Defined.

Lemma vote_pair_inner fuel o (t : Z) s :
  Bot.stage s = Bot.voting ->
  length (Bot.votes s) = length (Bot.assignments s) ->
  (S (Bot.currentVoterIndex s) < length (Bot.assignments s))%nat ->
  0 <= t < Z.of_nat (length (Bot.assignments s)) ->
  Bot.run fuel o [Bot.selectTarget t; Bot.Callback Bot.vote_confirm] s =
    Some (atBallot (S (Bot.currentVoterIndex s))
            (<[Bot.currentVoterIndex s := Some t]> (Bot.votes s)) s).
Proof.
  intros Hst Hlen Hlt Ht. cbn [Bot.run].
  rewrite bot_select_once by (done || lia). cbn [mbind option_bind].
  simpl. unfold Bot.handleVotingCallbacks. simpl. rewrite Hst.
  rewrite decide_False by (intros H; by apply H).
  unfold arrayGet. rewrite list_lookup_insert_eq by lia. simpl.
  rewrite decide_False by (intros [= H]; lia).
  unfold Bot.isLast. simpl. rewrite bool_decide_eq_false_2 by lia.
  simpl. unfold atBallot. by rewrite Nat.add_1_r.
Qed.

Lemma vote_pair_last fuel o (t : Z) s :
  Bot.stage s = Bot.voting ->
  length (Bot.votes s) = length (Bot.assignments s) ->
  S (Bot.currentVoterIndex s) = length (Bot.assignments s) ->
  0 <= t < Z.of_nat (length (Bot.assignments s)) ->
  Bot.run fuel o [Bot.selectTarget t; Bot.Callback Bot.vote_confirm] s =
    Some (afterVoting [t] s).
Proof.
  intros Hst Hlen Hlast Ht. cbn [Bot.run].
  rewrite bot_select_once by (done || lia). cbn [mbind option_bind].
  simpl. unfold Bot.handleVotingCallbacks. simpl. rewrite Hst.
  rewrite decide_False by (intros H; by apply H).
  unfold arrayGet. rewrite list_lookup_insert_eq by lia. simpl.
  rewrite decide_False by (intros [= H]; lia).
  unfold Bot.isLast. simpl. rewrite bool_decide_eq_true_2 by lia.
  simpl. unfold afterVoting. f_equal. f_equal; [lia|].
  apply list_eq. intros j.
  destruct (decide (j = Bot.currentVoterIndex s)) as [->|Hne].
  - rewrite list_lookup_insert_eq by lia.
    rewrite lookup_app_r; rewrite length_take; [|lia].
    by replace (Bot.currentVoterIndex s - Bot.currentVoterIndex s `min` length (Bot.votes s))%nat
      with 0%nat by lia.
  - rewrite list_lookup_insert_ne by done.
    destruct (decide (j < Bot.currentVoterIndex s)%nat).
    + rewrite lookup_app_l by (rewrite length_take; lia).
      by rewrite lookup_take_lt.
    + rewrite lookup_ge_None_2 by lia.
      rewrite lookup_ge_None_2; [done|].
      rewrite length_app, length_take. simpl. lia.
Qed.

Lemma voting_rounds fuel o (targets : list Z) :
  forall s,
    Bot.stage s = Bot.voting ->
    length (Bot.votes s) = length (Bot.assignments s) ->
    (Bot.currentVoterIndex s + length targets = length (Bot.assignments s))%nat ->
    targets <> [] ->
    (forall t, t ∈ targets -> 0 <= t < Z.of_nat (length (Bot.assignments s))) ->
    Bot.run fuel o (votingRound targets) s = Some (afterVoting targets s).
Proof.
  induction targets as [|t rest IH]; intros s Hst Hlen Hcount Hne Hvalid; [done|].
  change (votingRound (t :: rest))
    with ([Bot.selectTarget t; Bot.Callback Bot.vote_confirm] ++ votingRound rest).
  rewrite bot_run_app. simpl in Hcount.
  destruct rest as [|t' rest].
  - rewrite vote_pair_last
      by (simpl in *; first [done | lia | (apply Hvalid; left)]). done.
  - rewrite vote_pair_inner
      by (simpl in *; first [done | lia | (apply Hvalid; left)]).
    cbn [mbind option_bind].
    rewrite IH; simpl; [|done|by rewrite length_insert|simpl in *; lia|done|
                        intros; apply Hvalid; by right].
    unfold afterVoting. simpl. do 2 f_equal.
    rewrite (take_S_r _ _ (Some t)) by (apply list_lookup_insert_eq; simpl in *; lia).
    rewrite take_insert_ge by lia. by rewrite <- app_assoc.
Qed.

(** X13. From a reachable ballot, when each remaining voter selects a
    valid target and confirms, the game finishes and [votes] holds the
    entries of the earlier voters followed by these targets, in voter
    order; started at the first voter, [votes] is exactly the list of
    chosen targets. *)
Theorem voting_round_records_the_choices :
  forall fuel o session (targets : list Z),
    Bot.reachable session ->
    Bot.stage session = Bot.voting ->
    (Bot.currentVoterIndex session + length targets =
       length (Bot.assignments session))%nat ->
    (forall t, t ∈ targets ->
       0 <= t < Z.of_nat (length (Bot.assignments session))) ->
    Bot.run fuel o (votingRound targets) session =
      Some (afterVoting targets session) /\
    (Bot.currentVoterIndex session = 0%nat ->
     Bot.votes (afterVoting targets session) = Some <$> targets).
Proof.
  intros fuel o s targets Hreach Hst Hcount Hvalid.
  pose proof (bot_reachable_inv s Hreach) as Hinv.
  unfold BotInv in Hinv. rewrite Hst in Hinv.
  destruct Hinv as (_ & _ & (_ & Hlen & _) & _ & Hvi & _).
  split.
  - apply voting_rounds; try done. intros ->. simpl in Hcount. lia.
  - intros Hzero. simpl. by rewrite Hzero.
Qed.

Lemma voting_round_records_the_choices_witness :
  Bot.run 0 Examples.alternating (votingRound [1; 1; 2]) Examples.botVoting =
    Some (afterVoting [1; 1; 2] Examples.botVoting).
Proof.
  apply (voting_round_records_the_choices 0%nat Examples.alternating
           Examples.botVoting [1; 1; 2] reachable_botVoting eq_refl eq_refl).
  intros t Ht. repeat (apply elem_of_cons in Ht as [->|Ht]);
    [by vm_compute..|by apply elem_of_nil in Ht].
Defined.

(** ** Totals of the tally *)

Lemma entryVotes_getVoteSummary votes players :
  entryVotes <$> getVoteSummary votes players =
  (fun i : nat => countVotes votes (Z.of_nat i)) <$> seq 0 (length players).
Proof.
  apply list_eq. intros i.
  rewrite !list_lookup_fmap, lookup_getVoteSummary.
  destruct (players !! i) as [p|] eqn:Hp; simpl.
  - apply lookup_lt_Some in Hp. by rewrite lookup_seq_lt.
  - apply lookup_ge_None in Hp. by rewrite lookup_seq_ge.
Qed.

Lemma countVotes_cons e votes (t : Z) :
  countVotes (e :: votes) t =
  ((if decide (e = Some t) then 1 else 0) + countVotes votes t)%nat.
Proof. unfold countVotes. rewrite filter_cons. by case_decide. Qed.

Lemma sum_list_with_fmap {A B} (f : B -> nat) (g : A -> B) (l : list A) :
  sum_list_with f (g <$> l) = sum_list_with (f ∘ g) l.
Proof. induction l as [|x l IH]; [done|]. cbn. by rewrite IH. Qed.

Lemma sum_list_with_add {A} (f g : A -> nat) (l : list A) :
  sum_list_with (fun x => f x + g x)%nat l =
  (sum_list_with f l + sum_list_with g l)%nat.
Proof. induction l as [|x l IH]; [done|]. cbn. rewrite IH. lia. Qed.

Lemma sum_list_with_ext {A} (f g : A -> nat) (l : list A) :
  (forall x, f x = g x) -> sum_list_with f l = sum_list_with g l.
Proof. intros H. induction l as [|x l IH]; [done|]. cbn. by rewrite H, IH. Qed.

Lemma sum_getVoteSummary votes players :
  sum_list_with entryVotes (getVoteSummary votes players) =
  sum_list_with (fun i : nat => countVotes votes (Z.of_nat i)) (seq 0 (length players)).
Proof.
  transitivity (sum_list_with Datatypes.id (entryVotes <$> getVoteSummary votes players)).
  - by rewrite sum_list_with_fmap.
  - rewrite entryVotes_getVoteSummary. by rewrite sum_list_with_fmap.
Qed.

Lemma sum_indicator (v : Z) (a n : nat) :
  sum_list_with
    (fun i : nat => if decide (Some v = Some (Z.of_nat i)) then 1 else 0)%nat
    (seq a n) =
  if decide (Z.of_nat a <= v < Z.of_nat (a + n)) then 1%nat else 0%nat.
Proof.
  revert a. induction n as [|n IH]; intros a.
  - simpl. by rewrite decide_False by lia.
  - cbn [seq sum_list_with]. rewrite IH.
    destruct (decide (v = Z.of_nat a)) as [->|Hne].
    + rewrite decide_True by done. repeat case_decide; lia.
    + rewrite decide_False by congruence. repeat case_decide; lia.
Qed.

Lemma sum_counts (n : nat) (votes : list (option Z)) :
  (forall (j : nat) e, votes !! j = Some e -> validVote n e) ->
  sum_list_with (fun i : nat => countVotes votes (Z.of_nat i)) (seq 0 n) =
  length votes.
Proof.
  induction votes as [|e votes IH]; intros Hvalid.
  - induction (seq 0 n) as [|i l IHl]; [done|]. cbn [sum_list_with]. by rewrite IHl.
  - destruct (Hvalid 0%nat e eq_refl) as (v & -> & Hv).
    rewrite (sum_list_with_ext _
               (fun i : nat =>
                  (if decide (Some v = Some (Z.of_nat i)) then 1 else 0) +
                  countVotes votes (Z.of_nat i))%nat)
      by (intros i; apply countVotes_cons).
    rewrite sum_list_with_add, sum_indicator.
    rewrite IH by (intros j e He; by apply (Hvalid (S j))).
    rewrite decide_True by lia. done.
Qed.

(** X14. In a finished game the per-player counts add up to the number of
    players dealt (every voter is counted once), the highest vote is at
    most that number, and at least one player reaches it, so the list of
    most-voted names is not empty; for the bot's summary and for the web
    client's. The number of players dealt is [playerCount] in the bot; on
    the web page it is [ceiling playerCount], which is [playerCount] when
    that is whole. *)
Theorem finished_tally_totals :
  (forall session,
     Bot.reachable session -> Bot.stage session = Bot.result ->
     let summary := Bot.computeResultSummary session in
     Z.of_nat (sum_list_with entryVotes (Bot.voteSummary summary)) =
       Bot.playerCount session /\
     Z.of_nat (Bot.summaryHighestVote summary) <= Bot.playerCount session /\
     exists entry,
       entry ∈ Bot.voteSummary summary /\
       entryVotes entry = Bot.summaryHighestVote summary /\
       name (player entry) ∈
         mostVotedList (Bot.voteSummary summary) (Bot.summaryHighestVote summary)) /\
  (forall trim st,
     Web.reachable trim st -> Web.stage st = Web.result ->
     let summary := getVoteSummary (Web.votes st) (Web.assignments st) in
     sum_list_with entryVotes summary = length (Web.assignments st) /\
     Z.of_nat (length (Web.assignments st)) = Qceiling (Web.playerCount st) /\
     (forall n : Z,
        (Web.playerCount st == inject_Z n)%Q ->
        Z.of_nat (sum_list_with entryVotes summary) = n) /\
     (Web.highestVote summary <= length (Web.assignments st))%nat /\
     exists entry,
       entry ∈ summary /\
       entryVotes entry = Web.highestVote summary /\
       name (player entry) ∈ mostVotedList summary (Web.highestVote summary)).
Proof.
  assert (Hcore : forall pc ic names players w ri vi vs,
            GameInv Finished pc ic names players w ri vi vs ->
            let summary := getVoteSummary vs players in
            Z.of_nat (sum_list_with entryVotes summary) = pc /\
            Z.of_nat (Web.highestVote summary) <= pc /\
            exists entry,
              entry ∈ summary /\
              entryVotes entry = Web.highestVote summary /\
              name (player entry) ∈ mostVotedList summary (Web.highestVote summary)).
  { intros pc ic names players w ri vi vs Hinv summary.
    destruct (finished_tally _ _ _ _ _ _ _ _ Hinv) as (Hagree & Hmax & Hpos & _).
    destruct Hinv as (Hpc & _ & (Hlen & Hvs & _) & _ & _ & Hvalid).
    assert (Hsum : sum_list_with entryVotes summary = length vs).
    { subst summary. rewrite sum_getVoteSummary. by apply sum_counts. }
    assert (Hne : summary <> []).
    { intros Hnil. apply (f_equal length) in Hnil.
      subst summary. rewrite length_getVoteSummary in Hnil. simpl in Hnil. lia. }
    destruct (max_list_with_attained entryVotes summary Hne) as (entry & Hin & Hentry).
    rewrite <- web_highestVote_max_list in Hentry.
    split; [lia|]. split.
    - rewrite <- Hentry.
      transitivity (Z.of_nat (sum_list_with entryVotes summary)); [|lia].
      apply inj_le. by apply sum_list_with_in.
    - assert (Hhigh : (0 < Web.highestVote summary)%nat)
        by (subst summary; rewrite <- Hagree; lia).
      exists entry. split; [done|]. split; [done|].
      rewrite mostVotedList_pos by done.
      apply list_elem_of_fmap. exists entry. split; [done|].
      by apply list_elem_of_filter. }
  split.
  - intros s Hreach Hst summary.
    pose proof (bot_reachable_inv s Hreach) as Hinv.
    unfold BotInv in Hinv. rewrite Hst in Hinv. simpl in Hinv.
    destruct (finished_tally _ _ _ _ _ _ _ _ Hinv) as (Hagree & _).
    subst summary. unfold Bot.computeResultSummary. simpl. rewrite Hagree.
    by apply (Hcore _ _ _ _ _ _ _ _ Hinv).
  - intros trim st Hreach Hst summary.
    pose proof (web_reachable_inv trim st Hreach) as [Hinv _].
    rewrite Hst in Hinv. simpl in Hinv.
    destruct (Hcore _ _ _ _ _ _ _ _ Hinv) as (Hsum & Hhigh & Hentry).
    fold summary in Hsum, Hhigh, Hentry.
    assert (Hlen : Z.of_nat (length (Web.assignments st)) = webPlayers st)
      by apply Hinv.
    split; [lia|]. split; [done|]. split; [|split; [lia|done]].
    intros n Hn. rewrite Hsum. unfold webPlayers.
    by rewrite (Qceiling_comp _ _ Hn), Qceiling_Z.
Qed.

Lemma finished_tally_totals_witness :
  Z.of_nat (sum_list_with entryVotes
              (Bot.voteSummary (Bot.computeResultSummary Examples.botFinished))) = 3 /\
  (Web.highestVote
     (getVoteSummary (Web.votes Examples.webFinished)
        (Web.assignments Examples.webFinished)) <=
   length (Web.assignments Examples.webFinished))%nat.
Proof.
  split.
  - apply (proj1 finished_tally_totals Examples.botFinished reachable_botFinished
             eq_refl).
  - apply (proj2 finished_tally_totals Examples.noTrim Examples.webFinished
             reachable_webFinished eq_refl).
Defined.

(** ** The web client's setup page *)

Lemma ensureNameList_full (count : Z) (current : list string) :
  Z.of_nat (length current) = count -> ensureNameList count current = current.
Proof.
  intros Hlen. unfold ensureNameList.
  assert (Hs : slice0 current count = current).
  { unfold slice0. rewrite decide_False by lia. apply take_ge. lia. }
  rewrite Hs. by rewrite decide_True.
Qed.

Lemma length_sanitize trim names : length (Web.sanitize trim names) = length names.
Proof. apply length_imap. Qed.

(** The names [Web.ensureNameList] returns, position by position. *)
Lemma web_ensureNameList_lookup (q : Q) (l : list string) (i : nat) :
  (0 <= q)%Q -> Z.of_nat i < Qceiling q ->
  Web.ensureNameList q l !! i =
    Some (if decide (Z.of_nat i < Qfloor q)
          then default (createDefaultName i) (l !! i)
          else createDefaultName i).
Proof.
  intros Hq Hi. rewrite web_ensureNameList_eq by done.
  assert (Hc : 0 <= Qceiling q) by lia.
  destruct (ensureNameList_spec (Qceiling q) (take (Z.to_nat (Qfloor q)) l) Hc)
    as [_ Hget].
  rewrite Hget by done. f_equal. case_decide.
  - by rewrite lookup_take_lt by lia.
  - by rewrite lookup_take_ge by lia.
Qed.

Lemma Qfloor_whole (q : Q) (n : Z) : (q == inject_Z n)%Q -> Qfloor q = n.
Proof. intros H. by rewrite (Qfloor_comp _ _ H), Qfloor_Z. Qed.

Lemma Qceiling_whole (q : Q) (n : Z) : (q == inject_Z n)%Q -> Qceiling q = n.
Proof. intros H. by rewrite (Qceiling_comp _ _ H), Qceiling_Z. Qed.

(** X15. On the web client's setup page, a start that returns never
    reports an error. It keeps the number of names, replaces each name at
    a position wholly below [playerCount] by its trimmed form, or by the
    default name of its position when the trimmed name is empty, and deals
    the assignments under the resulting names. When [playerCount] is not
    whole, the last name lies at a position not wholly below it and is
    replaced by the default name of that position, whatever was typed
    there; when [playerCount] is whole every name is treated the first
    way. *)
Theorem start_game_sanitizes_names :
  forall trim fuel o st st',
    Web.reachable trim st ->
    Web.stage st = Web.setup ->
    Web.dispatch trim fuel o Web.StartGame st = Some st' ->
    Web.error st' = Web.noError /\
    length (Web.playerNames st') = length (Web.playerNames st) /\
    (forall (i : nat) given,
       Z.of_nat i < Qfloor (Web.playerCount st) ->
       Web.playerNames st !! i = Some given ->
       Web.playerNames st' !! i =
         Some (if decide (0 < String.length (trim given))%nat
               then trim given else createDefaultName i)) /\
    (forall i : nat,
       Qfloor (Web.playerCount st) <= Z.of_nat i < Qceiling (Web.playerCount st) ->
       Web.playerNames st' !! i = Some (createDefaultName i)) /\
    (forall n : Z,
       (Web.playerCount st == inject_Z n)%Q ->
       forall (i : nat) given,
         Web.playerNames st !! i = Some given ->
         Web.playerNames st' !! i =
           Some (if decide (0 < String.length (trim given))%nat
                 then trim given else createDefaultName i)) /\
    name <$> Web.assignments st' = Web.playerNames st'.
Proof.
  intros trim fuel o st st' Hreach Hst Hrun.
  pose proof (web_reachable_inv trim st Hreach) as ((Hpc & Hnames & _) & Hic).
  pose proof (web_reachable_counts trim st Hreach) as Hc.
  assert (Hq : (0 <= Web.playerCount st)%Q) by (destruct Hc as [[? ?] _]; lra).
  revert Hrun. unfold Web.dispatch. simpl.
  rewrite Hst, bool_decide_eq_true_2 by done.
  destruct (web_handleStartGame_eq trim fuel o st Hc) as [Hlen ->].
  destruct (drawImposterIndices _ _ _ _) as [S0|]; [|done].
  simpl. intros [= <-]. simpl.
  assert (Hsan : forall (i : nat) given,
            Z.of_nat i < Qfloor (Web.playerCount st) ->
            Web.playerNames st !! i = Some given ->
            Web.ensureNameList (Web.playerCount st)
              (Web.sanitize trim (Web.playerNames st)) !! i =
              Some (if decide (0 < String.length (trim given))%nat
                    then trim given else createDefaultName i)).
  { intros i given Hi Hgiven.
    pose proof (Qfloor_le_ceiling (Web.playerCount st)).
    rewrite web_ensureNameList_lookup by (done || lia).
    rewrite decide_True by done.
    unfold Web.sanitize. by rewrite list_lookup_imap, Hgiven. }
  split; [done|]. split; [lia|]. split; [done|]. split; [|split].
  - intros i Hi. rewrite web_ensureNameList_lookup by (done || lia).
    by rewrite decide_False by lia.
  - intros n Hn i given Hgiven. apply Hsan; [|done].
    apply lookup_lt_Some in Hgiven. unfold webPlayers in Hnames.
    rewrite (Qfloor_whole _ _ Hn). rewrite (Qceiling_whole _ _ Hn) in Hnames. lia.
  - apply buildAssignments_ids_names.
Qed.

Lemma start_game_sanitizes_names_witness :
  Web.playerNames Examples.webDealt !! 0%nat = Some "Abel" /\
  name <$> Web.assignments Examples.webDealt = Web.playerNames Examples.webDealt.
Proof.
  destruct (start_game_sanitizes_names Examples.noTrim 2%nat Examples.alternating
              Examples.webReady Examples.webDealt reachable_webReady eq_refl)
    as (_ & _ & Hnames & _ & _ & Hlisted); [by vm_compute|].
  split; [|exact Hlisted].
  by rewrite (Hnames 0%nat "Abel") by (by vm_compute).
Defined.



(** ** The session store *)

Lemma getSession_session (chat : Z) (sessions : gmap Z Bot.Session) :
  (Chats.getSession chat sessions).1 = default Bot.resetSession (sessions !! chat).
Proof. unfold Chats.getSession. by destruct (sessions !! chat). Qed.

Lemma getSession_sessions (chat : Z) (sessions : gmap Z Bot.Session) :
  (Chats.getSession chat sessions).2 =
  <[chat := default Bot.resetSession (sessions !! chat)]> sessions.
Proof.
  unfold Chats.getSession. destruct (sessions !! chat) as [s|] eqn:Hs; simpl.
  - by rewrite insert_id.
  - done.
Qed.

(** The store runs the handler of the addressed chat on that chat's session. *)
Lemma onUpdate_handle fuel o (chat : Z) event (sessions : gmap Z Bot.Session) :
  event <> Bot.CmdHelp -> event <> Bot.Callback Bot.other_data ->
  Chats.onUpdate fuel o (Some chat) event sessions =
    '(session', reply) ←
      Bot.handle fuel o event (default Bot.resetSession (sessions !! chat));
    Some (<[chat := session']> sessions, reply).
Proof.
  intros Hhelp Hother.
  pose proof (getSession_session chat sessions) as H1.
  pose proof (getSession_sessions chat sessions) as H2.
  destruct event as [| | | |message|data]; try done; simpl.
  - by rewrite H2.
  - destruct (Chats.getSession chat sessions) as [s sessions'] eqn:Hget.
    simpl in H1, H2. subst s sessions'.
    destruct (Bot.onText fuel o message _) as [[s' r]|]; [|done]. simpl.
    by rewrite insert_insert_eq.
  - destruct data; try done;
      destruct (Chats.getSession chat sessions) as [s sessions'] eqn:Hget;
      simpl in H1, H2; subst s sessions'; simpl;
      match goal with
      | |- context [Bot.handleRevealCallbacks ?d ?s] =>
          destruct (Bot.handleRevealCallbacks d s) as [s' r]
      | |- context [Bot.handleVotingCallbacks ?d ?s] =>
          destruct (Bot.handleVotingCallbacks d s) as [s' r]
      end; by rewrite insert_insert_eq.
Qed.

Lemma onUpdate_frame :
  forall fuel o chatId event (sessions sessions' : gmap Z Bot.Session) reply,
    Chats.onUpdate fuel o chatId event sessions = Some (sessions', reply) ->
    (chatId = None -> sessions' = sessions) /\
    (event = Bot.CmdHelp \/ event = Bot.Callback Bot.other_data ->
     sessions' = sessions) /\
    (forall chat other : Z,
       chatId = Some chat -> other <> chat ->
       sessions' !! other = sessions !! other).
Proof.
  intros fuel o chatId event sessions sessions' reply Hrun.
  split; [|split].
  - intros ->. destruct event as [| | | |message|data]; simpl in Hrun;
      try (by injection Hrun as <- <-).
    destruct data; by injection Hrun as <- <-.
  - intros [->| ->]; destruct chatId; simpl in Hrun; by injection Hrun as <- <-.
  - intros chat other -> Hne.
    assert (Hstep : event <> Bot.CmdHelp -> event <> Bot.Callback Bot.other_data ->
                    sessions' !! other = sessions !! other).
    { intros Hhelp Hother. rewrite onUpdate_handle in Hrun by done.
      destruct (Bot.handle fuel o event _) as [[s' r]|]; [|done].
      simpl in Hrun. injection Hrun as <- <-. by rewrite lookup_insert_ne. }
    destruct event as [| | | |message|data]; try (by apply Hstep).
    + simpl in Hrun. by injection Hrun as <- <-.
    + destruct data; try (by apply Hstep).
      simpl in Hrun. by injection Hrun as <- <-.
Qed.

(** X17. An update addressed to one chat leaves the session of every other
    chat as it was; an update without a chat, [/help], and a callback with
    unknown data leave the whole store as it was. *)
Theorem chats_do_not_interfere :
  forall fuel o chatId event (sessions sessions' : gmap Z Bot.Session) reply,
    Chats.onUpdate fuel o chatId event sessions = Some (sessions', reply) ->
    (chatId = None -> sessions' = sessions) /\
    (event = Bot.CmdHelp \/ event = Bot.Callback Bot.other_data ->
     sessions' = sessions) /\
    (forall chat other : Z,
       chatId = Some chat -> other <> chat ->
       sessions' !! other = sessions !! other).
Proof. apply onUpdate_frame. Qed.

Lemma chats_do_not_interfere_witness :
  exists sessions' reply,
    Chats.onUpdate 0 Examples.alternating (Some 7) (Examples.number 4)
      {[ 5 := Examples.botVoting ]} = Some (sessions', reply) /\
    sessions' !! 5 = Some Examples.botVoting.
Proof.
  destruct (Chats.onUpdate 0 Examples.alternating (Some 7) (Examples.number 4)
              {[ 5 := Examples.botVoting ]}) as [[sessions' reply]|] eqn:Hrun;
    [|by vm_compute in Hrun].
  exists sessions', reply. split; [done|].
  destruct (chats_do_not_interfere 0%nat Examples.alternating (Some 7)
              (Examples.number 4) {[ 5 := Examples.botVoting ]} sessions' reply Hrun)
    as (_ & _ & Hframe).
  rewrite (Hframe 7 5) by done. apply lookup_singleton_eq.
Defined.

(** X18. An update addressed to a chat runs the handler on that chat's
    session, a fresh session standing in for a chat not seen before, and
    stores the result under the chat; so every session the store ever
    holds is one the single-session handler can reach. *)
Theorem stored_sessions_follow_the_handler :
  (forall fuel o (chat : Z) event (sessions : gmap Z Bot.Session),
     event <> Bot.CmdHelp -> event <> Bot.Callback Bot.other_data ->
     Chats.onUpdate fuel o (Some chat) event sessions =
       '(session', reply) ←
         Bot.handle fuel o event (default Bot.resetSession (sessions !! chat));
       Some (<[chat := session']> sessions, reply)) /\
  (forall sessions : gmap Z Bot.Session,
     Chats.reachable sessions ->
     forall (chat : Z) session,
       sessions !! chat = Some session -> Bot.reachable session).
Proof.
  split; [apply onUpdate_handle|].
  induction 1 as [|fuel o chatId event sessions sessions' reply _ IH Hrnd Hrun];
    intros chat s Hs.
  - by rewrite lookup_empty in Hs.
  - destruct (onUpdate_frame _ _ _ _ _ _ _ Hrun) as (Hnone & Hquiet & Hframe).
    destruct chatId as [c|]; [|rewrite Hnone in Hs by done; by eapply IH].
    destruct (decide (chat = c)) as [->|Hne];
      [|rewrite (Hframe c chat) in Hs by done; by eapply IH].
    assert (Hcur : Bot.reachable (default Bot.resetSession (sessions !! c))).
    { destruct (sessions !! c) as [s0|] eqn:Hc; simpl; [by eapply IH|constructor]. }
    assert (Hstep : event <> Bot.CmdHelp -> event <> Bot.Callback Bot.other_data ->
                    Bot.reachable s).
    { intros Hhelp Hother. rewrite onUpdate_handle in Hrun by done.
      destruct (Bot.handle fuel o event _) as [[s' r]|] eqn:Hhandle; [|done].
      simpl in Hrun. injection Hrun as <- <-.
      rewrite lookup_insert_eq in Hs. injection Hs as <-.
      by eapply Bot.reach_handle. }
    destruct event as [| | | |message|data]; try (by apply Hstep).
    + rewrite Hquiet in Hs by (by left). by eapply IH.
    + destruct data; try (by apply Hstep).
      rewrite Hquiet in Hs by (by right). by eapply IH.
Qed.

Lemma stored_sessions_follow_the_handler_witness :
  exists sessions' reply,
    Chats.onUpdate 0 Examples.alternating (Some 7) (Examples.number 4) ∅ =
      Some (sessions', reply) /\
    forall session, sessions' !! 7 = Some session -> Bot.reachable session.
Proof.
  destruct (Chats.onUpdate 0 Examples.alternating (Some 7) (Examples.number 4) ∅)
    as [[sessions' reply]|] eqn:Hrun; [|by vm_compute in Hrun].
  exists sessions', reply. split; [done|]. intros s Hs.
  apply (proj2 stored_sessions_follow_the_handler sessions') with 7; [|done].
  eapply Chats.reach_update; [constructor|apply randomOk_alternating|exact Hrun].
Defined.

(** ** The bot's messages *)

Section Pairs.
Context {A : Type}.

Lemma pairs_ind2 (P : list A -> Prop) :
  P [] -> (forall a, P [a]) -> (forall a b l, P l -> P (a :: b :: l)) ->
  forall l, P l.
Proof.
  intros H0 H1 H2 l.
  cut (P l /\ forall a, P (a :: l)); [tauto|].
  induction l as [|b l [IH1 IH2]]; [by split|].
  split; [apply IH2|]. intros a. by apply H2.
Qed.

Lemma pairs_nil_inv (l : list A) : pairs l = [] -> l = [].
Proof. by destruct l as [|a [|b l]]. Qed.

Lemma join_pairs (l : list A) : mjoin (pairs l) = l.
Proof.
  induction l as [| |a b l IH] using pairs_ind2; [done..|].
  simpl. by rewrite IH.
Qed.

Lemma pairs_rows (l : list A) (row : list A) :
  row ∈ pairs l -> (1 <= length row <= 2)%nat.
Proof.
  induction l as [|a|a b l IH] using pairs_ind2; cbn [pairs].
  - intros H. by apply elem_of_nil in H.
  - intros H. apply list_elem_of_singleton in H as ->. simpl. lia.
  - intros H. apply elem_of_cons in H as [->|H]; [simpl; lia|by apply IH].
Qed.

Lemma length_pairs (l : list A) : length (pairs l) = Nat.div2 (length l + 1).
Proof.
  induction l as [| |a b l IH] using pairs_ind2; [done..|].
  cbn [pairs length]. rewrite IH.
  by replace (S (S (length l)) + 1)%nat with (S (S (length l + 1))) by lia.
Qed.
End Pairs.

Lemma pushButton_cons row rows button :
  rows <> [] ->
  BotRender.pushButton (row :: rows) button = row :: BotRender.pushButton rows button.
Proof.
  intros Hne. unfold BotRender.pushButton.
  destruct rows as [|row' rows]; [done|].
  rewrite (last_cons row).
  destruct (last (row' :: rows)) as [lastRow|] eqn:Hlast;
    [|by apply last_None in Hlast].
  case_decide; [done|].
  by replace (length (row :: row' :: rows) - 1)%nat
    with (S (length (row' :: rows) - 1)) by (simpl; lia).
Qed.

Lemma pushButton_pairs (l : list BotRender.Button) button :
  BotRender.pushButton (pairs l) button = pairs (l ++ [button]).
Proof.
  induction l as [|a|a b l IH] using pairs_ind2; [done..|].
  cbn [pairs app]. destruct (decide (pairs l = [])) as [Hnil|Hne].
  - apply pairs_nil_inv in Hnil as ->. done.
  - rewrite pushButton_cons by done. by rewrite IH.
Qed.

Lemma foldl_pushButton (l : list BotRender.Button) :
  foldl BotRender.pushButton [] l = pairs l.
Proof.
  induction l as [|button l IH] using rev_ind; [done|].
  by rewrite foldl_app, IH, <- pushButton_pairs.
Qed.

Lemma buildVoteKeyboard_rows :
  forall session,
    let buttons :=
      imap (BotRender.voteButton
              (arrayGet (Bot.votes session) (Bot.currentVoterIndex session)))
           (Bot.assignments session) in
    let rows := BotRender.buildVoteKeyboard session in
    rows = pairs buttons ++ [[BotRender.confirmButton]] /\
    mjoin rows = buttons ++ [BotRender.confirmButton] /\
    (forall row, row ∈ rows -> (1 <= length row <= 2)%nat) /\
    length rows = (Nat.div2 (length (Bot.assignments session) + 1) + 1)%nat.
Proof.
  intros s buttons rows.
  assert (Hrows : rows = pairs buttons ++ [[BotRender.confirmButton]]).
  { subst rows buttons. unfold BotRender.buildVoteKeyboard.
    by rewrite foldl_pushButton. }
  split; [done|]. rewrite Hrows. split; [|split].
  - rewrite join_app, join_pairs. done.
  - intros row Hrow. apply elem_of_app in Hrow as [Hrow|Hrow].
    + by apply pairs_rows in Hrow.
    + apply list_elem_of_singleton in Hrow as ->. simpl. lia.
  - rewrite length_app, length_pairs. subst buttons.
    by rewrite length_imap.
Qed.

(** X19. The ballot keyboard lists one button per player, in order, two to
    a row (the last player row holds one button when the number of players
    is odd), followed by a row with the confirm button alone: no row is
    empty or longer than two, and there are ceil(n/2) + 1 rows. *)
Theorem vote_keyboard_layout :
  forall session,
    let buttons :=
      imap (BotRender.voteButton
              (arrayGet (Bot.votes session) (Bot.currentVoterIndex session)))
           (Bot.assignments session) in
    let rows := BotRender.buildVoteKeyboard session in
    rows = pairs buttons ++ [[BotRender.confirmButton]] /\
    mjoin rows = buttons ++ [BotRender.confirmButton] /\
    (forall row, row ∈ rows -> (1 <= length row <= 2)%nat) /\
    length rows = (Nat.div2 (length (Bot.assignments session) + 1) + 1)%nat.
Proof. apply buildVoteKeyboard_rows. Qed.

(** X20. During the ballot every button of the ballot keyboard is either
    the confirm button or the select button of an existing player, whose
    callback the handler records; no button of the keyboard is answered
    'choice not allowed' or ignored. *)
Theorem vote_keyboard_is_accepted :
  forall session button,
    Bot.stage session = Bot.voting ->
    button ∈ mjoin (BotRender.buildVoteKeyboard session) ->
    let reply := (Bot.onCallback (BotRender.data button) session).2 in
    (button = BotRender.confirmButton \/
     exists (index : nat) player,
       Bot.assignments session !! index = Some player /\
       BotRender.data button = Bot.vote_select (Some (Z.of_nat index)) /\
       reply = Bot.SelectionRecorded) /\
    reply <> Bot.InvalidTarget /\ reply <> Bot.Silent.
Proof.
  intros s button Hst Hin reply.
  destruct (buildVoteKeyboard_rows s) as (_ & Hjoin & _).
  rewrite Hjoin in Hin. apply elem_of_app in Hin as [Hin|Hin].
  - apply list_elem_of_lookup in Hin as [index Hindex].
    rewrite list_lookup_imap in Hindex.
    destruct (Bot.assignments s !! index) as [p|] eqn:Hp; [|done].
    simpl in Hindex. injection Hindex as <-.
    assert (Hreply : reply = Bot.SelectionRecorded).
    { subst reply. simpl. unfold Bot.handleVotingCallbacks.
      rewrite decide_False by (intros H; by apply H).
      apply lookup_lt_Some in Hp. by rewrite decide_False by lia. }
    split; [right; by exists index, p|]. by rewrite Hreply.
  - apply list_elem_of_singleton in Hin as ->. split; [by left|].
    subst reply. simpl. unfold Bot.handleVotingCallbacks.
    rewrite decide_False by (intros H; by apply H).
    repeat case_decide; repeat case_match; done.
Qed.

Lemma vote_keyboard_is_accepted_witness :
  (Bot.onCallback (Bot.vote_select (Some 2)) Examples.botVoting).2 <> Bot.InvalidTarget.
Proof.
  apply (vote_keyboard_is_accepted Examples.botVoting
           {| BotRender.label := "Lidya"; BotRender.data := Bot.vote_select (Some 2) |}
           eq_refl).
  vm_compute. do 2 apply list_elem_of_further. apply list_elem_of_here.
Defined.

(** X21. In a reachable reveal-stage session the reveal message is always
    defined (the cursor has a player). Before the word is shown it carries
    the show button; afterwards it carries the next button and its text
    shows [selectedWord] without notice to a non-imposter, and ['???']
    with the imposter notice to an imposter. *)
Theorem reveal_message_by_role :
  forall session,
    Bot.reachable session ->
    Bot.stage session = Bot.reveal ->
    exists player,
      Bot.assignments session !! Bot.currentRevealIndex session = Some player /\
      BotRender.buildRevealMessage session =
        Some (if Bot.wordRevealed session
              then {| BotRender.text :=
                        BotRender.revealedText
                          (BotRender.revealIntro player session)
                          (if isImposter player then "???"
                           else Bot.selectedWord session)
                          (isImposter player);
                      BotRender.keyboard := [[BotRender.nextButton]] |}
              else {| BotRender.text :=
                        BotRender.hiddenText (BotRender.revealIntro player session);
                      BotRender.keyboard := [[BotRender.showButton]] |}).
Proof.
  intros s Hreach Hst.
  pose proof (bot_reachable_inv s Hreach) as Hinv.
  unfold BotInv in Hinv. rewrite Hst in Hinv.
  destruct Hinv as (_ & _ & (_ & _ & _ & _ & Hwords) & Hri & _).
  destruct (lookup_lt_is_Some_2 _ _ Hri) as [p Hp].
  exists p. split; [done|]. unfold BotRender.buildRevealMessage. rewrite Hp. simpl.
  destruct (Bot.wordRevealed s); simpl; [|done].
  rewrite (Hwords p) by (apply list_elem_of_lookup; eauto).
  by destruct (isImposter p).
Qed.

Lemma reveal_message_by_role_witness :
  is_Some (BotRender.buildRevealMessage Examples.botDealt).
Proof.
  destruct (reveal_message_by_role Examples.botDealt reachable_botDealt eq_refl)
    as (p & _ & ->). by eexists.
Defined.

(** X22. In the reveal stage the button the reveal message offers is never
    rejected: its callback shows the word, moves to the next player, or
    opens the ballot. *)
Theorem reveal_keyboard_is_accepted :
  forall session message button,
    Bot.stage session = Bot.reveal ->
    BotRender.buildRevealMessage session = Some message ->
    button ∈ mjoin (BotRender.keyboard message) ->
    let reply := (Bot.onCallback (BotRender.data button) session).2 in
    reply = Bot.WordShown \/ reply = Bot.NextRevealPrompt \/ reply = Bot.VotingOpened.
Proof.
  intros s m button Hst Hm Hin reply. subst reply.
  unfold BotRender.buildRevealMessage in Hm.
  destruct (Bot.assignments s !! Bot.currentRevealIndex s) as [p|]; [|done].
  simpl in Hm. destruct (Bot.wordRevealed s) eqn:Hrev; simpl in Hm;
    injection Hm as <-; simpl in Hin;
    apply list_elem_of_singleton in Hin as ->; simpl;
    unfold Bot.handleRevealCallbacks;
    rewrite decide_False by (intros H; by apply H); rewrite Hrev; simpl.
  - case_match; simpl; eauto.
  - eauto.
Qed.

Lemma reveal_keyboard_is_accepted_witness :
  (Bot.onCallback Bot.reveal_show Examples.botDealt).2 = Bot.WordShown \/
  (Bot.onCallback Bot.reveal_show Examples.botDealt).2 = Bot.NextRevealPrompt \/
  (Bot.onCallback Bot.reveal_show Examples.botDealt).2 = Bot.VotingOpened.
Proof.
  apply (reveal_keyboard_is_accepted Examples.botDealt
           {| BotRender.text :=
                BotRender.hiddenText
                  (BotRender.revealIntro
                     {| id := 0; name := "Abel"; isImposter := true; word := None |}
                     Examples.botDealt);
              BotRender.keyboard := [[BotRender.showButton]] |}
           BotRender.showButton eq_refl); [by vm_compute|].
  apply list_elem_of_here.
Defined.

(** X23. In a reachable ballot the vote message is always defined, carries
    the ballot keyboard, and names the current selection: the dash while
    the voter's entry is [-1], else the name of the selected player. *)
Theorem vote_message_shows_selection :
  forall session,
    Bot.reachable session ->
    Bot.stage session = Bot.voting ->
    exists voter message,
      Bot.assignments session !! Bot.currentVoterIndex session = Some voter /\
      BotRender.buildVoteMessage session = Some message /\
      BotRender.keyboard message = BotRender.buildVoteKeyboard session /\
      ((arrayGet (Bot.votes session) (Bot.currentVoterIndex session) = Some (-1) /\
        BotRender.text message =
          BotRender.voteText voter session BotRender.noSelectionMark) \/
       (exists (target : nat) accused,
          arrayGet (Bot.votes session) (Bot.currentVoterIndex session) =
            Some (Z.of_nat target) /\
          Bot.assignments session !! target = Some accused /\
          BotRender.text message =
            BotRender.voteText voter session (name accused))).
Proof.
  intros s Hreach Hst.
  pose proof (bot_reachable_inv s Hreach) as Hinv.
  unfold BotInv in Hinv. rewrite Hst in Hinv.
  destruct Hinv as (_ & _ & (_ & Hlen & _) & _ & Hvi & Hb).
  destruct (lookup_lt_is_Some_2 _ _ Hvi) as [voter Hvoter].
  destruct (lookup_lt_is_Some_2 (Bot.votes s) (Bot.currentVoterIndex s)) as [e He];
    [lia|].
  pose proof (arrayGet_lookup _ _ _ He) as Hget.
  destruct (Hb _ _ He) as (_ & Hcur & _).
  unfold BotRender.buildVoteMessage. rewrite Hvoter, Hget. simpl.
  destruct (Hcur eq_refl) as [->|(v & -> & Hv)].
  - rewrite decide_False by lia. simpl.
    eexists voter, _. split; [done|]. split; [done|]. split; [done|]. by left.
  - rewrite decide_True by lia.
    destruct (lookup_lt_is_Some_2 (Bot.assignments s) (Z.to_nat v)) as [p Hp]; [lia|].
    rewrite Hp. simpl.
    eexists voter, _. split; [done|]. split; [done|]. split; [done|].
    right. exists (Z.to_nat v), p. by rewrite Z2Nat.id by lia.
Qed.

Lemma vote_message_shows_selection_witness :
  is_Some (BotRender.buildVoteMessage Examples.botVoting).
Proof.
  destruct (vote_message_shows_selection Examples.botVoting reachable_botVoting
              eq_refl) as (voter & m & _ & -> & _).
  by eexists.
Defined.

(** X24. For a reachable finished game the result message has [playerCount
    + 8] lines: the header, which uses the plural wording exactly when
    [imposterCount > 1], one tally line per player, an empty line, and the
    most-voted line; the 'nobody was chosen' line never appears. *)
Theorem result_message_lines :
  forall session,
    Bot.reachable session ->
    Bot.stage session = Bot.result ->
    let summary := Bot.computeResultSummary session in
    BotRender.createResultLines session =
      BotRender.resultHeader
        (joinNames (name <$> filter (fun player => isImposter player = true)
                               (Bot.assignments session)))
        (bool_decide (1 < Bot.imposterCount session))
        (Bot.selectedWord session)
      ++ (BotRender.tallyLine <$> Bot.voteSummary summary)
      ++ [""; BotRender.mostVotedLine (Bot.mostVotedNames summary)] /\
    Z.of_nat (length (BotRender.createResultLines session)) =
      Bot.playerCount session + 8.
Proof.
  intros s Hreach Hst summary.
  pose proof (bot_reachable_inv s Hreach) as Hinv.
  unfold BotInv in Hinv. rewrite Hst in Hinv. simpl in Hinv.
  destruct (finished_tally _ _ _ _ _ _ _ _ Hinv) as (_ & _ & Hpos & _).
  destruct Hinv as (_ & _ & (Hlen & _ & _ & Hcount & _) & _).
  assert (Hlines : BotRender.createResultLines s =
            BotRender.resultHeader
              (joinNames (name <$> filter (fun player => isImposter player = true)
                                     (Bot.assignments s)))
              (bool_decide (1 < Bot.imposterCount s))
              (Bot.selectedWord s)
            ++ (BotRender.tallyLine <$> Bot.voteSummary summary)
            ++ [""; BotRender.mostVotedLine (Bot.mostVotedNames summary)]).
  { unfold BotRender.createResultLines. fold summary.
    rewrite decide_True by (subst summary; simpl; lia).
    do 2 f_equal. apply bool_decide_ext. unfold countImposters in Hcount. lia. }
  split; [done|]. rewrite Hlines.
  rewrite !length_app, length_fmap. subst summary. simpl.
  rewrite length_getVoteSummary. lia.
Qed.

Lemma result_message_lines_witness :
  Z.of_nat (length (BotRender.createResultLines Examples.botFinished)) = 3 + 8.
Proof.
  apply (result_message_lines Examples.botFinished reachable_botFinished eq_refl).
Defined.

(** ** The single-imposter web client *)

Lemma single_assignments names (k : Z) w :
  imap (fun index name =>
          {| id := index;
             name := name;
             isImposter := bool_decide (Z.of_nat index = k);
             word := if bool_decide (Z.of_nat index = k) then None else Some w |})
       names =
  buildAssignments names {[ k ]} w.
Proof.
  unfold buildAssignments. apply imap_ext. intros i n _.
  by rewrite (bool_decide_ext (Z.of_nat i = k) (Z.of_nat i ∈ ({[ k ]} : gset Z)))
    by set_solver.
Qed.

(** X25. In the earlier web client, starting a game whose player count is
    a whole number [n] of at least three never fails and needs one random
    draw: it deals [n] assignments, each with its position as [id], of
    which exactly one is an imposter, the one at index
    [floor(random * n)]; that player has no word, all others have the
    selected word, all votes are [-1], and [imposter] finds that player. *)
Theorem single_imposter_start :
  forall trim o st (n : Z),
    randomOk o ->
    (WebSingle.playerCount st == inject_Z n)%Q ->
    3 <= n ->
    let st' := WebSingle.handleStartGame trim o st in
    WebSingle.stage st' = Web.reveal /\
    WebSingle.error st' = Web.noError /\
    Z.of_nat (length (WebSingle.assignments st')) = n /\
    WebSingle.votes st' = freshVotes n /\
    countImposters (WebSingle.assignments st') = 1%nat /\
    (forall (i : nat) p,
       WebSingle.assignments st' !! i = Some p ->
       id p = i /\
       (isImposter p = true <-> Z.of_nat i = randomIndex (random o 0) n) /\
       word p = if isImposter p then None else Some (WebSingle.selectedWord st')) /\
    exists p,
      WebSingle.imposter st' = Some p /\ isImposter p = true /\
      Z.of_nat (id p) = randomIndex (random o 0) n.
Proof.
  intros trim o st n Hrnd Hn Hpc st'.
  pose proof (ensureNameList_length n
                (Web.sanitize trim (WebSingle.playerNames st)) ltac:(lia)) as Hlen.
  destruct (Hrnd 0%nat) as [Hr0 Hr1].
  pose proof (randomIndex_range (random o 0) n Hr0 Hr1 ltac:(lia)) as Hk.
  subst st'. unfold WebSingle.handleStartGame.
  rewrite (web_ensureNameList_proper _ _ _ Hn), web_ensureNameList_integer.
  rewrite Hlen. unfold MIN_PLAYERS. rewrite decide_False by lia. simpl.
  rewrite single_assignments.
  set (names := ensureNameList n
                  (Web.sanitize trim (WebSingle.playerNames st))) in *.
  set (k := randomIndex (random o 0) n) in *.
  assert (Hcount : countImposters (buildAssignments names {[ k ]} (pickRandomWord o))
                   = 1%nat).
  { rewrite countImposters_buildAssignments; [apply size_singleton|].
    intros x Hx. apply elem_of_singleton in Hx as ->. lia. }
  assert (Hlookup : forall (i : nat) p,
            buildAssignments names {[ k ]} (pickRandomWord o) !! i = Some p ->
            id p = i /\ (isImposter p = true <-> Z.of_nat i = k) /\
            word p = if isImposter p then None else Some (pickRandomWord o)).
  { intros i p Hp. rewrite lookup_buildAssignments in Hp.
    destruct (names !! i) as [nm|]; [|done]. simpl in Hp. injection Hp as <-. simpl.
    split; [done|]. split; [|done].
    rewrite bool_decide_eq_true. set_solver. }
  split; [done|]. split; [done|].
  split; [by rewrite length_buildAssignments|]. split; [done|].
  split; [done|]. split; [done|].
  unfold WebSingle.imposter. simpl. unfold countImposters in Hcount.
  destruct (filter _ (buildAssignments names {[ k ]} (pickRandomWord o)))
    as [|p rest] eqn:Hf; [done|].
  exists p. split; [done|].
  assert (Hin : p ∈ filter (fun player => isImposter player = true)
                      (buildAssignments names {[ k ]} (pickRandomWord o)))
    by (rewrite Hf; left).
  apply list_elem_of_filter in Hin as [Himp Hin].
  apply list_elem_of_lookup in Hin as [i Hi].
  destruct (Hlookup i p Hi) as (-> & Hiff & _). split; [done|]. by apply Hiff.
Qed.

Lemma single_imposter_start_witness :
  countImposters
    (WebSingle.assignments
       (WebSingle.handleStartGame Examples.noTrim Examples.alternating
          WebSingle.initialState)) = 1%nat.
Proof.
  apply (single_imposter_start Examples.noTrim Examples.alternating
           WebSingle.initialState 5 randomOk_alternating);
    by vm_compute.
Defined.

(** X26. On the web client's setup page, editing a name box sets that
    name and leaves the number of names, the counts and the stage as they
    were; every other name at a position wholly below [playerCount] is
    kept. When [playerCount] is whole that is every other name: the names
    are the old ones with the edited one replaced. When it is not, the
    last box lies at a position not wholly below [playerCount] and, unless
    it is the box edited, holds the default name of its position
    afterwards. *)
Theorem name_change_edits_one_name :
  forall trim fuel o st (index : nat) value,
    Web.reachable trim st ->
    Web.stage st = Web.setup ->
    Z.of_nat index < Qceiling (Web.playerCount st) ->
    exists st',
      Web.dispatch trim fuel o (Web.NameChange index value) st = Some st' /\
      Web.playerNames st' !! index = Some value /\
      (forall j : nat, j <> index ->
         Z.of_nat j < Qfloor (Web.playerCount st) ->
         Web.playerNames st' !! j = Web.playerNames st !! j) /\
      (forall j : nat, j <> index ->
         Qfloor (Web.playerCount st) <= Z.of_nat j < Qceiling (Web.playerCount st) ->
         Web.playerNames st' !! j = Some (createDefaultName j)) /\
      (forall n : Z,
         (Web.playerCount st == inject_Z n)%Q ->
         Web.playerNames st' = <[index := value]> (Web.playerNames st)) /\
      length (Web.playerNames st') = length (Web.playerNames st) /\
      Web.playerCount st' = Web.playerCount st /\
      Web.imposterCount st' = Web.imposterCount st /\
      Web.stage st' = Web.setup.
Proof.
  intros trim fuel o st index value Hreach Hst Hindex.
  pose proof (web_reachable_inv trim st Hreach) as ((Hpc & Hnames & _) & _).
  pose proof (web_reachable_counts trim st Hreach) as [[Hlo _] _].
  assert (Hq : (0 <= Web.playerCount st)%Q) by lra.
  pose proof (web_ensureNameList_length (Web.playerCount st) (Web.playerNames st) Hq)
    as Hlen.
  pose proof (Qfloor_le_ceiling (Web.playerCount st)) as Hfc.
  unfold webPlayers in Hnames.
  unfold Web.dispatch. simpl. rewrite Hst.
  rewrite !bool_decide_eq_true_2 by (done || lia). simpl.
  eexists. split; [reflexivity|]. unfold Web.handleNameChange. simpl.
  split; [apply list_lookup_insert_eq; lia|]. split.
  { intros j Hj Hlt. rewrite list_lookup_insert_ne by done.
    rewrite web_ensureNameList_lookup by (done || lia).
    rewrite decide_True by done.
    destruct (lookup_lt_is_Some_2 (Web.playerNames st) j) as [x ->]; [lia|done]. }
  split.
  { intros j Hj Hge. rewrite list_lookup_insert_ne by done.
    rewrite web_ensureNameList_lookup by (done || lia).
    by rewrite decide_False by lia. }
  split.
  { intros n Hn. f_equal.
    rewrite (web_ensureNameList_proper _ _ _ Hn), web_ensureNameList_integer.
    apply ensureNameList_full. by rewrite Hnames, (Qceiling_whole _ _ Hn). }
  split; [rewrite length_insert; lia|]. done.
Qed.

Lemma name_change_edits_one_name_witness :
  exists st',
    Web.dispatch Examples.noTrim 0 Examples.alternating (Web.NameChange 1 "Sara")
      Examples.webReady = Some st' /\
    Web.playerNames st' !! 1%nat = Some "Sara".
Proof.
  destruct (name_change_edits_one_name Examples.noTrim 0%nat Examples.alternating
              Examples.webReady 1%nat "Sara" reachable_webReady eq_refl)
    as (st' & Hrun & Hname & _); [by vm_compute|].
  by exists st'.
Defined.
